(** * The Skill-Gap Evidence Engine of developer-roadmap-validator

  A shallow embedding of the prerequisite graph and its learning-order
  algorithm ([config/prerequisites.js]), the roadmap catalog
  ([config/roadmaps.js]), the TTL + LRU cache ([services/cacheService.js])
  and the gap analyzer ([services/validationService.js]), followed by the
  properties the specification states about them.

  Conventions of the embedding.
  - A JavaScript string is a [string]; its characters stand for the code
    units of the source string, compared by code (the order of the default
    [Array.prototype.sort]).
  - [String.prototype.toLowerCase] follows the case mappings of Unicode,
    which belong to the engine and not to the sources.  It is a parameter,
    [Engine.toLowerCase], of every function that compares names, known
    only by [Engine.foldsASCII]: on a string of ASCII characters it is
    [JS.toLowerCase], the fold of the letters A-Z.
    [Providers.baseTagOf] and [SkillsManager.normalizeProficiency] are
    embedded with the fold itself.
  - A plain object used as a dictionary ([PREREQUISITES], [ROADMAPS]) is a
    [gmap] over its own keys.  A read off it of a name that it only
    inherits from [Object.prototype] ([JS.Object_prototype_names]) gives
    the member inherited, a function or an object, and never [undefined].
    Which properties such a member has itself depends on the engine:
    [Engine.member].
  - A [Set] or [Map] is the list of its elements (entries) in insertion
    order, because both functions that use one depend on that order.
  - A number is a binary64 float ([PrimFloat]) where the source divides or
    compares numbers, and an integer where it counts or adds timestamps.
  - [Date.now()] is an argument of the operation that reads the clock.
  - A thrown [Error] is the [Throw] case of [result]; a [TypeError] that
    the engine raises carries the message V8 gives it. *)

From Stdlib Require Import ZArith Ascii String Uint63 Floats.PrimFloat
  Floats.FloatOps Floats.SpecFloat Floats.FloatAxioms.
From stdpp Require Import gmap strings list sorting pretty.

Local Open Scope Z_scope.

(** ** JavaScript built-ins used by the sources *)

Module JS.

(** [Array.prototype.includes] on an array of strings. *)
Definition includes (l : list string) (x : string) : bool :=
  bool_decide (x ∈ l).

(** [Array.prototype.indexOf]: the first position of [x], or [-1]. *)
Fixpoint indexOf_from (i : Z) (l : list string) (x : string) : Z :=
  match l with
  | [] => -1
  | y :: l' => if decide (y = x) then i else indexOf_from (i + 1) l' x
  end.
Definition indexOf : list string → string → Z := indexOf_from 0.

(** [new Set(array)]: the elements in order of first occurrence. *)
Definition Set_add (s : list string) (x : string) : list string :=
  if includes s x then s else s ++ [x].
Definition Set_from (l : list string) : list string := foldl Set_add [] l.

(** [Set.prototype.delete]. *)
Definition Set_delete (x : string) (s : list string) : list string :=
  filter (λ y, y ≠ x) s.

(** [Array.prototype.sort()] without a comparator, on strings: ascending
    order of code units. *)
Definition sort : list string → list string := merge_sort String.le.


(** [Array.prototype.slice(0, end)]: a negative [end] counts from the
    end of the array. *)
Definition slice0 {A} (l : list A) (end_ : Z) : list A :=
  if end_ <? 0 then take (Z.to_nat (Z.max (Z.of_nat (length l) + end_) 0)) l
  else take (Z.to_nat end_) l.

(** [String.prototype.toLowerCase] on the letters A-Z: what the
    built-in does to a string of ASCII characters. *)
Definition lower_ascii (a : ascii) : ascii :=
  let n := N_of_ascii a in
  if ((65 <=? n) && (n <=? 90))%N then ascii_of_N (n + 32) else a.
Fixpoint toLowerCase (s : string) : string :=
  match s with
  | EmptyString => EmptyString
  | String a s' => String (lower_ascii a) (toLowerCase s')
  end.

(** A string of ASCII characters: every code unit is below 128. *)
Fixpoint isASCII (s : string) : bool :=
  match s with
  | EmptyString => true
  | String a s' => (N_of_ascii a <? 128)%N && isASCII s'
  end.

(** The names that every plain object inherits from [Object.prototype].
    What it inherits under each of them is a function, or
    [Object.prototype] itself under [__proto__]: a value that is truthy
    and is no array. *)
Definition Object_prototype_names : list string :=
  [ "constructor"; "__defineGetter__"; "__defineSetter__";
    "hasOwnProperty"; "__lookupGetter__"; "__lookupSetter__";
    "isPrototypeOf"; "propertyIsEnumerable"; "toString"; "valueOf";
    "__proto__"; "toLocaleString" ].

End JS.

(** ** The engine *)

Module Engine.

(** What reading a property off a built-in object gives, as far as the
    sources depend on it: a falsy value (also [undefined], when the
    object has no such property), a truthy value, which is never an
    array then, or a [TypeError] that the read itself raises. *)
Inductive Read :=
| Falsy
| Truthy
| Raises (message : string).

(** What the embedding takes from the engine: [toLowerCase]; for the
    object that a plain object inherits under the name [name], what
    reading its property [property] gives, [member name property]; and
    the one fact about [toLowerCase] that the sources rely on for the
    names of their tables: on a string of ASCII characters it folds the
    letters A-Z and changes nothing else. *)
Record t := {
  toLowerCase : string → string;
  member : string → string → Read;
  foldsASCII :
    ∀ s, JS.isASCII s = true → toLowerCase s = JS.toLowerCase s
}.

(** An engine for examples, none of which reads an inherited member:
    it folds the letters A-Z of every string, and gives every property
    of an inherited member as falsy. *)
Definition example : t :=
  {| toLowerCase := JS.toLowerCase;
     member := λ _ _, Falsy;
     foldsASCII := λ _ _, eq_refl |}.

End Engine.

(** ** Errors *)

Inductive result (A : Type) : Type :=
| Ok (a : A)
| Throw (message : string).
Arguments Ok {A} a.
Arguments Throw {A} message.

Definition bind {A B} (r : result A) (k : A → result B) : result B :=
  match r with
  | Ok a => k a
  | Throw m => Throw m
  end.

Fixpoint mapM {A B} (f : A → result B) (l : list A) : result (list B) :=
  match l with
  | [] => Ok []
  | x :: l' => bind (f x) (λ y, bind (mapM f l') (λ ys, Ok (y :: ys)))
  end.

(** A loop over [l] that a [throw] leaves. *)
Fixpoint foldlM {A B} (f : A → B → result A) (a : A) (l : list B)
    : result A :=
  match l with
  | [] => Ok a
  | x :: l' => bind (f a x) (λ a', foldlM f a' l')
  end.

(** ** config/prerequisites.js *)

Module Prerequisites.

Definition frontend : list (string * list string) :=
  [ ("HTML", []);
    ("CSS", ["HTML"]);
    ("JavaScript", ["HTML"]);
    ("CSS Flexbox", ["CSS"]);
    ("CSS Grid", ["CSS"]);
    ("Responsive Design", ["CSS"; "CSS Flexbox"]);
    ("Sass/SCSS", ["CSS"]);
    ("CSS-in-JS", ["CSS"; "JavaScript"]);
    ("Tailwind CSS", ["CSS"]);
    ("ES6+", ["JavaScript"]);
    ("DOM Manipulation", ["JavaScript"]);
    ("Event Handling", ["JavaScript"; "DOM Manipulation"]);
    ("Promises", ["JavaScript"; "ES6+"]);
    ("Async/Await", ["Promises"]);
    ("Fetch API", ["Promises"; "Async/Await"]);
    ("React", ["JavaScript"; "ES6+"; "HTML"; "CSS"]);
    ("Component Architecture", ["React"]);
    ("React Hooks", ["React"; "Component Architecture"]);
    ("State Management", ["React"; "React Hooks"]);
    ("npm/yarn", ["JavaScript"]);
    ("Babel", ["JavaScript"; "ES6+"]);
    ("Webpack", ["npm/yarn"; "JavaScript"]);
    ("Vite", ["npm/yarn"; "JavaScript"]);
    ("Git", []);
    ("GitHub", ["Git"]);
    ("Local Storage", ["JavaScript"]);
    ("Web Storage", ["JavaScript"]);
    ("Browser DevTools", ["HTML"; "CSS"; "JavaScript"]);
    ("Browser Compatibility", ["HTML"; "CSS"; "JavaScript"]);
    ("Performance Optimization", ["JavaScript"; "React"]);
    ("Lazy Loading", ["JavaScript"; "React"]);
    ("Code Splitting", ["Webpack"; "React"]);
    ("Unit Testing", ["JavaScript"]);
    ("Jest", ["JavaScript"; "Unit Testing"]);
    ("React Testing Library", ["React"; "Jest"]);
    ("Web Accessibility", ["HTML"; "CSS"]);
    ("ARIA", ["HTML"; "Web Accessibility"]);
    ("TypeScript", ["JavaScript"; "ES6+"]);
    ("SEO Basics", ["HTML"]);
    ("Progressive Web Apps", ["JavaScript"; "Service Workers"; "Fetch API"]);
    ("Web Components", ["JavaScript"; "HTML"; "CSS"]) ].

Definition backend : list (string * list string) :=
  [ ("JavaScript", []);
    ("Node.js", ["JavaScript"]);
    ("JSON", ["JavaScript"]);
    ("HTTP/HTTPS", []);
    ("Express.js", ["Node.js"; "JavaScript"]);
    ("Middleware", ["Express.js"]);
    ("Routing", ["Express.js"]);
    ("REST APIs", ["HTTP/HTTPS"; "JSON"]);
    ("RESTful Design", ["REST APIs"; "Express.js"]);
    ("API Versioning", ["RESTful Design"]);
    ("GraphQL", ["JavaScript"; "REST APIs"]);
    ("Error Handling", ["Express.js"; "REST APIs"]);
    ("API Testing", ["REST APIs"; "Unit Testing"]);
    ("SQL", []);
    ("Database Design", ["SQL"]);
    ("PostgreSQL", ["SQL"; "Database Design"]);
    ("MySQL", ["SQL"; "Database Design"]);
    ("MongoDB", ["JSON"]);
    ("ORMs", ["SQL"; "Node.js"]);
    ("Redis", ["Node.js"]);
    ("Authentication", ["Express.js"; "HTTP/HTTPS"]);
    ("Authorization", ["Authentication"]);
    ("JWT", ["Authentication"; "JSON"]);
    ("OAuth", ["Authentication"]);
    ("Encryption", ["JavaScript"]);
    ("HTTPS/TLS", ["HTTP/HTTPS"]);
    ("Promises", ["JavaScript"]);
    ("Async/Await", ["Promises"; "JavaScript"]);
    ("Event Loop", ["JavaScript"; "Node.js"]);
    ("Unit Testing", ["JavaScript"]);
    ("Integration Testing", ["Unit Testing"; "Express.js"]);
    ("Jest", ["JavaScript"; "Unit Testing"]);
    ("Environment Variables", ["Node.js"]);
    ("Logging", ["Node.js"]);
    ("Deployment", ["Node.js"; "Environment Variables"]);
    ("CI/CD Basics", ["Git"; "Deployment"]);
    ("Docker", ["Node.js"; "Deployment"]);
    ("Caching", ["Node.js"]);
    ("Rate Limiting", ["Express.js"]);
    ("Load Balancing", ["Deployment"]);
    ("Git", []);
    ("GitHub", ["Git"]);
    ("Message Queues", ["Node.js"; "Async/Await"]);
    ("Microservices", ["REST APIs"; "Docker"]);
    ("WebSockets", ["Node.js"; "HTTP/HTTPS"]);
    ("TypeScript", ["JavaScript"]) ].

Definition fullstack : list (string * list string) :=
  [ ("HTML", []);
    ("CSS", ["HTML"]);
    ("JavaScript", ["HTML"]);
    ("Git", []);
    ("GitHub", ["Git"]);
    ("Responsive Design", ["CSS"; "CSS Flexbox"]);
    ("CSS Flexbox", ["CSS"]);
    ("CSS Grid", ["CSS"]);
    ("Browser DevTools", ["HTML"; "CSS"; "JavaScript"]);
    ("ES6+", ["JavaScript"]);
    ("Async/Await", ["JavaScript"; "ES6+"]);
    ("Fetch API", ["JavaScript"; "Async/Await"]);
    ("React", ["JavaScript"; "ES6+"; "HTML"; "CSS"]);
    ("State Management", ["React"]);
    ("Node.js", ["JavaScript"]);
    ("HTTP/HTTPS", []);
    ("REST APIs", ["HTTP/HTTPS"; "JSON"]);
    ("Express.js", ["Node.js"]);
    ("RESTful Design", ["REST APIs"; "Express.js"]);
    ("Error Handling", ["Express.js"; "React"]);
    ("SQL", []);
    ("Database Design", ["SQL"]);
    ("PostgreSQL", ["SQL"; "Database Design"]);
    ("MongoDB", ["Node.js"]);
    ("Authentication", ["Express.js"; "HTTP/HTTPS"]);
    ("Authorization", ["Authentication"]);
    ("JWT", ["Authentication"]);
    ("Encryption", ["JavaScript"]);
    ("npm/yarn", ["JavaScript"]);
    ("Webpack", ["npm/yarn"; "JavaScript"]);
    ("Environment Variables", ["Node.js"]);
    ("Deployment", ["Node.js"; "Environment Variables"]);
    ("Unit Testing", ["JavaScript"]);
    ("Integration Testing", ["Unit Testing"; "Express.js"]);
    ("Jest", ["JavaScript"; "Unit Testing"]);
    ("Caching", ["Node.js"]);
    ("Performance Optimization", ["JavaScript"; "React"]);
    ("Rate Limiting", ["Express.js"]);
    ("TypeScript", ["JavaScript"; "ES6+"]);
    ("Docker", ["Node.js"; "Deployment"]);
    ("Web Accessibility", ["HTML"; "CSS"]);
    ("Logging", ["Node.js"]) ].

(** The table [PREREQUISITES]: track -> skill -> direct prerequisites.
    No literal repeats a key, so the order of the entries is immaterial. *)
Definition PREREQUISITES : gmap string (gmap string (list string)) :=
  list_to_map
    [ ("frontend", list_to_map frontend);
      ("backend", list_to_map backend);
      ("fullstack", list_to_map fullstack) ].

(** What [PREREQUISITES[track]] is when it is not [undefined]: a table
    of the object, or the member of [Object.prototype] that the object
    inherits under the name. *)
Inductive TrackPrereqs :=
| Table (trackPrereqs : gmap string (list string))
| Inherited (name : string).

(** What [trackPrereqs[skill] || []] is: an array, or a value that is
    truthy and is no array. *)
Inductive Prereqs :=
| Array (prereqs : list string)
| NoArray.

(** [prereqs.every(test)]: a value that is no array has no method
    [every]. *)
Definition every (prereqs : Prereqs) (test : string → bool) : result bool :=
  match prereqs with
  | Array prereqs => Ok (forallb test prereqs)
  | NoArray => Throw "prereqs.every is not a function"
  end.

(** The elements of [prereqs] once [every] has returned. *)
Definition elements (prereqs : Prereqs) : list string :=
  match prereqs with
  | Array prereqs => prereqs
  | NoArray => []
  end.

(** The mutable locals of [getLearningOrder]: the array [ordered], the
    Set [remaining] (in insertion order) and the Set [processed]. *)
Record LoopState := {
  ordered : list string;
  remaining : list string;
  processed : gset string
}.

(** An element of the array [getSuggestedNext] returns. *)
Record Suggestion := {
  skill : string;
  reason : string;
  prereqs : list string;
  missingPrereqs : option (list string)
}.

(** The functions below read the table through [PREREQUISITES]; each is
    first written over an arbitrary table [P], so that graphs with
    cycles can be discussed, and then closed over the real one. *)
Section Table.
Variable engine : Engine.t.
Variable P : gmap string (gmap string (list string)).

(** [PREREQUISITES[track]] *)
Definition trackPrereqsOf (track : string) : option TrackPrereqs :=
  match P !! track with
  | Some trackPrereqs => Some (Table trackPrereqs)
  | None =>
    if decide (track ∈ JS.Object_prototype_names) then Some (Inherited track)
    else None
  end.

(** [trackPrereqs[skill] || []] *)
Definition prereqsOf (trackPrereqs : TrackPrereqs) (skill : string)
    : result Prereqs :=
  match trackPrereqs with
  | Table trackPrereqs =>
    match trackPrereqs !! skill with
    | Some prereqs => Ok (Array prereqs)
    | None =>
      if decide (skill ∈ JS.Object_prototype_names) then Ok NoArray
      else Ok (Array [])
    end
  | Inherited name =>
    match Engine.member engine name skill with
    | Engine.Falsy => Ok (Array [])
    | Engine.Truthy => Ok NoArray
    | Engine.Raises message => Throw message
    end
  end.

Definition getPrerequisitesIn (track skillName : string) : result Prereqs :=
  match trackPrereqsOf track with
  | None => Ok (Array [])
  | Some trackPrereqs => prereqsOf trackPrereqs skillName
  end.

Definition prerequisitesMetIn (track skillName : string)
    (learnedSkills : list string) : result bool :=
  bind (getPrerequisitesIn track skillName) (λ prereqs,
    let learnedSet : gset string :=
      list_to_set (Engine.toLowerCase engine <$> learnedSkills) in
    every prereqs
      (λ prereq,
         bool_decide (Engine.toLowerCase engine prereq ∈ learnedSet))).

Definition allPrereqsMet (trackPrereqs : TrackPrereqs)
    (skillNames : list string) (processed : gset string)
    (skill : string) : result bool :=
  bind (prereqsOf trackPrereqs skill) (λ prereqs,
    every prereqs
      (λ prereq, bool_decide (prereq ∈ processed)
                 || negb (JS.includes skillNames prereq))).

(** The body of [for (const skill of remaining)], with the flag
    [addedThisRound] threaded along. *)
Definition visit (trackPrereqs : TrackPrereqs)
    (skillNames : list string) (acc : LoopState * bool) (skill : string)
    : result (LoopState * bool) :=
  bind (allPrereqsMet trackPrereqs skillNames (processed acc.1) skill)
    (λ allPrereqsMet,
       Ok (if allPrereqsMet then
             ({| ordered := ordered acc.1 ++ [skill];
                 remaining := JS.Set_delete skill (remaining acc.1);
                 processed := processed acc.1 ∪ {[skill]} |}, true)
           else acc)).

(** One round of the [while] loop up to the end of the [for]: every
    skill that was in [remaining] when the round began is visited once,
    in insertion order (deleting the element being visited does not
    disturb the iteration of a Set), against the live [processed]. *)
Definition pass (trackPrereqs : TrackPrereqs)
    (skillNames : list string) (st : LoopState)
    : result (LoopState * bool) :=
  foldlM (visit trackPrereqs skillNames) (st, false) (remaining st).

(** The [while] loop.  [fuel] is [maxIterations - iterations], so the
    guard [iterations < maxIterations] is the test [fuel ≠ 0]; the
    result carries the final value of [iterations]. *)
Fixpoint loop (trackPrereqs : TrackPrereqs)
    (skillNames : list string) (fuel : nat) (iterations : nat)
    (st : LoopState) : result (list string * nat) :=
  match fuel with
  | O => Ok (ordered st, iterations)
  | S fuel' =>
    match remaining st with
    | [] => Ok (ordered st, iterations)
    | _ :: _ =>
      bind (pass trackPrereqs skillNames st) (λ '(st', addedThisRound),
        match addedThisRound, remaining st' with
        | false, _ :: _ =>
          Ok (ordered st' ++ JS.sort (remaining st'), S iterations)
        | _, _ => loop trackPrereqs skillNames fuel' (S iterations) st'
        end)
    end
  end.

(** [getLearningOrder] together with the number of rounds it ran. *)
Definition getLearningOrderRun (track : string) (skillNames : list string)
    : result (list string * nat) :=
  match trackPrereqsOf track with
  | None => Ok (skillNames, O)
  | Some trackPrereqs =>
    let maxIterations := (length skillNames * 2)%nat in
    loop trackPrereqs skillNames maxIterations 0
      {| ordered := []; remaining := JS.Set_from skillNames;
         processed := ∅ |}
  end.

Definition getLearningOrderIn (track : string) (skillNames : list string)
    : result (list string) :=
  bind (getLearningOrderRun track skillNames) (λ r, Ok r.1).

(** The body of [for (const gapSkill of gapSkills)]. *)
Definition suggestStep (track : string) (learnedSet : gset string)
    (suggestions : list Suggestion) (gapSkill : string)
    : result (list Suggestion) :=
  bind (getPrerequisitesIn track gapSkill) (λ prereqs,
    bind (every prereqs
            (λ prereq,
               bool_decide (Engine.toLowerCase engine prereq ∈ learnedSet)))
      (λ allPrereqsMet,
         let prereqs := elements prereqs in
         if allPrereqsMet then
           Ok (suggestions
               ++ [ {| skill := gapSkill; reason := "Prerequisites met";
                       prereqs := prereqs; missingPrereqs := None |} ])
         else
           let missingPrereqs :=
             filter
               (λ prereq, Engine.toLowerCase engine prereq ∉ learnedSet)
               prereqs in
           match missingPrereqs with
           | [missing0] =>
             Ok (suggestions
                 ++ [ {| skill := gapSkill;
                         reason := "Learn " +:+ missing0 +:+ " first";
                         prereqs := prereqs;
                         missingPrereqs := Some missingPrereqs |} ])
           | _ => Ok suggestions
           end)).

Definition getSuggestedNextIn (track : string)
    (currentSkills gapSkills : list string) (count : Z)
    : result (list Suggestion) :=
  let learnedSet : gset string :=
    list_to_set (Engine.toLowerCase engine <$> currentSkills) in
  bind (foldlM (suggestStep track learnedSet) [] gapSkills)
    (λ suggestions, Ok (JS.slice0 suggestions count)).

End Table.

Definition getPrerequisites (engine : Engine.t) :=
  getPrerequisitesIn engine PREREQUISITES.
Definition prerequisitesMet (engine : Engine.t) :=
  prerequisitesMetIn engine PREREQUISITES.
Definition getLearningOrder (engine : Engine.t) :=
  getLearningOrderIn engine PREREQUISITES.
Definition getSuggestedNext (engine : Engine.t) :=
  getSuggestedNextIn engine PREREQUISITES.

End Prerequisites.

(** ** config/roadmaps.js *)

Module Roadmaps.

Record Skill := mkSkill {
  name : string;
  weight : Z;
  category : string;
  section : option string
  }.

Record Roadmap := {
  roadmapName : string;
  description : string;
  coreSkills : list Skill
  }.

Definition coreSkills_frontend : list Skill :=
  [ mkSkill "HTML" 10 "fundamentals" None;
    mkSkill "CSS" 10 "fundamentals" None;
    mkSkill "JavaScript" 10 "fundamentals" None;
    mkSkill "Responsive Design" 9 "fundamentals" None;
    mkSkill "Browser DevTools" 9 "fundamentals" None;
    mkSkill "ES6+" 8 "javascript" None;
    mkSkill "Async/Await" 8 "javascript" None;
    mkSkill "Promises" 8 "javascript" None;
    mkSkill "DOM Manipulation" 8 "javascript" None;
    mkSkill "Event Handling" 7 "javascript" None;
    mkSkill "React" 9 "frameworks" None;
    mkSkill "Component Architecture" 8 "frameworks" None;
    mkSkill "State Management" 8 "frameworks" None;
    mkSkill "React Hooks" 8 "frameworks" None;
    mkSkill "CSS Flexbox" 8 "styling" None;
    mkSkill "CSS Grid" 8 "styling" None;
    mkSkill "Sass/SCSS" 6 "styling" None;
    mkSkill "CSS-in-JS" 6 "styling" None;
    mkSkill "Tailwind CSS" 6 "styling" None;
    mkSkill "npm/yarn" 8 "tooling" None;
    mkSkill "Webpack" 7 "tooling" None;
    mkSkill "Vite" 7 "tooling" None;
    mkSkill "Babel" 6 "tooling" None;
    mkSkill "Git" 9 "fundamentals" None;
    mkSkill "GitHub" 8 "fundamentals" None;
    mkSkill "Fetch API" 8 "apis" None;
    mkSkill "Local Storage" 7 "apis" None;
    mkSkill "Web Storage" 6 "apis" None;
    mkSkill "Performance Optimization" 7 "performance" None;
    mkSkill "Lazy Loading" 6 "performance" None;
    mkSkill "Code Splitting" 6 "performance" None;
    mkSkill "Jest" 7 "testing" None;
    mkSkill "React Testing Library" 6 "testing" None;
    mkSkill "Unit Testing" 7 "testing" None;
    mkSkill "Web Accessibility" 7 "accessibility" None;
    mkSkill "ARIA" 6 "accessibility" None;
    mkSkill "TypeScript" 7 "languages" None;
    mkSkill "SEO Basics" 6 "optimization" None;
    mkSkill "Browser Compatibility" 6 "fundamentals" None;
    mkSkill "Progressive Web Apps" 5 "advanced" None;
    mkSkill "Web Components" 5 "advanced" None ].

Definition coreSkills_backend : list Skill :=
  [ mkSkill "JavaScript" 10 "fundamentals" None;
    mkSkill "Node.js" 10 "fundamentals" None;
    mkSkill "HTTP/HTTPS" 9 "fundamentals" None;
    mkSkill "REST APIs" 9 "fundamentals" None;
    mkSkill "JSON" 9 "fundamentals" None;
    mkSkill "Express.js" 9 "frameworks" None;
    mkSkill "Middleware" 8 "frameworks" None;
    mkSkill "Routing" 8 "frameworks" None;
    mkSkill "SQL" 9 "databases" None;
    mkSkill "PostgreSQL" 8 "databases" None;
    mkSkill "MySQL" 8 "databases" None;
    mkSkill "MongoDB" 8 "databases" None;
    mkSkill "Database Design" 8 "databases" None;
    mkSkill "ORMs" 7 "databases" None;
    mkSkill "Authentication" 9 "security" None;
    mkSkill "Authorization" 9 "security" None;
    mkSkill "JWT" 8 "security" None;
    mkSkill "OAuth" 7 "security" None;
    mkSkill "Encryption" 8 "security" None;
    mkSkill "HTTPS/TLS" 8 "security" None;
    mkSkill "RESTful Design" 8 "apis" None;
    mkSkill "API Versioning" 7 "apis" None;
    mkSkill "GraphQL" 6 "apis" None;
    mkSkill "Error Handling" 8 "apis" None;
    mkSkill "Git" 9 "fundamentals" None;
    mkSkill "GitHub" 8 "fundamentals" None;
    mkSkill "Async/Await" 8 "programming" None;
    mkSkill "Promises" 8 "programming" None;
    mkSkill "Event Loop" 7 "programming" None;
    mkSkill "Unit Testing" 8 "testing" None;
    mkSkill "Integration Testing" 7 "testing" None;
    mkSkill "Jest" 7 "testing" None;
    mkSkill "API Testing" 7 "testing" None;
    mkSkill "Environment Variables" 8 "devops" None;
    mkSkill "Logging" 7 "devops" None;
    mkSkill "Deployment" 7 "devops" None;
    mkSkill "CI/CD Basics" 6 "devops" None;
    mkSkill "Caching" 7 "performance" None;
    mkSkill "Rate Limiting" 7 "performance" None;
    mkSkill "Load Balancing" 6 "performance" None;
    mkSkill "Docker" 7 "devops" None;
    mkSkill "Redis" 6 "databases" None;
    mkSkill "Message Queues" 6 "architecture" None;
    mkSkill "Microservices" 5 "architecture" None;
    mkSkill "WebSockets" 6 "realtime" None;
    mkSkill "TypeScript" 7 "languages" None ].

Definition coreSkills_fullstack : list Skill :=
  [ mkSkill "HTML" 10 "frontend-fundamentals" (Some "frontend");
    mkSkill "CSS" 10 "frontend-fundamentals" (Some "frontend");
    mkSkill "JavaScript" 10 "fundamentals" (Some "both");
    mkSkill "Git" 10 "fundamentals" (Some "both");
    mkSkill "React" 9 "frontend-frameworks" (Some "frontend");
    mkSkill "Responsive Design" 9 "frontend-fundamentals" (Some "frontend");
    mkSkill "CSS Flexbox" 8 "frontend-styling" (Some "frontend");
    mkSkill "CSS Grid" 8 "frontend-styling" (Some "frontend");
    mkSkill "ES6+" 8 "javascript" (Some "both");
    mkSkill "Async/Await" 8 "javascript" (Some "both");
    mkSkill "Fetch API" 8 "frontend-apis" (Some "frontend");
    mkSkill "Node.js" 10 "backend-fundamentals" (Some "backend");
    mkSkill "Express.js" 9 "backend-frameworks" (Some "backend");
    mkSkill "REST APIs" 9 "backend-apis" (Some "backend");
    mkSkill "HTTP/HTTPS" 9 "backend-fundamentals" (Some "backend");
    mkSkill "SQL" 9 "backend-databases" (Some "backend");
    mkSkill "Authentication" 9 "backend-security" (Some "backend");
    mkSkill "Database Design" 8 "backend-databases" (Some "backend");
    mkSkill "RESTful Design" 9 "integration" (Some "both");
    mkSkill "State Management" 8 "frontend-frameworks" (Some "frontend");
    mkSkill "Error Handling" 8 "integration" (Some "both");
    mkSkill "Environment Variables" 8 "backend-devops" (Some "backend");
    mkSkill "PostgreSQL" 8 "backend-databases" (Some "backend");
    mkSkill "MongoDB" 7 "backend-databases" (Some "backend");
    mkSkill "Authorization" 8 "backend-security" (Some "backend");
    mkSkill "JWT" 8 "backend-security" (Some "backend");
    mkSkill "Encryption" 7 "backend-security" (Some "backend");
    mkSkill "npm/yarn" 8 "tooling" (Some "both");
    mkSkill "Webpack" 7 "frontend-tooling" (Some "frontend");
    mkSkill "Deployment" 8 "backend-devops" (Some "backend");
    mkSkill "Unit Testing" 8 "testing" (Some "both");
    mkSkill "Integration Testing" 7 "backend-testing" (Some "backend");
    mkSkill "Jest" 7 "testing" (Some "both");
    mkSkill "Caching" 7 "backend-performance" (Some "backend");
    mkSkill "Performance Optimization" 7 "frontend-performance" (Some "frontend");
    mkSkill "Rate Limiting" 7 "backend-performance" (Some "backend");
    mkSkill "TypeScript" 7 "languages" (Some "both");
    mkSkill "Docker" 7 "backend-devops" (Some "backend");
    mkSkill "Web Accessibility" 7 "frontend-accessibility" (Some "frontend");
    mkSkill "Logging" 7 "backend-devops" (Some "backend");
    mkSkill "Browser DevTools" 7 "frontend-fundamentals" (Some "frontend") ].

Definition ROADMAPS : gmap string Roadmap :=
  list_to_map
    [ ("frontend", {| roadmapName := "Frontend Development";
                      description := "Client-side web development skills";
                      coreSkills := coreSkills_frontend |});
      ("backend", {| roadmapName := "Backend Development";
                     description := "Server-side development skills";
                     coreSkills := coreSkills_backend |});
      ("fullstack", {| roadmapName := "Full Stack Development";
                       description := "Complete web development stack";
                       coreSkills := coreSkills_fullstack |}) ].

(** As for the prerequisite table, each function is written over an
    arbitrary catalog [R] and then closed over [ROADMAPS]. *)
Section Catalog.
Variable engine : Engine.t.
Variable R : gmap string Roadmap.

(** [getCoreSkills] returns [roadmap.coreSkills].  Under a name that
    [ROADMAPS] only inherits, [roadmap] is a built-in function or
    [Object.prototype]: it is truthy and has no property [coreSkills],
    and the function returns [undefined], here [None]. *)
Definition getCoreSkillsIn (track : string)
    : result (option (list Skill)) :=
  match R !! track with
  | Some roadmap => Ok (Some (coreSkills roadmap))
  | None =>
    if decide (track ∈ JS.Object_prototype_names) then Ok None
    else Throw ("Invalid track: " +:+ track)
  end.

(** The [TypeError] of a call [coreSkills.method(...)] when
    [coreSkills] is [undefined]. *)
Definition undefined_has_no (method : string) : string :=
  "Cannot read properties of undefined (reading '" +:+ method +:+ "')".

(** [Array.prototype.find] with the predicate of [getSkillWeight]. *)
Definition findSkill (coreSkills : list Skill) (skillName : string)
    : option Skill :=
  snd <$> list_find
    (λ s, Engine.toLowerCase engine (name s)
          = Engine.toLowerCase engine skillName) coreSkills.

Definition getSkillWeightIn (track skillName : string) : result Z :=
  bind (getCoreSkillsIn track) (λ coreSkills,
    match coreSkills with
    | None => Throw (undefined_has_no "find")
    | Some coreSkills =>
      Ok (match findSkill coreSkills skillName with
          | Some skill => weight skill
          | None => 0
          end)
    end).

Definition isCoreSkillIn (track skillName : string) : result bool :=
  bind (getCoreSkillsIn track) (λ coreSkills,
    match coreSkills with
    | None => Throw (undefined_has_no "some")
    | Some coreSkills =>
      Ok (existsb
            (λ s, bool_decide
                    (Engine.toLowerCase engine (name s)
                     = Engine.toLowerCase engine skillName))
            coreSkills)
    end).
End Catalog.

Definition getCoreSkills := getCoreSkillsIn ROADMAPS.
Definition getSkillWeight (engine : Engine.t) :=
  getSkillWeightIn engine ROADMAPS.
Definition isCoreSkill (engine : Engine.t) :=
  isCoreSkillIn engine ROADMAPS.

End Roadmaps.

(** ** config/constants.js *)

Module CONSTANTS.
Definition ROADMAP_VERSION : string := "v1.0".
Module SORT_OPTIONS.
Definition IMPACT : string := "impact".
End SORT_OPTIONS.
Module DEMAND_CATEGORIES.
Definition LOW : string := "low".
Definition MEDIUM : string := "medium".
Definition HIGH : string := "high".
End DEMAND_CATEGORIES.
Module DEMAND_THRESHOLDS.
Definition HIGH : float := 1000%float.
Definition MEDIUM : float := 300%float.
End DEMAND_THRESHOLDS.
Module CACHE.
Definition DEFAULT_TTL_HOURS : Z := 12.
Definition MAX_SIZE : Z := 100.
End CACHE.
End CONSTANTS.

(** ** services/cacheService.js *)

Module CacheService.
Section Values.
(** The cached values, with the value [null] that [get] answers on a
    miss. *)
Context {V : Type}.
Variable null : V.

Record Entry := {
  value : V;
  expiry : Z;
  createdAt : Z
}.

(** The [Map] held in [this.cache]: its entries in insertion order,
    every key at most once. *)
Definition Map_has (key : string) (m : list (string * Entry)) : bool :=
  bool_decide (key ∈ m.*1).

Definition Map_get (key : string) (m : list (string * Entry))
    : option Entry :=
  (λ r, r.2.2) <$> list_find (λ kv, kv.1 = key) m.

Definition Map_delete (key : string) (m : list (string * Entry))
    : list (string * Entry) :=
  filter (λ kv, kv.1 ≠ key) m.

(** [Map.prototype.set]: a present key keeps its position, a new key
    goes to the end. *)
Definition Map_set (key : string) (e : Entry) (m : list (string * Entry))
    : list (string * Entry) :=
  if Map_has key m
  then (λ kv, if decide (kv.1 = key) then (key, e) else kv) <$> m
  else m ++ [(key, e)].

(** [map.keys().next().value] *)
Definition Map_firstKey (m : list (string * Entry)) : option string :=
  head m.*1.

Record t := {
  cache : list (string * Entry);
  maxSize : Z;
  defaultTTL : Z
}.

(** The constructor; an environment variable that is set is given by
    the integer [parseInt] reads from it. *)
Definition constructor (CACHE_MAX_SIZE CACHE_TTL_HOURS : option Z) : t :=
  {| cache := [];
     maxSize := default CONSTANTS.CACHE.MAX_SIZE CACHE_MAX_SIZE;
     defaultTTL :=
       match CACHE_TTL_HOURS with
       | Some h => h * 3600000
       | None => CONSTANTS.CACHE.DEFAULT_TTL_HOURS * 3600000
       end |}.

Definition with_cache (c : t) (m : list (string * Entry)) : t :=
  {| cache := m; maxSize := maxSize c; defaultTTL := defaultTTL c |}.

(** [ttlMs || this.defaultTTL]: an absent and a zero [ttlMs] both give
    the default. *)
Definition ttl_or_default (ttlMs : option Z) (dflt : Z) : Z :=
  match ttlMs with
  | Some ttl => if ttl =? 0 then dflt else ttl
  | None => dflt
  end.

(** The entry [set] stores. *)
Definition new_entry (now : Z) (v : V) (ttlMs : option Z) (c : t) : Entry :=
  {| value := v;
     expiry := now + ttl_or_default ttlMs (defaultTTL c);
     createdAt := now |}.

(** The store after the eviction step of [set]. *)
Definition evict (key : string) (c : t) : list (string * Entry) :=
  if (maxSize c <=? Z.of_nat (length (cache c)))
     && negb (Map_has key (cache c))
  then match Map_firstKey (cache c) with
       | Some firstKey => Map_delete firstKey (cache c)
       | None => cache c
       end
  else cache c.

(** [set(key, value, ttlMs)] at time [now]: the value it returns and
    the cache it leaves. *)
Definition set (now : Z) (key : string) (v : V) (ttlMs : option Z)
    (c : t) : V * t :=
  (v, with_cache c (Map_set key (new_entry now v ttlMs c) (evict key c))).

(** [get(key)] at time [now]. *)
Definition get (now : Z) (key : string) (c : t) : V * t :=
  match Map_get key (cache c) with
  | None => (null, c)
  | Some entry =>
    if expiry entry <? now then
      (null, with_cache c (Map_delete key (cache c)))
    else
      (value entry,
       with_cache c (Map_set key entry (Map_delete key (cache c))))
  end.

Definition delete (key : string) (c : t) : bool * t :=
  (Map_has key (cache c), with_cache c (Map_delete key (cache c))).

Definition clear (c : t) : t := with_cache c [].

(** [cleanExpired()] at time [now]: the number of entries removed and
    the cache left. *)
Definition cleanExpired (now : Z) (c : t) : nat * t :=
  let kept := filter (λ kv, ¬ expiry kv.2 < now) (cache c) in
  ((length (cache c) - length kept)%nat, with_cache c kept).

Definition Object_get {W} (params : list (string * W)) (key : string)
    : option W :=
  (λ r, r.2.2) <$> list_find (λ kv, kv.1 = key) params.


(** Sequences of [set] and [get] calls. *)
Inductive op :=
| OpSet (now : Z) (key : string) (v : V) (ttlMs : option Z)
| OpGet (now : Z) (key : string).

Definition step (c : t) (o : op) : t :=
  match o with
  | OpSet now key v ttlMs => (set now key v ttlMs c).2
  | OpGet now key => (get now key c).2
  end.

Definition run (c : t) (ops : list op) : t := foldl step c ops.

End Values.
Arguments Entry : clear implicits.
Arguments t : clear implicits.
Arguments op : clear implicits.
End CacheService.

(** ** services/validationService.js *)

Module ValidationService.

Record UserSkill := {
  userSkillName : string;
  proficiency : string
  }.

Record Gap := {
  skill : string;
  weight : Z
  }.

(** [Number.prototype.toFixed(1)] for a number below [10^21] in absolute
    value (every percentage is): the integer [n] for which [n / 10] is
    nearest to the number, the larger one on a tie, written with one
    digit after the point. *)
Definition tenths (m : positive) (e : Z) : Z :=
  if e <? 0 then (20 * Z.pos m + 2 ^ (- e)) / (2 * 2 ^ (- e))
  else 10 * Z.pos m * 2 ^ e.

Definition fixed1 (n : Z) : string :=
  pretty (n / 10) +:+ "." +:+ pretty (n mod 10).

Definition toFixed1 (x : float) : string :=
  match Prim2SF x with
  | S754_nan => "NaN"
  | S754_infinity s => if s then "-Infinity" else "Infinity"
  | S754_zero _ => "0.0"
  | S754_finite s m e => (if s then "-" else "") +:+ fixed1 (tenths m e)
  end.

(** The number that a [length] is. *)
Definition number_of_length (n : nat) : float :=
  of_uint63 (Uint63.of_Z (Z.of_nat n)).

(** [((1 - gaps.length / coreSkillNames.length) * 100).toFixed(1)] *)
Definition coveragePercentOf (gapCount coreSkillCount : nat) : string :=
  toFixed1
    ((1 - number_of_length gapCount / number_of_length coreSkillCount)
     * 100)%float.

(** The percentage as the specification writes it, in exact arithmetic:
    [(1 - gapCount / coreSkillCount) × 100] rounded to the nearest tenth
    (a tie to the larger one), for [coreSkillCount > 0]. *)
Definition coveragePercent_exact (gapCount coreSkillCount : nat) : string :=
  let g := Z.of_nat gapCount in
  let c := Z.of_nat coreSkillCount in
  fixed1 ((2000 * (c - g) + c) / (2 * c)).

Definition categorizeDemand (combinedScore : float) : string :=
  if (CONSTANTS.DEMAND_THRESHOLDS.HIGH <=? combinedScore)%float then
    CONSTANTS.DEMAND_CATEGORIES.HIGH
  else if (CONSTANTS.DEMAND_THRESHOLDS.MEDIUM <=? combinedScore)%float then
    CONSTANTS.DEMAND_CATEGORIES.MEDIUM
  else
    CONSTANTS.DEMAND_CATEGORIES.LOW.

Section Catalog.
Variable engine : Engine.t.
Variable R : gmap string Roadmaps.Roadmap.

Definition findGapsIn (track : string)
    (userSkillNames coreSkillNames : list string) : result (list Gap) :=
  let userSkillSet : gset string :=
    list_to_set (Engine.toLowerCase engine <$> userSkillNames) in
  mapM
    (λ skill,
       bind (Roadmaps.getSkillWeightIn engine R track skill) (λ w,
         Ok {| skill := skill; weight := w |}))
    (filter
       (λ coreSkill, Engine.toLowerCase engine coreSkill ∉ userSkillSet)
       coreSkillNames).
End Catalog.

Definition findGaps (engine : Engine.t) :=
  findGapsIn engine Roadmaps.ROADMAPS.

End ValidationService.


(** * The rest of the cited files, their callees and their callers

  The modules below embed the functions that stand beside the ones
  above in the same source files, the providers they call and the
  controller and middleware that call them.  A module that continues a
  source file whose first part is embedded above carries a name of its
  own: [Constants] continues [CONSTANTS], [Cache] continues
  [CacheService], [Catalog] continues [Roadmaps] and [Analyzer]
  continues [ValidationService]. *)

(** ** config/constants.js, further entries *)

Module Constants.
Module TRACKS.
Definition FRONTEND : string := "frontend".
Definition BACKEND : string := "backend".
Definition FULLSTACK : string := "fullstack".
(** [Object.values(CONSTANTS.TRACKS)] *)
Definition values : list string := [FRONTEND; BACKEND; FULLSTACK].
End TRACKS.
Module PROFICIENCY_LEVELS.
Definition BEGINNER : string := "beginner".
Definition INTERMEDIATE : string := "intermediate".
Definition STRONG : string := "strong".
(** [Object.values(CONSTANTS.PROFICIENCY_LEVELS)] *)
Definition values : list string := [BEGINNER; INTERMEDIATE; STRONG].
End PROFICIENCY_LEVELS.
Module SORT_OPTIONS.
Definition IMPACT : string := CONSTANTS.SORT_OPTIONS.IMPACT.
Definition DEMAND : string := "demand".
Definition LEARNING_ORDER : string := "learning_order".
Definition QUICK_WINS : string := "quick_wins".
End SORT_OPTIONS.
Module RATE_LIMIT.
Definition WINDOW_MS : Z := 15 * 60 * 1000.
Definition MAX_REQUESTS : Z := 100.
Definition MAX_PER_KEY : Z := 50.
End RATE_LIMIT.
End Constants.

(** ** Further built-ins *)

Module JSArray.

(** [Array.prototype.sort(comparefn)].  The sort is stable, and
    [after a b] tells that [comparefn(a, b) > 0], that is, that [a] goes
    after [b]; a result of [comparefn] that is NaN counts as 0.  For a
    consistent comparator (every comparator on integers below, and a
    difference of numbers none of which is NaN) the language fixes the
    result, which is the one given here; for any other comparator it
    only promises a permutation. *)
Fixpoint insert {A} (after : A → A → bool) (x : A) (l : list A) : list A :=
  match l with
  | [] => [x]
  | y :: l' => if after x y then y :: insert after x l' else x :: l
  end.
Definition sortWith {A} (after : A → A → bool) (l : list A) : list A :=
  foldr (insert after) [] l.

End JSArray.

Module JSNumber.

(** The number that an integer below [2^63] in absolute value is. *)
Definition of_Z (z : Z) : float :=
  if z <? 0 then (- of_uint63 (Uint63.of_Z (- z)))%float
  else of_uint63 (Uint63.of_Z z).

(** [x || 0] for a number [x] that may be [undefined]: the falsy
    numbers are the two zeros and NaN. *)
Definition or0 (x : option float) : float :=
  match x with
  | None => 0%float
  | Some x => if is_zero x || is_nan x then 0%float else x
  end.

(** [comparefn(a, b) > 0] for [comparefn = (a, b) => b - a] read at the
    numbers [a] and [b]. *)
Definition descending (a b : float) : bool := (0 <? b - a)%float.

End JSNumber.

Module JSString.

(** The code units below 256 that [\s] matches. *)
Definition isSpace (a : ascii) : bool :=
  bool_decide (N_of_ascii a ∈ [9; 10; 11; 12; 13; 32; 160]%N).

(** [s.replace(/\s+/g, r)]: every maximal run of white space becomes
    one [r]; [inRun] tells that the unit before was white space. *)
Fixpoint replaceSpaces_from (inRun : bool) (r : string) (s : string)
    : string :=
  match s with
  | EmptyString => EmptyString
  | String a s' =>
    if isSpace a then
      if inRun then replaceSpaces_from true r s'
      else r +:+ replaceSpaces_from true r s'
    else String a (replaceSpaces_from false r s')
  end.
Definition replaceSpaces : string → string → string :=
  replaceSpaces_from false.

(** [s.replace(/c/g, r)] for a single code unit [c]. *)
Fixpoint replaceAll (c : ascii) (r : string) (s : string) : string :=
  match s with
  | EmptyString => EmptyString
  | String a s' =>
    if decide (a = c) then r +:+ replaceAll c r s'
    else String a (replaceAll c r s')
  end.

End JSString.

(** ** services/cacheService.js, the other methods *)

Module Cache.
Section Values.
Context {V : Type} `{EqDecision V}.
Variable null : V.

(** [has(key)] at time [now]: it answers through [get], and so moves or
    deletes the entry as [get] does. *)
Definition has (now : Z) (key : string) (c : CacheService.t V)
    : bool * CacheService.t V :=
  let r := CacheService.get null now key c in
  (bool_decide (r.1 ≠ null), r.2).

Record Stats := {
  totalEntries : nat;
  validEntries : nat;
  expiredEntries : nat;
  maxSize : Z;
  utilizationPercent : string
}.

(** The body of the loop of [getStats]; the pair is [(validEntries,
    expiredEntries)]. *)
Definition countEntry (now : Z) (acc : nat * nat)
    (kv : string * CacheService.Entry V) : nat * nat :=
  if CacheService.expiry kv.2 <? now then (acc.1, S acc.2)
  else (S acc.1, acc.2).

(** [getStats()] at time [now]. *)
Definition getStats (now : Z) (c : CacheService.t V) : Stats :=
  let counts := foldl (countEntry now) (O, O) (CacheService.cache c) in
  {| totalEntries := length (CacheService.cache c);
     validEntries := counts.1;
     expiredEntries := counts.2;
     maxSize := CacheService.maxSize c;
     utilizationPercent :=
       ValidationService.toFixed1
         (ValidationService.number_of_length
            (length (CacheService.cache c))
          / JSNumber.of_Z (CacheService.maxSize c) * 100)%float |}.

(** A call of a method that may change the cache. *)
Inductive call :=
| Set_ (now : Z) (key : string) (v : V) (ttlMs : option Z)
| Get (now : Z) (key : string)
| Has (now : Z) (key : string)
| Delete (key : string)
| Clear
| CleanExpired (now : Z).

Definition exec (c : CacheService.t V) (o : call) : CacheService.t V :=
  match o with
  | Set_ now key v ttlMs => (CacheService.set now key v ttlMs c).2
  | Get now key => (CacheService.get null now key c).2
  | Has now key => (has now key c).2
  | Delete key => (CacheService.delete key c).2
  | Clear => CacheService.clear c
  | CleanExpired now => (CacheService.cleanExpired now c).2
  end.

(** The key a call names. *)
Definition keyOf (o : call) : option string :=
  match o with
  | Set_ _ key _ _ | Get _ key | Has _ key | Delete key => Some key
  | Clear | CleanExpired _ => None
  end.

(** [getOrSet(key, fetchFunction, ttlMs)], called at time [now].  On a
    miss the function awaits [fetchFunction()]: [during] are the calls
    other tasks make on the cache in the meantime, [fetched] is what the
    awaited promise settles to, and [now'] is the time at which the
    function resumes and stores the data.  The answer is the pair
    [(data, fromCache)], or the rejection of [fetchFunction]. *)
Definition getOrSet (now : Z) (key : string) (during : list call)
    (fetched : result V) (now' : Z) (ttlMs : option Z)
    (c : CacheService.t V) : result (V * bool) * CacheService.t V :=
  let r := CacheService.get null now key c in
  if decide (r.1 ≠ null) then (Ok (r.1, true), r.2)
  else
    let c' := foldl exec r.2 during in
    match fetched with
    | Throw message => (Throw message, c')
    | Ok freshData =>
      (Ok (freshData, false),
       (CacheService.set now' key freshData ttlMs c').2)
    end.

End Values.
Arguments call : clear implicits.
End Cache.

(** ** config/roadmaps.js, [getAllSkills] *)

Module Catalog.

(** The body of [getAllSkills] over the roadmaps [Object.values] lists. *)
Definition allSkillsOf (roadmaps : list Roadmaps.Roadmap) : list string :=
  JS.sort
    (JS.Set_from
       (roadmaps ≫= λ roadmap, Roadmaps.name <$> Roadmaps.coreSkills roadmap)).

(** [getAllSkills] over a catalog [R].  The order in which
    [Object.values] lists the roadmaps only decides the order in which
    names enter the Set, which the final sort forgets. *)
Definition getAllSkillsIn (R : gmap string Roadmaps.Roadmap) : list string :=
  allSkillsOf (map_to_list R).*2.

Definition getAllSkills : list string := getAllSkillsIn Roadmaps.ROADMAPS.

End Catalog.

(** ** services/githubService.js and services/stackoverflowService.js *)

Module Providers.

(** The object the producer of [getSkillDemand] builds, in either
    service: [count] is the total the remote API reports, [undefined]
    when its answer carries none.  (The fields [timestamp], and [tags]
    of Stack Overflow, are left out.) *)
Record DemandData := {
  dataSkill : string;
  dataTrack : string;
  dataCount : option float
}.

(** What [getSkillDemand] resolves to: the answer of
    [cacheService.getOrSet], an object [{ data, fromCache }], or the
    object of its [catch] clause, which has the fields [skill], [track],
    [count: 0] and [error] and no field [data]. *)
Inductive DemandAnswer :=
| Fetched (data : DemandData) (fromCache : bool)
| Failed (skill track : string) (error : string).

(** [getSkillDemand(skillName, track, _)] of either service, given what
    its call of [cacheService.getOrSet] settles to.  The promise it
    returns is never rejected. *)
Definition getSkillDemand (settled : result (DemandData * bool))
    (skillName track : string) : result DemandAnswer :=
  match settled with
  | Ok (data, fromCache) => Ok (Fetched data fromCache)
  | Throw message => Ok (Failed skillName track message)
  end.

(** [answer.data?.count] and [answer.data?.error] *)
Definition data_count (answer : DemandAnswer) : option float :=
  match answer with
  | Fetched data _ => dataCount data
  | Failed _ _ _ => None
  end.
Definition data_error (answer : DemandAnswer) : option string :=
  match answer with
  | Fetched _ _ => None
  | Failed _ _ _ => None
  end.

(** [tagMap] of [buildSkillTags] *)
Definition tagMap : list (string * list string) :=
  [ ("javascript", ["javascript"; "js"]);
    ("typescript", ["typescript"; "ts"]);
    ("nodejs", ["node.js"; "nodejs"]);
    ("node.js", ["node.js"; "nodejs"]);
    ("reactjs", ["reactjs"; "react"]);
    ("react", ["reactjs"; "react"]);
    ("expressjs", ["express"; "expressjs"]);
    ("express.js", ["express"; "expressjs"]);
    ("mongodb", ["mongodb"; "mongo"]);
    ("postgresql", ["postgresql"; "postgres"]);
    ("css3", ["css"; "css3"]);
    ("html5", ["html"; "html5"]);
    ("es6", ["ecmascript-6"; "es6"]);
    ("async-await", ["async-await"; "javascript"]);
    ("jwt", ["jwt"; "json-web-token"]);
    ("oauth", ["oauth"; "oauth-2.0"]) ].

(** The constant [baseTag] of [buildSkillTags]. *)
Definition baseTagOf (skillName : string) : string :=
  JSString.replaceAll "+" "plus"
    (JSString.replaceAll "." ""
       (JSString.replaceAll "/" "-"
          (JSString.replaceSpaces "-" (JS.toLowerCase skillName)))).

(** What [buildSkillTags] returns: an array of tags, or the member of
    [Object.prototype] that [tagMap], a plain object, inherits under the
    name (the key [baseTag] is computed from a string of the caller). *)
Inductive SkillTags :=
| Tags (tags : list string)
| Inherited (name : string).

(** [buildSkillTags(skillName, track)] of the Stack Overflow service. *)
Definition buildSkillTags (skillName track : string) : SkillTags :=
  let baseTag := baseTagOf skillName in
  let tags := [baseTag] in
  match (list_to_map tagMap : gmap string (list string)) !! baseTag with
  | Some found => Tags found
  | None =>
    if decide (baseTag ∈ JS.Object_prototype_names) then Inherited baseTag
    else Tags tags
  end.

End Providers.

(** ** services/validationService.js, the other methods *)

Module Analyzer.

Record ByProficiency := {
  beginner : list string;
  intermediate : list string;
  strong : list string
}.

Definition categorizeUserSkills (userSkills : list ValidationService.UserSkill)
    : ByProficiency :=
  let named level :=
    ValidationService.userSkillName <$>
      filter (λ s, ValidationService.proficiency s = level) userSkills in
  {| beginner := named Constants.PROFICIENCY_LEVELS.BEGINNER;
     intermediate := named Constants.PROFICIENCY_LEVELS.INTERMEDIATE;
     strong := named Constants.PROFICIENCY_LEVELS.STRONG |}.

(** The comparator [(a, b) => b.weight - a.weight], on integers. *)
Definition heavier_after (weightOf_a weightOf_b : Z) : bool :=
  0 <? weightOf_b - weightOf_a.

Record SourceEvidence := {
  count : float;
  error : option string
}.

(** The field [evidence] of a gap.  (The field [timestamp], the reading
    of the clock, is left out.) *)
Record Evidence := {
  github : SourceEvidence;
  stackoverflow : SourceEvidence;
  combinedScore : float;
  demandCategory : string
}.

(** The object [{ ...gap, evidence }]. *)
Record WithEvidence (G : Type) := {
  gap : G;
  evidence : Evidence
}.
Arguments gap {G} _.
Arguments evidence {G} _.

(** [Promise.all] of two promises that have settled. *)
Definition Promise_all2 {A B} (a : result A) (b : result B)
    : result (A * B) :=
  bind a (λ x, bind b (λ y, Ok (x, y))).

(** The [try] block of [addEvidenceToGaps] after the [await], and its
    [catch] clause. *)
Definition evidenceOf
    (settled : result (Providers.DemandAnswer * Providers.DemandAnswer))
    : Evidence :=
  match settled with
  | Ok (githubData, soData) =>
    let githubCount := JSNumber.or0 (Providers.data_count githubData) in
    let soCount := JSNumber.or0 (Providers.data_count soData) in
    let combinedScore := (githubCount + soCount * 0.5)%float in
    {| github := {| count := githubCount;
                    error := Providers.data_error githubData |};
       stackoverflow := {| count := soCount;
                           error := Providers.data_error soData |};
       combinedScore := combinedScore;
       demandCategory := ValidationService.categorizeDemand combinedScore |}
  | Throw message =>
    {| github := {| count := 0%float; error := Some message |};
       stackoverflow := {| count := 0%float; error := Some message |};
       combinedScore := 0%float;
       demandCategory := CONSTANTS.DEMAND_CATEGORIES.LOW |}
  end.

(** What the two calls of [cacheService.getOrSet] made for the gap at
    position [i] settle to: the one of the GitHub service and the one of
    the Stack Overflow service. *)
Definition Settled : Type :=
  nat → result (Providers.DemandData * bool)
        * result (Providers.DemandData * bool).

Section Gaps.
(** The gaps of [validateSkills] have a skill and a weight, those of
    [validateFullstack] a section besides. *)
Context {G : Type}.
Variable skillOf : G → string.
Variable weightOf : G → Z.

Definition addEvidenceToGaps (settled : Settled) (gaps : list G)
    (track : string) : list (WithEvidence G) :=
  imap
    (λ i gap,
       {| gap := gap;
          evidence :=
            evidenceOf
              (Promise_all2
                 (Providers.getSkillDemand (settled i).1 (skillOf gap) track)
                 (Providers.getSkillDemand (settled i).2 (skillOf gap) track))
       |})
    gaps.

(** [a.evidence.combinedScore / (a.weight + 1)] *)
Definition quickWinScore (a : WithEvidence G) : float :=
  (combinedScore (evidence a) / JSNumber.of_Z (weightOf (gap a) + 1))%float.

Definition sortGaps (gaps : list (WithEvidence G)) (sortBy : string)
    : list (WithEvidence G) :=
  if decide (sortBy = Constants.SORT_OPTIONS.IMPACT) then
    JSArray.sortWith
      (λ a b, heavier_after (weightOf (gap a)) (weightOf (gap b))) gaps
  else if decide (sortBy = Constants.SORT_OPTIONS.DEMAND) then
    JSArray.sortWith
      (λ a b, JSNumber.descending (combinedScore (evidence a))
                                  (combinedScore (evidence b))) gaps
  else if decide (sortBy = Constants.SORT_OPTIONS.LEARNING_ORDER) then
    gaps
  else if decide (sortBy = Constants.SORT_OPTIONS.QUICK_WINS) then
    JSArray.sortWith
      (λ a b, JSNumber.descending (quickWinScore a) (quickWinScore b)) gaps
  else gaps.

End Gaps.

(** The gaps of [validateFullstack]. *)
Record SectionGap := {
  skill : string;
  weight : Z;
  section : option string
}.

Record Section_ := {
  gaps : list (WithEvidence SectionGap);
  count_ : nat
}.

Record Sections := {
  frontend : Section_;
  backend : Section_;
  both : Section_
}.

(** What [validateSkills] returns.  (The field [timestamp] is left
    out.) *)
Record Report := {
  track : string;
  totalCoreSkills : nat;
  userSkillCount : nat;
  gapCount : nat;
  coveragePercent : string;
  sortedGaps : list (WithEvidence ValidationService.Gap);
  keepSharp : list ValidationService.Gap;
  learningOrder : list string;
  suggestedNext : list Prerequisites.Suggestion;
  sortedBy : string;
  roadmapVersion : string
}.

(** What [validateFullstack] returns.  (The field [timestamp] is left
    out.) *)
Record FullstackReport := {
  fsTrack : string;
  fsTotalCoreSkills : nat;
  fsUserSkillCount : nat;
  fsGapCount : nat;
  fsCoveragePercent : string;
  sections : Sections;
  fsRoadmapVersion : string
}.

Section Tables.
Variable engine : Engine.t.
Variable R : gmap string Roadmaps.Roadmap.
Variable P : gmap string (gmap string (list string)).

Definition findKeepSharpSkillsIn (track : string)
    (strongSkills coreSkillNames : list string)
    : result (list ValidationService.Gap) :=
  let coreSkillSet : gset string :=
    list_to_set (Engine.toLowerCase engine <$> coreSkillNames) in
  bind
    (mapM
       (λ skill,
          bind (Roadmaps.getSkillWeightIn engine R track skill) (λ w,
            Ok {| ValidationService.skill := skill;
                  ValidationService.weight := w |}))
       (filter (λ skill, Engine.toLowerCase engine skill ∈ coreSkillSet)
          strongSkills))
    (λ found,
       Ok (JSArray.sortWith
             (λ a b, heavier_after (ValidationService.weight a)
                                   (ValidationService.weight b))
             found)).

(** [validateSkills(track, userSkills, { sortBy })]; [sortBy] is [None]
    when the options name none. *)
Definition validateSkillsIn (settled : Settled) (track : string)
    (userSkills : list ValidationService.UserSkill)
    (sortBy : option string) : result Report :=
  let sortBy := default Constants.SORT_OPTIONS.IMPACT sortBy in
  bind (Roadmaps.getCoreSkillsIn R track) (λ coreSkills,
    match coreSkills with
    | None => Throw (Roadmaps.undefined_has_no "map")
    | Some coreSkills =>
      let coreSkillNames := Roadmaps.name <$> coreSkills in
      let userSkillsByProficiency := categorizeUserSkills userSkills in
      let allUserSkillNames :=
        ValidationService.userSkillName <$> userSkills in
      bind (ValidationService.findGapsIn engine R track allUserSkillNames
              coreSkillNames) (λ gaps,
        bind (findKeepSharpSkillsIn track (strong userSkillsByProficiency)
                coreSkillNames) (λ keepSharpSkills,
          let gapsWithEvidence :=
            addEvidenceToGaps ValidationService.skill settled gaps track in
          let sortedGaps :=
            sortGaps ValidationService.weight gapsWithEvidence sortBy in
          bind (Prerequisites.getLearningOrderIn engine P track
                  ((λ g, ValidationService.skill (gap g)) <$> sortedGaps))
            (λ learningOrderSkills,
          bind (Prerequisites.getSuggestedNextIn engine P track
                  allUserSkillNames learningOrderSkills 3)
            (λ suggestedNext,
          Ok {| track := track;
                totalCoreSkills := length coreSkillNames;
                userSkillCount := length userSkills;
                gapCount := length gaps;
                coveragePercent :=
                  ValidationService.coveragePercentOf (length gaps)
                    (length coreSkillNames);
                sortedGaps := sortedGaps;
                keepSharp := keepSharpSkills;
                learningOrder := learningOrderSkills;
                suggestedNext := suggestedNext;
                sortedBy := sortBy;
                roadmapVersion := CONSTANTS.ROADMAP_VERSION |}))))
    end).

(** [options.sortBy || CONSTANTS.SORT_OPTIONS.IMPACT] *)
Definition sortBy_or_IMPACT (sortBy : option string) : string :=
  match sortBy with
  | Some s => if decide (s = "") then Constants.SORT_OPTIONS.IMPACT else s
  | None => Constants.SORT_OPTIONS.IMPACT
  end.

(** The gaps the [forEach] of [validateFullstack] pushes, in catalog
    order, and the three arrays it pushes them on. *)
Definition fullstackGaps (coreSkills : list Roadmaps.Skill)
    (allUserSkillNames : list string) : list SectionGap :=
  let userSkillSet : gset string :=
    list_to_set (Engine.toLowerCase engine <$> allUserSkillNames) in
  (λ coreSkill,
     {| skill := Roadmaps.name coreSkill;
        weight := Roadmaps.weight coreSkill;
        section := Roadmaps.section coreSkill |})
  <$> filter
        (λ coreSkill,
           Engine.toLowerCase engine (Roadmaps.name coreSkill)
           ∉ userSkillSet)
        coreSkills.

(** The filter [g => sectionGaps.some(sg => sg.skill === g.skill)]. *)
Definition named_in (sectionGaps : list SectionGap)
    (g : WithEvidence SectionGap) : bool :=
  existsb (λ sg, bool_decide (skill sg = skill (gap g))) sectionGaps.

Definition validateFullstackIn (settled : Settled)
    (userSkills : list ValidationService.UserSkill)
    (sortBy : option string) : result FullstackReport :=
  bind (Roadmaps.getCoreSkillsIn R "fullstack") (λ coreSkills,
    match coreSkills with
    | None => Throw (Roadmaps.undefined_has_no "forEach")
    | Some coreSkills =>
    let allUserSkillNames :=
      ValidationService.userSkillName <$> userSkills in
    let pushed := fullstackGaps coreSkills allUserSkillNames in
    let frontendGaps :=
      filter (λ g, section g = Some "frontend") pushed in
    let backendGaps :=
      filter (λ g, section g ≠ Some "frontend" ∧ section g = Some "backend")
        pushed in
    let bothGaps :=
      filter (λ g, section g ≠ Some "frontend" ∧ section g ≠ Some "backend")
        pushed in
    let allGaps := frontendGaps ++ backendGaps ++ bothGaps in
    let gapsWithEvidence :=
      addEvidenceToGaps skill settled allGaps "fullstack" in
    let frontendWithEvidence :=
      filter (λ g, named_in frontendGaps g = true) gapsWithEvidence in
    let backendWithEvidence :=
      filter (λ g, named_in backendGaps g = true) gapsWithEvidence in
    let bothWithEvidence :=
      filter (λ g, named_in bothGaps g = true) gapsWithEvidence in
    let sorted l := sortGaps weight l (sortBy_or_IMPACT sortBy) in
    Ok {| fsTrack := "fullstack";
          fsTotalCoreSkills := length coreSkills;
          fsUserSkillCount := length userSkills;
          fsGapCount := length allGaps;
          fsCoveragePercent :=
            ValidationService.coveragePercentOf (length allGaps)
              (length coreSkills);
          sections :=
            {| frontend := {| gaps := sorted frontendWithEvidence;
                              count_ := length frontendWithEvidence |};
               backend := {| gaps := sorted backendWithEvidence;
                             count_ := length backendWithEvidence |};
               both := {| gaps := sorted bothWithEvidence;
                          count_ := length bothWithEvidence |} |};
          fsRoadmapVersion := CONSTANTS.ROADMAP_VERSION |}
    end).

End Tables.

Definition findKeepSharpSkills (engine : Engine.t) :=
  findKeepSharpSkillsIn engine Roadmaps.ROADMAPS.
Definition validateSkills (engine : Engine.t) :=
  validateSkillsIn engine Roadmaps.ROADMAPS Prerequisites.PREREQUISITES.
Definition validateFullstack (engine : Engine.t) :=
  validateFullstackIn engine Roadmaps.ROADMAPS.

End Analyzer.

(** ** controllers/apiController.js *)

Module ApiController.

(** A value of a parsed JSON body; an object is given by its own
    properties, each key once. *)
#[local] Unset Elimination Schemes.
Inductive JSON :=
| JNull
| JBool (b : bool)
| JNumber (x : float)
| JString (s : string)
| JArray (items : list JSON)
| JObject (properties : list (string * JSON)).
#[local] Set Elimination Schemes.

(** [ToBoolean] of a value that may be [undefined] ([None]). *)
Definition truthy (v : option JSON) : bool :=
  match v with
  | None | Some JNull => false
  | Some (JBool b) => b
  | Some (JNumber x) => negb (is_zero x || is_nan x)
  | Some (JString s) => negb (bool_decide (s = ""))
  | Some (JArray _) | Some (JObject _) => true
  end.

(** [v.name] for a name that no prototype defines ([name] and
    [proficiency] are such): reading it off [null] throws a TypeError,
    whose message is the one of V8. *)
Definition property (v : JSON) (name : string) : result (option JSON) :=
  match v with
  | JNull =>
    Throw ("Cannot read properties of null (reading '" +:+ name +:+ "')")
  | JObject properties => Ok (CacheService.Object_get properties name)
  | _ => Ok None
  end.

(** [strings.includes(v)] *)
Definition includes (strings : list string) (v : option JSON) : bool :=
  match v with
  | Some (JString s) => JS.includes strings s
  | _ => false
  end.

(** What the handlers read of a request: the fields [track] and [skills]
    of the body, whatever values they are, and [sortBy], which is taken
    to be absent or a string. *)
Record Body := {
  track : option JSON;
  skills : option JSON;
  sortBy : option string
}.

Inductive Data :=
| Single (results : Analyzer.Report)
| Fullstack (results : Analyzer.FullstackReport)
| CoreSkills (coreSkills : option (list Roadmaps.Skill)).

Inductive Response :=
| Success (data : Data)
| Error (status : Z) (error message : string).

Definition status (r : Response) : Z :=
  match r with
  | Success _ => 200
  | Error status _ _ => status
  end.

(** The loop [for (const skill of skills)] of [validateSkills]: [Some]
    is the response it returns with. *)
Fixpoint checkSkills (skills : list JSON) : result (option Response) :=
  match skills with
  | [] => Ok None
  | skill :: skills' =>
    bind (property skill "name") (λ name,
      bind (property skill "proficiency") (λ proficiency,
        if negb (truthy name) || negb (truthy proficiency) then
          Ok (Some (Error 400 "Invalid skill format"
                      "Each skill must have name and proficiency"))
        else if negb (includes Constants.PROFICIENCY_LEVELS.values
                        proficiency) then
          Ok (Some (Error 400 "Invalid proficiency level"
                      "Proficiency must be: beginner, intermediate, or strong"))
        else checkSkills skills'))
  end.

(** The skills as the service reads them.  It calls [toLowerCase] on
    every name before anything else that depends on one, which throws a
    TypeError (with the message of V8) at the first name that is not a
    string; the proficiency of a skill that passed the loop above is a
    string. *)
Definition userSkillOf (skill : JSON)
    : result ValidationService.UserSkill :=
  bind (property skill "name") (λ name,
    bind (property skill "proficiency") (λ proficiency,
      match name, proficiency with
      | Some (JString name), Some (JString proficiency) =>
        Ok {| ValidationService.userSkillName := name;
              ValidationService.proficiency := proficiency |}
      | _, _ => Throw "s.toLowerCase is not a function"
      end)).

(** [Array.isArray(v)], and the elements of [v] when it is an array. *)
Definition isArray (v : option JSON) : bool :=
  match v with
  | Some (JArray _) => true
  | _ => false
  end.
Definition itemsOf (v : option JSON) : list JSON :=
  match v with
  | Some (JArray items) => items
  | _ => []
  end.

(** The string that a value found among strings is. *)
Definition stringOf (v : option JSON) : string :=
  match v with
  | Some (JString s) => s
  | _ => ""
  end.

(** The [try] block of [validateSkills]. *)
Definition validateSkills_try (engine : Engine.t)
    (settled : Analyzer.Settled) (body : Body) : result Response :=
  if negb (truthy (track body))
     || negb (includes Constants.TRACKS.values (track body)) then
    Ok (Error 400 "Invalid track"
          "Track must be one of: frontend, backend, fullstack")
  else if negb (truthy (skills body)) || negb (isArray (skills body))
          || bool_decide (length (itemsOf (skills body)) = 0%nat) then
    Ok (Error 400 "Invalid skills" "Skills must be a non-empty array")
  else
    bind (checkSkills (itemsOf (skills body))) (λ returned,
      match returned with
      | Some response => Ok response
      | None =>
        bind (mapM userSkillOf (itemsOf (skills body))) (λ userSkills,
          let track := stringOf (track body) in
          let sortBy := Some (Analyzer.sortBy_or_IMPACT (sortBy body)) in
          if decide (track = Constants.TRACKS.FULLSTACK) then
            bind (Analyzer.validateFullstack engine settled userSkills sortBy)
              (λ results, Ok (Success (Fullstack results)))
          else
            bind (Analyzer.validateSkills engine settled track userSkills
                    sortBy)
              (λ results, Ok (Success (Single results))))
      end).

(** [validateSkills(req, res)]: the response it sends. *)
Definition validateSkills (engine : Engine.t) (settled : Analyzer.Settled)
    (body : Body) : Response :=
  match validateSkills_try engine settled body with
  | Ok response => response
  | Throw message => Error 500 "Validation failed" message
  end.

(** [getCoreSkills(req, res)] for the route parameter [track]. *)
Definition getCoreSkills (track : string) : Response :=
  if negb (JS.includes Constants.TRACKS.values track) then
    Error 400 "Invalid track"
      "Track must be one of: frontend, backend, fullstack"
  else
    match Roadmaps.getCoreSkills track with
    | Ok coreSkills => Success (CoreSkills coreSkills)
    | Throw message => Error 500 "Failed to fetch core skills" message
    end.

End ApiController.

(** ** middleware/rateLimiter.js *)

Module RateLimiter.

Record KeyData := {
  count : Z;
  resetTime : Z
}.

(** [keyRequestStore]; no function depends on the order of its
    entries. *)
Definition Store : Type := gmap string KeyData.

Definition cleanExpiredKeyEntries (now : Z) (keyRequestStore : Store)
    : Store :=
  filter (λ kv, ¬ resetTime kv.2 < now) keyRequestStore.

(** [a || b] on strings that may be [undefined]. *)
Definition or_else (a b : option string) : option string :=
  match a with
  | Some s => if decide (s = "") then b else a
  | None => b
  end.

(** The constant [apiKey], from the fields of the body and of the
    query. *)
Definition apiKeyOf (body_githubToken query_githubToken
    body_soKey query_soKey : option string) : option string :=
  or_else (or_else body_githubToken query_githubToken)
          (or_else body_soKey query_soKey).

Record Headers := {
  Limit_Key : Z;
  Remaining_Key : Z;
  Reset_Key : Z
}.

(** What the middleware does with the request: it calls [next()],
    having set the headers if the request carries a key, or answers
    429. *)
Inductive Outcome :=
| Next (headers : option Headers)
| TooMany (retryAfter limit current : Z).

(** [Math.ceil(ms / 1000)] on an integer. *)
Definition ceil_seconds (ms : Z) : Z := (ms + 999) / 1000.

(** [apiKeyRateLimiter(req, res, next)] at time [now], with the window
    and the limit it reads from the environment or from [CONSTANTS]. *)
Definition apiKeyRateLimiter (windowMs maxPerKey : Z) (now : Z)
    (apiKey : option string) (keyRequestStore : Store)
    : Outcome * Store :=
  match apiKey with
  | None => (Next None, keyRequestStore)
  | Some apiKey =>
    if decide (apiKey = "") then (Next None, keyRequestStore) else
    let newWindow := {| count := 0; resetTime := now + windowMs |} in
    let keyData :=
      match keyRequestStore !! apiKey with
      | Some keyData => if resetTime keyData <? now then newWindow else keyData
      | None => newWindow
      end in
    let keyData :=
      {| count := count keyData + 1; resetTime := resetTime keyData |} in
    let keyRequestStore := <[apiKey := keyData]> keyRequestStore in
    if maxPerKey <? count keyData then
      (TooMany (ceil_seconds (resetTime keyData - now)) maxPerKey
         (count keyData),
       keyRequestStore)
    else
      (Next (Some {| Limit_Key := maxPerKey;
                     Remaining_Key := maxPerKey - count keyData;
                     Reset_Key := resetTime keyData |}),
       keyRequestStore)
  end.

(** A request as the limiter sees it: the time it arrives and its key. *)
Definition Request : Type := Z * option string.

(** The outcomes of a sequence of requests, and the store they leave. *)
Fixpoint serve (windowMs maxPerKey : Z) (keyRequestStore : Store)
    (requests : list Request) : list Outcome * Store :=
  match requests with
  | [] => ([], keyRequestStore)
  | (now, apiKey) :: requests' =>
    let r := apiKeyRateLimiter windowMs maxPerKey now apiKey keyRequestStore in
    let rs := serve windowMs maxPerKey r.2 requests' in
    (r.1 :: rs.1, rs.2)
  end.


End RateLimiter.

(** ** public/js/skills.js *)

Module SkillsManager.

(** [String.prototype.includes] *)
Fixpoint String_includes (s sub : string) : bool :=
  String.prefix sub s
  || match s with
     | EmptyString => false
     | String _ s' => String_includes s' sub
     end.

Section Instance.
Variable engine : Engine.t.
(** [this.allSkills] *)
Variable allSkills : list string.

Definition searchSkills (query : string) : list string :=
  if decide (query = "") then []
  else if (String.length query <? 2)%nat then []
  else
    let lowerQuery := Engine.toLowerCase engine query in
    JS.slice0
      (filter
         (λ skill,
            String_includes (Engine.toLowerCase engine skill) lowerQuery
            = true)
         allSkills)
      10.

Definition isValidSkill (skillName : string) : bool :=
  existsb
    (λ skill,
       bool_decide (Engine.toLowerCase engine skill
                    = Engine.toLowerCase engine skillName))
    allSkills.

Definition formatSkillName (skillName : string) : string :=
  let exactMatch :=
    snd <$> list_find
      (λ skill, Engine.toLowerCase engine skill
                = Engine.toLowerCase engine skillName)
      allSkills in
  match exactMatch with
  | Some exactMatch => if decide (exactMatch = "") then skillName
                       else exactMatch
  | None => skillName
  end.

End Instance.

Definition normalizeProficiency (proficiency : string) : string :=
  let levels := ["beginner"; "intermediate"; "strong"] in
  let lowerProf := JS.toLowerCase proficiency in
  if JS.includes levels lowerProf then lowerProf else "intermediate".

End SkillsManager.

(** * Vocabulary of the statements *)

(** ** Learning order *)

(** What reading the prerequisites of a skill, and calling [every] on
    them, throws: nothing when they are an array. *)
Definition readError (engine : Engine.t)
    (P : gmap string (gmap string (list string)))
    (track skill : string) : option string :=
  match bind (Prerequisites.getPrerequisitesIn engine P track skill)
          (λ prereqs, Prerequisites.every prereqs (λ _, true)) with
  | Ok _ => None
  | Throw message => Some message
  end.

(** The array of prerequisites that [getPrerequisites] reads for a
    skill; empty where it reads no array. *)
Definition prerequisitesOf (engine : Engine.t)
    (P : gmap string (gmap string (list string)))
    (track skill : string) : list string :=
  match Prerequisites.getPrerequisitesIn engine P track skill with
  | Ok prereqs => Prerequisites.elements prereqs
  | Throw _ => []
  end.

(** The arrays that [PREREQUISITES[track]] holds: the ones of the table,
    none for an inherited member. *)
Definition arraysOf (trackPrereqs : Prerequisites.TrackPrereqs)
    : gmap string (list string) :=
  match trackPrereqs with
  | Prerequisites.Table trackPrereqs => trackPrereqs
  | Prerequisites.Inherited _ => ∅
  end.

(** The loop of [getLearningOrder] while every read gives an array: the
    functions of [Prerequisites] over the arrays [tp] alone, where a
    skill without an array reads the empty one.  The proofs follow this
    loop and carry over to the one of the source for the skills that
    read an array. *)
Module Arrays.
Import Prerequisites.

Definition allPrereqsMet (tp : gmap string (list string))
    (skillNames : list string) (processed : gset string)
    (skill : string) : bool :=
  forallb
    (λ prereq, bool_decide (prereq ∈ processed)
               || negb (JS.includes skillNames prereq))
    (default [] (tp !! skill)).

Definition visit (tp : gmap string (list string))
    (skillNames : list string) (acc : LoopState * bool) (skill : string)
    : LoopState * bool :=
  if allPrereqsMet tp skillNames (processed acc.1) skill then
    ({| ordered := ordered acc.1 ++ [skill];
        remaining := JS.Set_delete skill (remaining acc.1);
        processed := processed acc.1 ∪ {[skill]} |}, true)
  else acc.

Definition pass (tp : gmap string (list string))
    (skillNames : list string) (st : LoopState) : LoopState * bool :=
  foldl (visit tp skillNames) (st, false) (remaining st).

Fixpoint loop (tp : gmap string (list string))
    (skillNames : list string) (fuel : nat) (iterations : nat)
    (st : LoopState) : list string * nat :=
  match fuel with
  | O => (ordered st, iterations)
  | S fuel' =>
    match remaining st with
    | [] => (ordered st, iterations)
    | _ :: _ =>
      let '(st', addedThisRound) := pass tp skillNames st in
      match addedThisRound, remaining st' with
      | false, _ :: _ =>
        (ordered st' ++ JS.sort (remaining st'), S iterations)
      | _, _ => loop tp skillNames fuel' (S iterations) st'
      end
    end
  end.


End Arrays.

(** What holds of the locals of [getLearningOrder] between two visits,
    for the prerequisites [tp] of the track and the input [names]. *)
Record LoopInv (tp : gmap string (list string)) (names : list string)
    (st : Prerequisites.LoopState) : Prop := {
  inv_NoDup :
    NoDup (Prerequisites.ordered st ++ Prerequisites.remaining st);
  inv_elems :
    ∀ x, x ∈ Prerequisites.ordered st ++ Prerequisites.remaining st
         ↔ x ∈ names;
  inv_processed :
    ∀ x, x ∈ Prerequisites.processed st ↔ x ∈ Prerequisites.ordered st;
  inv_order :
    ∀ l1 x l2 p,
      Prerequisites.ordered st = l1 ++ x :: l2 →
      p ∈ default [] (tp !! x) → p ∈ names → p ∈ l1
}.

(** The length of the longest chain of prerequisites below a skill, in a
    table given by its entries; [fuel] bounds the length explored. *)
Fixpoint depth (entries : list (string * list string)) (fuel : nat)
    (s : string) : nat :=
  match fuel with
  | O => O
  | S fuel' =>
    match list_find (λ kv, kv.1 = s) entries with
    | None => O
    | Some (_, (_, ps)) => S (foldr Nat.max O (depth entries fuel' <$> ps))
    end
  end.

Definition rank (entries : list (string * list string)) : string → nat :=
  depth entries (length entries).

(** Every prerequisite lies strictly below the skill that names it: the
    table has no cycle. *)
Definition acyclic (entries : list (string * list string)) : bool :=
  forallb
    (λ kv, forallb (λ p, rank entries p <? rank entries kv.1)%nat kv.2)
    entries.

(** ** Cache *)

Section CacheHistory.
Context {V : Type}.
Variable null : V.

(** The key an operation uses, if any: a [set] that inserts a new key
    and a [get] that answers a value.  A [set] on a present key only
    rewrites its entry. *)
Definition used (c : CacheService.t V) (o : CacheService.op V)
    : option string :=
  match o with
  | CacheService.OpSet _ key _ _ =>
    if CacheService.Map_has key (CacheService.cache c) then None
    else Some key
  | CacheService.OpGet now key =>
    match CacheService.Map_get key (CacheService.cache c) with
    | Some entry =>
      if CacheService.expiry entry <? now then None else Some key
    | None => None
    end
  end.

(** A run that also records, for every key, the number of the last
    operation that used it. *)
Record Stamped := {
  current : CacheService.t V;
  clock : nat;
  lastUse : gmap string nat
}.

Definition step_stamped (s : Stamped) (o : CacheService.op V) : Stamped :=
  {| current := CacheService.step null (current s) o;
     clock := S (clock s);
     lastUse := match used (current s) o with
                | Some key => <[key := clock s]> (lastUse s)
                | None => lastUse s
                end |}.

Definition run_stamped (c : CacheService.t V) (ops : list (CacheService.op V))
    : Stamped :=
  foldl step_stamped {| current := c; clock := O; lastUse := ∅ |} ops.

End CacheHistory.
Arguments Stamped : clear implicits.

(** [a] was last used before [b], by the record [m] of last uses. *)
Definition used_before (m : gmap string nat) (a b : string) : Prop :=
  ∃ na nb, m !! a = Some na ∧ m !! b = Some nb ∧ (na < nb)%nat.

(** The keys of a store stand in the order of their last use, each use
    made before the operation numbered [clock]. *)
Record recency_order (m : gmap string nat) (clock : nat)
    (keys : list string) : Prop := {
  recency_NoDup : NoDup keys;
  recency_sorted : StronglySorted (used_before m) keys;
  recency_past : ∀ k, k ∈ keys → ∃ n, m !! k = Some n ∧ (n < clock)%nat
}.

(** The arguments of one call of [set]. *)
Record SetCall (V : Type) := {
  call_now : Z;
  call_key : string;
  call_value : V;
  call_ttlMs : option Z
}.
Arguments call_now {V} _.
Arguments call_key {V} _.
Arguments call_value {V} _.
Arguments call_ttlMs {V} _.

Definition OpSetOf {V} (a : SetCall V) : CacheService.op V :=
  CacheService.OpSet (call_now a) (call_key a) (call_value a) (call_ttlMs a).

(** The store of a stamped run stands in the order of last use. *)
Definition stamped_ok {V} (s : Stamped V) : Prop :=
  recency_order (lastUse s) (clock s) (CacheService.cache (current s)).*1.

(** ** Gaps *)

(** The weight [getSkillWeight] answers on a track whose catalog is
    [core]. *)
Definition weightIn (engine : Engine.t) (core : list Roadmaps.Skill)
    (skillName : string) : Z :=
  match Roadmaps.findSkill engine core skillName with
  | Some s => Roadmaps.weight s
  | None => 0
  end.

(** ** Suggestions *)

(** The prerequisites of a gap skill that the user does not have, up to
    the case of letters. *)
Definition missingPrereqsOf (engine : Engine.t)
    (P : gmap string (gmap string (list string)))
    (track : string) (currentSkills : list string) (gapSkill : string)
    : list string :=
  filter
    (λ prereq, Engine.toLowerCase engine prereq
               ∉ Engine.toLowerCase engine <$> currentSkills)
    (prerequisitesOf engine P track gapSkill).

(** The suggestion a gap skill gives rise to: one when no prerequisite is
    missing, one that names the missing prerequisite when exactly one is,
    none otherwise. *)
Definition suggestionFor (engine : Engine.t)
    (P : gmap string (gmap string (list string)))
    (track : string) (currentSkills : list string) (gapSkill : string)
    : option Prerequisites.Suggestion :=
  match missingPrereqsOf engine P track currentSkills gapSkill with
  | [] =>
    Some {| Prerequisites.skill := gapSkill;
            Prerequisites.reason := "Prerequisites met";
            Prerequisites.prereqs := prerequisitesOf engine P track gapSkill;
            Prerequisites.missingPrereqs := None |}
  | [missing] =>
    Some {| Prerequisites.skill := gapSkill;
            Prerequisites.reason := "Learn " +:+ missing +:+ " first";
            Prerequisites.prereqs := prerequisitesOf engine P track gapSkill;
            Prerequisites.missingPrereqs := Some [missing] |}
  | _ => None
  end.

(** ** The place of an entry in the store *)

(** The entry of [key] stands in the store with at least [n] entries
    before it. *)
Definition stands {V} (key : string) (e : CacheService.Entry V) (n : nat)
    (m : list (string * CacheService.Entry V)) : Prop :=
  ∃ before after,
    m = before ++ (key, e) :: after ∧ (n ≤ length before)%nat.

(** ** Names up to the case of letters *)

(** Two code units that are the same letter: they are equal, or one is
    a capital letter A-Z and the other the small letter for it. *)
Definition sameLetter (a b : ascii) : bool :=
  let m := N_of_ascii a in
  let n := N_of_ascii b in
  ((m =? n) || ((65 <=? m) && (m <=? 90) && (n =? m + 32))
   || ((65 <=? n) && (n <=? 90) && (m =? n + 32)))%N.

(** Two strings that are equal up to the case of the letters A-Z. *)
Fixpoint equalUpToCase (s1 s2 : string) : bool :=
  match s1, s2 with
  | EmptyString, EmptyString => true
  | String a s1', String b s2' => sameLetter a b && equalUpToCase s1' s2'
  | _, _ => false
  end.

(** ** The gaps of a user *)

(** The gaps [findGaps] finds on a track whose catalog is [core], for
    the skills of a user. *)
Definition gapsOf (engine : Engine.t) (core : list Roadmaps.Skill)
    (userSkills : list ValidationService.UserSkill)
    : list ValidationService.Gap :=
  (λ n, {| ValidationService.skill := n;
           ValidationService.weight := weightIn engine core n |})
  <$> filter
        (λ c, Engine.toLowerCase engine c
              ∉ Engine.toLowerCase engine
                <$> (ValidationService.userSkillName <$> userSkills))
        (Roadmaps.name <$> core).

(** ** Requests *)

(** A skill of a request as the analyzer needs it: an object (or any
    value but [null]) whose [name] is a string that is not empty and
    whose [proficiency] is one of the three levels. *)
Definition wellFormedSkill (skill : ApiController.JSON) : Prop :=
  ∃ name proficiency,
    ApiController.property skill "name"
    = Ok (Some (ApiController.JString name)) ∧
    name ≠ "" ∧
    ApiController.property skill "proficiency"
    = Ok (Some (ApiController.JString proficiency)) ∧
    proficiency ∈ Constants.PROFICIENCY_LEVELS.values.

(** A skill that passes the checks of the controller: its [name] is
    truthy and its [proficiency] is one of the three levels. *)
Definition passesChecks (skill : ApiController.JSON) : Prop :=
  ∃ name proficiency,
    ApiController.property skill "name" = Ok name ∧
    ApiController.truthy name = true ∧
    ApiController.property skill "proficiency" = Ok proficiency ∧
    ApiController.includes Constants.PROFICIENCY_LEVELS.values proficiency
    = true.

(** A skill whose [name] is truthy and is not a string. *)
Definition nameIsNoString (skill : ApiController.JSON) : Prop :=
  ∃ name,
    ApiController.property skill "name" = Ok name ∧
    ApiController.truthy name = true ∧
    ∀ s, name ≠ Some (ApiController.JString s).

(** ** Windows of the limiter *)

(** What the store holds for a key is of no account any more at time
    [now]: nothing, or a window that is over. *)
Definition expiredAt (now : Z) (d : option RateLimiter.KeyData) : Prop :=
  match d with
  | Some d => RateLimiter.resetTime d < now
  | None => True
  end.

(** Two stores that hold the same for every key, but for windows that
    are over at time [now]. *)
Definition sameWindows (now : Z) (s1 s2 : RateLimiter.Store) : Prop :=
  ∀ key,
    s1 !! key = s2 !! key
    ∨ (expiredAt now (s1 !! key) ∧ expiredAt now (s2 !! key)).

(** ** Characters of a tag *)

Fixpoint allChars (Q : ascii → bool) (s : string) : bool :=
  match s with
  | EmptyString => true
  | String a s' => Q a && allChars Q s'
  end.

(** A code unit that the normalisation of [buildSkillTags] leaves as it
    is: no white space, none of [/], [.] and [+], and no capital
    letter. *)
Definition tagChar (a : ascii) : bool :=
  negb (JSString.isSpace a)
  && bool_decide (a ≠ "/"%char)
  && bool_decide (a ≠ "."%char)
  && bool_decide (a ≠ "+"%char)
  && bool_decide (JS.lower_ascii a = a).

(** * Properties *)

(** ** Facts about the built-ins *)

Section Builtins.

Lemma Set_add_NoDup s x : NoDup s → NoDup (JS.Set_add s x).
Proof.
  intros Hs. unfold JS.Set_add, JS.includes. case_bool_decide as Hx; [done|].
  apply NoDup_app. repeat split; [done| |apply NoDup_singleton].
  intros y Hy ->%list_elem_of_singleton. done.
Qed.

Lemma Set_add_elem s x y : y ∈ JS.Set_add s x ↔ y ∈ s ∨ y = x.
Proof.
  unfold JS.Set_add, JS.includes. case_bool_decide as Hx.
  - split; [auto|]. intros [?| ->]; done.
  - rewrite elem_of_app, list_elem_of_singleton. done.
Qed.

Lemma Set_from_go_NoDup l : ∀ acc, NoDup acc → NoDup (foldl JS.Set_add acc l).
Proof.
  induction l as [|x l IH]; intros acc Hacc; simpl; [done|].
  apply IH. by apply Set_add_NoDup.
Qed.

Lemma Set_from_go_elem l :
  ∀ acc y, y ∈ foldl JS.Set_add acc l ↔ y ∈ acc ∨ y ∈ l.
Proof.
  induction l as [|x l IH]; intros acc y; simpl.
  - rewrite elem_of_nil. tauto.
  - rewrite IH, Set_add_elem, elem_of_cons. tauto.
Qed.

Lemma Set_from_go_distinct l :
  ∀ acc, NoDup (acc ++ l) → foldl JS.Set_add acc l = acc ++ l.
Proof.
  induction l as [|x l IH]; intros acc Hnd; simpl.
  - by rewrite app_nil_r.
  - assert (x ∉ acc) as Hx.
    { apply NoDup_app in Hnd as (_ & Hd & _). intros Hin.
      apply (Hd x Hin). left. }
    unfold JS.Set_add at 2, JS.includes. rewrite bool_decide_eq_false_2 by done.
    rewrite IH; rewrite <- app_assoc; done.
Qed.

Lemma Set_from_NoDup l : NoDup (JS.Set_from l).
Proof. apply Set_from_go_NoDup, NoDup_nil_2. Qed.

Lemma Set_from_elem l x : x ∈ JS.Set_from l ↔ x ∈ l.
Proof.
  unfold JS.Set_from. rewrite Set_from_go_elem, elem_of_nil. tauto.
Qed.

Lemma Set_from_distinct l : NoDup l → JS.Set_from l = l.
Proof. intros H. by apply (Set_from_go_distinct l []). Qed.

Lemma Set_from_length l : (length (JS.Set_from l) ≤ length l)%nat.
Proof.
  apply submseteq_length, NoDup_submseteq; [apply Set_from_NoDup|].
  intros x. by rewrite Set_from_elem.
Qed.

Lemma Set_delete_elem x s y : y ∈ JS.Set_delete x s ↔ y ∈ s ∧ y ≠ x.
Proof. unfold JS.Set_delete. rewrite list_elem_of_filter. tauto. Qed.

Lemma Set_delete_Permutation x s :
  NoDup s → x ∈ s → s ≡ₚ x :: JS.Set_delete x s.
Proof.
  intros Hs Hx. apply NoDup_Permutation; [done| |].
  - apply NoDup_cons. split.
    + rewrite Set_delete_elem. tauto.
    + by apply NoDup_filter.
  - intros y. rewrite elem_of_cons, Set_delete_elem.
    destruct (decide (y = x)) as [->|]; tauto.
Qed.

Lemma sort_Permutation l : JS.sort l ≡ₚ l.
Proof. apply merge_sort_Permutation. Qed.

Lemma sort_Sorted l : Sorted String.le (JS.sort l).
Proof. apply (Sorted_merge_sort String.le). Qed.

(** The sorted array does not depend on the order of the input. *)
Lemma sort_unique l1 l2 : l1 ≡ₚ l2 → JS.sort l1 = JS.sort l2.
Proof.
  intros Hp. apply (Sorted_unique String.le); try apply sort_Sorted.
  by rewrite !sort_Permutation.
Qed.

Lemma indexOf_from_first i l1 l2 x :
  x ∉ l1 → JS.indexOf_from i (l1 ++ x :: l2) x = i + Z.of_nat (length l1).
Proof.
  revert i. induction l1 as [|y l1 IH]; intros i Hx; simpl.
  - rewrite decide_True by done. lia.
  - apply not_elem_of_cons in Hx as [Hne Hx].
    rewrite decide_False by done. rewrite IH by done. lia.
Qed.

Lemma indexOf_from_elem i l1 l2 p :
  p ∈ l1 →
  i ≤ JS.indexOf_from i (l1 ++ l2) p < i + Z.of_nat (length l1).
Proof.
  revert i. induction l1 as [|y l1 IH]; intros i Hp; simpl.
  - by apply elem_of_nil in Hp.
  - destruct (decide (y = p)) as [->|Hne]; [lia|].
    apply elem_of_cons in Hp as [->|Hp]; [done|].
    specialize (IH (i + 1) Hp). lia.
Qed.

End Builtins.

(** ** The learning order *)

Section LearningOrder.
Import Prerequisites Arrays.
Variable tp : gmap string (list string).
Variable names : list string.

Local Abbreviation visit := (visit tp names).
Local Abbreviation Inv := (LoopInv tp names).

Lemma allPrereqsMet_spec processed s :
  allPrereqsMet tp names processed s = true ↔
  ∀ p, p ∈ default [] (tp !! s) → p ∈ processed ∨ p ∉ names.
Proof.
  unfold allPrereqsMet. rewrite forallb_forall. unfold JS.includes.
  split; intros H p Hp.
  - apply list_elem_of_In, H in Hp.
    apply orb_true_iff in Hp as [Hp|Hp].
    + left. by apply bool_decide_eq_true in Hp.
    + right. apply negb_true_iff, bool_decide_eq_false in Hp. done.
  - apply list_elem_of_In, H in Hp as [Hp|Hp]; apply orb_true_iff.
    + left. by apply bool_decide_eq_true.
    + right. by apply negb_true_iff, bool_decide_eq_false.
Qed.

Lemma visit_Inv st b x :
  Inv st → x ∈ remaining st → Inv (visit (st, b) x).1.
Proof.
  intros [Hnd Hel Hpr Hord] Hx. unfold Arrays.visit. simpl.
  destruct (allPrereqsMet tp names (processed st) x) eqn:Hmet; simpl;
    [|by split].
  assert (NoDup (remaining st)) as Hndr by (by apply NoDup_app in Hnd as (_&_&?)).
  assert ((ordered st ++ [x]) ++ JS.Set_delete x (remaining st)
          ≡ₚ ordered st ++ remaining st) as Hperm.
  { rewrite <- app_assoc. simpl.
    by rewrite <- (Set_delete_Permutation x (remaining st)). }
  split; simpl.
  - by rewrite Hperm.
  - intros y. by rewrite Hperm.
  - intros y. rewrite elem_of_union, elem_of_singleton, elem_of_app,
      list_elem_of_singleton, Hpr. done.
  - intros l1 y l2 p Heq Hp Hin.
    destruct l2 as [|z l2 _] using rev_ind.
    + apply app_inj_tail in Heq as [<- <-].
      destruct (proj1 (allPrereqsMet_spec _ _) Hmet p Hp) as [?|?];
        [by apply Hpr | done].
    + rewrite app_comm_cons, app_assoc in Heq.
      apply app_inj_tail in Heq as [Heq _]. eauto.
Qed.

Lemma foldl_visit_Inv l :
  ∀ st b, Inv st → NoDup l → (∀ x, x ∈ l → x ∈ remaining st) →
          Inv (foldl visit (st, b) l).1.
Proof.
  induction l as [|x l IH]; intros st b HI Hnd Hsub; simpl; [done|].
  apply NoDup_cons in Hnd as [Hx Hnd].
  pose proof (visit_Inv st b x HI (Hsub x ltac:(left))) as HI'.
  destruct (visit (st, b) x) as [st' b'] eqn:Hv. apply IH; [done..|].
  intros y Hy. unfold Arrays.visit in Hv. simpl in Hv.
  destruct (allPrereqsMet _ _ _ _); simplify_eq/=.
  - apply Set_delete_elem. split; [apply Hsub; by right|]. by intros ->.
  - apply Hsub. by right.
Qed.

Lemma pass_Inv st : Inv st → Inv (pass tp names st).1.
Proof.
  intros HI. apply foldl_visit_Inv; [done| |done].
  destruct HI as [Hnd _ _ _]. by apply NoDup_app in Hnd as (_&_&?).
Qed.

(** Once set, [addedThisRound] stays set; while it is unset nothing has
    moved. *)
Lemma foldl_visit_added l :
  ∀ st, (foldl visit (st, true) l).2 = true.
Proof.
  induction l as [|x l IH]; intros st; simpl; [done|].
  unfold Arrays.visit at 2. simpl. destruct (allPrereqsMet _ _ _ _); apply IH.
Qed.

Lemma foldl_visit_unchanged l :
  ∀ st, (foldl visit (st, false) l).2 = false →
        (foldl visit (st, false) l).1 = st.
Proof.
  induction l as [|x l IH]; intros st; simpl; [done|].
  unfold Arrays.visit at 2 4. simpl. destruct (allPrereqsMet _ _ _ _); [|apply IH].
  by rewrite foldl_visit_added.
Qed.

Lemma pass_unchanged st :
  (pass tp names st).2 = false → (pass tp names st).1 = st.
Proof. apply foldl_visit_unchanged. Qed.

Lemma foldl_visit_grows l :
  ∀ st b,
    (length (ordered st) ≤ length (ordered (foldl visit (st, b) l).1))%nat ∧
    ((foldl visit (st, b) l).2 = true →
     b = true ∨
     (length (ordered st) < length (ordered (foldl visit (st, b) l).1))%nat).
Proof.
  induction l as [|x l IH]; intros st b; simpl; [by auto|].
  unfold Arrays.visit at 2 4 6. simpl.
  destruct (allPrereqsMet _ _ _ _).
  - match goal with |- context [foldl _ (?s, true) l] =>
      destruct (IH s true) as [Hle _] end.
    simpl in Hle. rewrite length_app in Hle. simpl in Hle.
    split; [lia|]. intros _. right. lia.
  - apply IH.
Qed.

Lemma Inv_lengths st :
  Inv st →
  (length (ordered st) + length (remaining st))%nat
  = length (JS.Set_from names).
Proof.
  intros [Hnd Hel _ _]. rewrite <- length_app. apply Permutation_length.
  apply NoDup_Permutation; [done|apply Set_from_NoDup|].
  intros x. by rewrite Hel, Set_from_elem.
Qed.

Lemma Inv_final st :
  Inv st → remaining st = [] → ordered st ≡ₚ JS.Set_from names.
Proof.
  intros [Hnd Hel _ _] Hr. rewrite Hr, app_nil_r in *.
  apply NoDup_Permutation; [done|apply Set_from_NoDup|].
  intros x. by rewrite Hel, Set_from_elem.
Qed.

Lemma pass_shrinks st :
  Inv st → (pass tp names st).2 = true →
  (length (remaining (pass tp names st).1) < length (remaining st))%nat.
Proof.
  intros HI Hadd. pose proof (pass_Inv st HI) as HI'.
  apply Inv_lengths in HI, HI'.
  destruct (foldl_visit_grows (remaining st) st false) as [_ Hg].
  destruct (Hg Hadd) as [?|Hlt]; [done|]. unfold pass in *. lia.
Qed.

(** Every input skill comes out once, and the rounds stay within the
    fuel, whatever the table. *)
Lemma loop_total fuel :
  ∀ it st, Inv st → (length (remaining st) ≤ fuel)%nat →
    (loop tp names fuel it st).1 ≡ₚ JS.Set_from names ∧
    (it ≤ (loop tp names fuel it st).2 ≤ it + fuel)%nat.
Proof.
  induction fuel as [|fuel IH]; intros it st HI Hlen; simpl.
  - split; [|lia]. apply Inv_final; [done|].
    destruct (remaining st); [done|simpl in Hlen; lia].
  - destruct (remaining st) as [|r rs] eqn:Hrem.
    { simpl. split; [|lia]. by apply Inv_final. }
    pose proof (pass_Inv st HI) as HI'.
    pose proof (pass_shrinks st HI) as Hsh.
    destruct (pass tp names st) as [st' added] eqn:Hpass. simpl in *.
    assert ((length (remaining st') ≤ fuel)%nat →
            (loop tp names fuel (S it) st').1 ≡ₚ JS.Set_from names ∧
            (it ≤ (loop tp names fuel (S it) st').2 ≤ it + S fuel)%nat) as Hrec.
    { intros Hl. destruct (IH (S it) st' HI' Hl) as [? ?]. split; [done|lia]. }
    destruct added.
    + apply Hrec. rewrite Hrem in Hsh. specialize (Hsh eq_refl). simpl in Hsh. lia.
    + destruct (remaining st') as [|r' rs'] eqn:Hrem'.
      * apply Hrec. simpl. lia.
      * simpl. split; [|lia].
        rewrite sort_Permutation, <- Hrem'.
        destruct HI' as [Hnd Hel _ _].
        apply NoDup_Permutation; [done|apply Set_from_NoDup|].
        intros x. by rewrite Hel, Set_from_elem.
Qed.

(** The round that places nothing ends the loop with the rest in sorted
    order. *)
Lemma loop_flush fuel it st :
  remaining st ≠ [] → (pass tp names st).2 = false →
  loop tp names (S fuel) it st
  = (ordered st ++ JS.sort (remaining st), S it).
Proof.
  intros Hne Hadd. pose proof (pass_unchanged st Hadd) as Hun. simpl.
  destruct (remaining st) as [|r rs] eqn:Hrem; [done|].
  revert Hadd Hun. destruct (pass tp names st) as [st' added]. simpl.
  intros -> ->. by rewrite Hrem.
Qed.

(** *** Tables without a cycle *)

Section Acyclic.
Variable rk : string → nat.
Hypothesis rk_prereq :
  ∀ s ps p, tp !! s = Some ps → p ∈ ps → (rk p < rk s)%nat.

Lemma least_rank (l : list string) :
  l ≠ [] → ∃ r, r ∈ l ∧ ∀ y, y ∈ l → (rk r ≤ rk y)%nat.
Proof.
  induction l as [|x l IH]; [done|]. intros _.
  destruct l as [|z l].
  - exists x. split; [left|]. intros y ->%list_elem_of_singleton. done.
  - destruct IH as (r & Hr & Hmin); [done|].
    destruct (decide (rk x ≤ rk r)%nat).
    + exists x. split; [left|]. intros y [->|Hy]%elem_of_cons; [done|].
      specialize (Hmin y Hy). lia.
    + exists r. split; [by right|]. intros y [->|Hy]%elem_of_cons; [lia|].
      by apply Hmin.
Qed.

Lemma foldl_visit_progress l :
  ∀ st b r, r ∈ l → allPrereqsMet tp names (processed st) r = true →
            (foldl visit (st, b) l).2 = true.
Proof.
  induction l as [|x l IH]; intros st b r Hr Hmet; simpl.
  { by apply elem_of_nil in Hr. }
  unfold Arrays.visit at 2. simpl.
  destruct (allPrereqsMet tp names (processed st) x) eqn:Hx.
  - apply foldl_visit_added.
  - apply elem_of_cons in Hr as [->|Hr]; [congruence|]. by apply (IH _ _ r).
Qed.

Lemma pass_progress st :
  Inv st → remaining st ≠ [] → (pass tp names st).2 = true.
Proof.
  intros [Hnd Hel Hpr Hord] Hne.
  destruct (least_rank (remaining st) Hne) as (r & Hr & Hmin).
  apply (foldl_visit_progress _ _ _ r); [done|].
  apply allPrereqsMet_spec. intros p Hp.
  destruct (decide (p ∈ names)) as [Hin|]; [left|by right].
  apply Hpr. apply Hel, elem_of_app in Hin as [?|Hin]; [done|].
  destruct (tp !! r) as [ps|] eqn:Hps; simpl in Hp; [|by apply elem_of_nil in Hp].
  pose proof (rk_prereq r ps p Hps Hp). specialize (Hmin p Hin). lia.
Qed.

Lemma loop_acyclic fuel :
  ∀ it st, Inv st → (length (remaining st) ≤ fuel)%nat →
    ∃ st', Inv st' ∧ remaining st' = [] ∧
           (loop tp names fuel it st).1 = ordered st'.
Proof.
  induction fuel as [|fuel IH]; intros it st HI Hlen; simpl.
  - exists st. split; [done|]. split; [|done].
    destruct (remaining st); [done|simpl in Hlen; lia].
  - destruct (remaining st) as [|r rs] eqn:Hrem.
    { exists st. by split. }
    pose proof (pass_Inv st HI) as HI'.
    pose proof (pass_shrinks st HI) as Hsh.
    pose proof (pass_progress st HI) as Hpr.
    rewrite Hrem in Hpr. specialize (Hpr ltac:(done)).
    destruct (pass tp names st) as [st' added] eqn:Hpass. simpl in *.
    subst added. apply IH; [done|].
    rewrite Hrem in Hsh. specialize (Hsh eq_refl). simpl in Hsh. lia.
Qed.

End Acyclic.

Lemma initial_Inv :
  Inv {| ordered := []; remaining := JS.Set_from names; processed := ∅ |}.
Proof.
  split; simpl.
  - apply Set_from_NoDup.
  - intros x. apply Set_from_elem.
  - intros x. rewrite elem_of_nil. set_solver.
  - intros l1 x l2 p Heq. by destruct l1.
Qed.

End LearningOrder.

(** *** The loop of the source and the loop over arrays *)

Lemma foldlM_app {A B} (f : A → B → result A) (l1 l2 : list B) (a : A) :
  foldlM f a (l1 ++ l2) = bind (foldlM f a l1) (λ a', foldlM f a' l2).
Proof.
  revert a. induction l1 as [|x l1 IH]; intros a; simpl; [done|].
  destruct (f a x) as [a'|message]; simpl; [apply IH|done].
Qed.

Lemma Set_from_go_prefix l :
  ∀ acc, ∃ more, foldl JS.Set_add acc l = acc ++ more.
Proof.
  induction l as [|x l IH]; intros acc; simpl.
  - exists []. by rewrite app_nil_r.
  - destruct (IH (JS.Set_add acc x)) as [more ->].
    unfold JS.Set_add. destruct (JS.includes acc x); [by exists more|].
    exists (x :: more). by rewrite <- app_assoc.
Qed.

(** The Set of an input begins with the Set of its part before a skill
    that does not occur in that part, followed by the skill. *)
Lemma Set_from_first before x after :
  x ∉ before →
  ∃ more, JS.Set_from (before ++ x :: after)
          = JS.Set_from before ++ x :: more.
Proof.
  intros Hx. unfold JS.Set_from. rewrite foldl_app. simpl.
  destruct (Set_from_go_prefix after (JS.Set_add (foldl JS.Set_add [] before) x))
    as [more ->].
  unfold JS.Set_add, JS.includes. rewrite bool_decide_eq_false_2.
  - exists more. by rewrite <- app_assoc.
  - intros Hin. apply Hx. by apply (Set_from_elem before x).
Qed.

Section Reads.
Import Prerequisites.
Variable engine : Engine.t.
Variable t : TrackPrereqs.
Variable names : list string.

Local Abbreviation tp := (arraysOf t).
Local Abbreviation reads s := (∃ l, prereqsOf engine t s = Ok (Array l)).
Local Abbreviation throws s message :=
  (bind (prereqsOf engine t s) (λ prereqs, every prereqs (λ _, true))
   = Throw message).

Lemma prereqsOf_Array s l :
  prereqsOf engine t s = Ok (Array l) → l = default [] (tp !! s).
Proof.
  unfold prereqsOf, arraysOf. destruct t as [trackPrereqs|name].
  - destruct (trackPrereqs !! s); [by intros [= <-]|].
    case_decide; [done|by intros [= <-]].
  - rewrite lookup_empty.
    destruct (Engine.member engine name s); [by intros [= <-]|done..].
Qed.

Lemma reads_or_throws s : reads s ∨ ∃ message, throws s message.
Proof.
  destruct (prereqsOf engine t s) as [[l|]|message] eqn:Hs.
  - left. by exists l.
  - right. by eexists.
  - right. by eexists.
Qed.

Lemma reads_not_throws s message : reads s → ¬ throws s message.
Proof. intros [l ->]. done. Qed.

Lemma allPrereqsMet_reads processed s :
  reads s →
  allPrereqsMet engine t names processed s
  = Ok (Arrays.allPrereqsMet tp names processed s).
Proof.
  intros [l Hl]. unfold allPrereqsMet, Arrays.allPrereqsMet.
  rewrite Hl. simpl. by rewrite <- (prereqsOf_Array s l Hl).
Qed.

Lemma allPrereqsMet_throws processed s message :
  throws s message →
  allPrereqsMet engine t names processed s = Throw message.
Proof.
  unfold allPrereqsMet.
  destruct (prereqsOf engine t s) as [[l|]|m]; simpl; done.
Qed.

Lemma visit_reads acc s :
  reads s →
  visit engine t names acc s = Ok (Arrays.visit tp names acc s).
Proof.
  intros Hs. unfold visit, Arrays.visit.
  by rewrite (allPrereqsMet_reads _ s Hs).
Qed.

Lemma visit_throws acc s message :
  throws s message → visit engine t names acc s = Throw message.
Proof.
  intros Hs. unfold visit. by rewrite (allPrereqsMet_throws _ s message Hs).
Qed.

Lemma foldlM_visit_reads l :
  ∀ acc, (∀ s, s ∈ l → reads s) →
         foldlM (visit engine t names) acc l
         = Ok (foldl (Arrays.visit tp names) acc l).
Proof.
  induction l as [|x l IH]; intros acc Hl; simpl; [done|].
  rewrite visit_reads by (apply Hl; left). simpl.
  apply IH. intros s Hs. apply Hl. by right.
Qed.

Lemma foldlM_visit_throws before s after acc message :
  (∀ x, x ∈ before → reads x) → throws s message →
  foldlM (visit engine t names) acc (before ++ s :: after) = Throw message.
Proof.
  intros Hbefore Hs. rewrite foldlM_app, foldlM_visit_reads by done.
  simpl. by rewrite (visit_throws _ s message Hs).
Qed.

Lemma pass_reads st :
  (∀ s, s ∈ remaining st → reads s) →
  pass engine t names st = Ok (Arrays.pass tp names st).
Proof. intros Hst. by apply foldlM_visit_reads. Qed.

(** While every input skill reads an array, the loop of the source runs
    as the loop over the arrays does. *)
Lemma loop_reads fuel :
  ∀ iterations st,
    LoopInv tp names st → (∀ s, s ∈ names → reads s) →
    loop engine t names fuel iterations st
    = Ok (Arrays.loop tp names fuel iterations st).
Proof.
  induction fuel as [|fuel IH]; intros iterations st HI Hnames; simpl;
    [done|].
  destruct (remaining st) as [|r rs] eqn:Hrem; [done|].
  rewrite pass_reads.
  2:{ intros s Hs. apply Hnames, (inv_elems _ _ _ HI), elem_of_app.
      by right. }
  simpl. pose proof (pass_Inv tp names st HI) as HI'.
  destruct (Arrays.pass tp names st) as [st' added]. simpl in HI'.
  destruct added, (remaining st'); try done; by apply IH.
Qed.

(** The first input skill that reads no array ends the call, in the
    first round. *)
Lemma loop_throws before s after message fuel iterations :
  (∀ x, x ∈ before → reads x) → throws s message →
  names = before ++ s :: after →
  loop engine t names (S fuel) iterations
    {| ordered := []; remaining := JS.Set_from names; processed := ∅ |}
  = Throw message.
Proof.
  intros Hbefore Hs Hnames.
  assert (s ∉ before) as Hnot.
  { intros Hin. by apply (reads_not_throws s message (Hbefore s Hin)). }
  destruct (Set_from_first before s after Hnot) as [more Hset].
  rewrite <- Hnames in Hset. cbn [loop remaining]. rewrite Hset.
  destruct (JS.Set_from before ++ s :: more) as [|r rs] eqn:Hl.
  { by destruct (JS.Set_from before). }
  unfold pass. cbn [remaining]. rewrite <- Hl.
  rewrite (foldlM_visit_throws _ s more _ message); [done| |done].
  intros x Hx. apply Hbefore. by apply Set_from_elem.
Qed.

End Reads.

(** *** Shape of the result *)

Section LearningOrderRest.
Import Prerequisites Arrays.
Variable tp : gmap string (list string).
Variable names : list string.

Local Abbreviation visit := (visit tp names).
Local Abbreviation Inv := (LoopInv tp names).

Lemma allPrereqsMet_false processed s :
  allPrereqsMet tp names processed s = false →
  ∃ p, p ∈ default [] (tp !! s) ∧ p ∈ names ∧ p ∉ processed.
Proof.
  intros Hf.
  destruct (decide (Exists (λ p, p ∈ names ∧ p ∉ processed)
                      (default [] (tp !! s)))) as [Hex|Hno].
  - apply Exists_exists in Hex as (p & Hp & Hn & Hpr). by exists p.
  - exfalso. apply not_Exists_Forall in Hno; [|apply _].
    rewrite Forall_forall in Hno.
    assert (allPrereqsMet tp names processed s = true) as Ht; [|congruence].
    apply allPrereqsMet_spec. intros p Hp. specialize (Hno p Hp). simpl in Hno.
    destruct (decide (p ∈ processed)); [by left|].
    destruct (decide (p ∈ names)); [|by right]. tauto.
Qed.

Lemma foldl_visit_blocked l :
  ∀ st b, (∀ x, x ∈ l → allPrereqsMet tp names (processed st) x = false) →
          foldl visit (st, b) l = (st, b).
Proof.
  induction l as [|x l IH]; intros st b Hall; simpl; [done|].
  unfold Arrays.visit at 2. simpl.
  rewrite (Hall x) by left. apply IH. intros y Hy. apply Hall. by right.
Qed.

Lemma pass_false_blocked st :
  (pass tp names st).2 = false →
  ∀ r, r ∈ remaining st → allPrereqsMet tp names (processed st) r = false.
Proof.
  intros Hadd r Hr.
  destruct (allPrereqsMet tp names (processed st) r) eqn:Hmet; [|done].
  unfold pass in Hadd.
  by rewrite (foldl_visit_progress tp names _ st false r Hr Hmet) in Hadd.
Qed.

Lemma loop_step fuel it st st' :
  remaining st ≠ [] → pass tp names st = (st', true) →
  loop tp names (S fuel) it st = loop tp names fuel (S it) st'.
Proof.
  intros Hne Hpass. simpl. destruct (remaining st); [done|].
  by rewrite Hpass.
Qed.

(** The result is what was placed, followed by what was left in sorted
    order, and nothing that was left could be placed. *)
Lemma loop_shape fuel :
  ∀ it st, Inv st → (length (remaining st) ≤ fuel)%nat →
    ∃ st', Inv st' ∧
           (loop tp names fuel it st).1
           = ordered st' ++ JS.sort (remaining st') ∧
           ∀ r, r ∈ remaining st' →
                allPrereqsMet tp names (processed st') r = false.
Proof.
  induction fuel as [|fuel IH]; intros it st HI Hlen.
  - exists st. split; [done|].
    destruct (remaining st) eqn:Hrem; [|simpl in Hlen; lia].
    split; [by rewrite app_nil_r|]. intros r Hr. by apply elem_of_nil in Hr.
  - destruct (remaining st) as [|r rs] eqn:Hrem.
    { exists st. split; [done|]. split.
      - simpl. rewrite Hrem. by rewrite app_nil_r.
      - rewrite Hrem. intros r Hr. by apply elem_of_nil in Hr. }
    pose proof (pass_Inv tp names st HI) as HI'.
    pose proof (pass_shrinks tp names st HI) as Hsh.
    destruct (pass tp names st) as [st' added] eqn:Hpass. simpl in *.
    destruct added.
    + rewrite Hrem, Hpass. apply IH; [done|].
      rewrite Hrem in Hsh. specialize (Hsh eq_refl). simpl in Hsh. lia.
    + assert (st' = st) as ->.
      { pose proof (pass_unchanged tp names st) as Hun.
        rewrite Hpass in Hun. by apply Hun. }
      exists st. split; [done|]. split.
      * rewrite Hrem, Hpass. by rewrite Hrem.
      * apply pass_false_blocked. by rewrite Hpass.
Qed.

End LearningOrderRest.

Lemma Set_delete_absent x s : x ∉ s → JS.Set_delete x s = s.
Proof.
  intros Hx. unfold JS.Set_delete. induction s as [|y s IH]; [done|].
  apply not_elem_of_cons in Hx as [Hne Hx].
  rewrite filter_cons_True by done. by rewrite IH.
Qed.

Section LearningOrderAgain.
Import Prerequisites Arrays.
Variable tp : gmap string (list string).

(** A round over skills each of which can be placed when its turn comes
    places them all, in the order they stand in. *)
Lemma foldl_visit_placed names l :
  ∀ st b m,
    remaining st = l ++ m → NoDup (l ++ m) →
    (∀ l1 x l2, l = l1 ++ x :: l2 →
                allPrereqsMet tp names (processed st ∪ list_to_set l1) x
                = true) →
    foldl (Arrays.visit tp names) (st, b) l
    = ({| ordered := ordered st ++ l; remaining := m;
          processed := processed st ∪ list_to_set l |},
       match l with [] => b | _ => true end).
Proof.
  induction l as [|x l IH]; intros st b m Hrem Hnd Hmet; simpl.
  - f_equal. destruct st as [o r p]. simpl in *. subst r.
    rewrite app_nil_r. f_equal. set_solver.
  - unfold Arrays.visit at 2. simpl.
    pose proof (Hmet [] x l eq_refl) as Hx. simpl in Hx.
    rewrite (right_id_L ∅ (∪)) in Hx. rewrite Hx.
    simpl in Hnd. apply NoDup_cons in Hnd as [Hxl Hnd].
    rewrite IH with (m := m); simpl.
    + f_equal; [|by destruct l]. f_equal.
      * by rewrite <- app_assoc.
      * set_solver.
    + rewrite Hrem. simpl. unfold JS.Set_delete.
      rewrite filter_cons_False by (simpl; tauto).
      by apply Set_delete_absent.
    + done.
    + intros l1 y l2 ->.
      pose proof (Hmet (x :: l1) y l2 eq_refl) as Hy. simpl in Hy.
      replace (processed st ∪ {[x]} ∪ list_to_set l1)
        with (processed st ∪ ({[x]} ∪ list_to_set l1)) by set_solver.
      done.
Qed.

(** An input that already stands as a result stands (what can be placed
    in a valid order, then the rest in sorted order, none of which can be
    placed) comes out as it is. *)
Lemma loop_again (placed blocked : list string) :
  let names := placed ++ JS.sort blocked in
  NoDup names →
  (∀ l1 x l2 p, placed = l1 ++ x :: l2 →
                p ∈ default [] (tp !! x) → p ∈ names → p ∈ l1) →
  (∀ r, r ∈ blocked →
        ∃ p, p ∈ default [] (tp !! r) ∧ p ∈ names ∧ p ∉ placed) →
  (loop tp names (length names * 2) 0
     {| ordered := []; remaining := JS.Set_from names; processed := ∅ |}).1
  = names.
Proof.
  intros names Hnd Hplaced Hblocked.
  rewrite (Set_from_distinct names Hnd).
  assert (names = placed ++ JS.sort blocked) as Hnames by done.
  clearbody names.
  set (st0 := {| ordered := []; remaining := names; processed := ∅ |}).
  set (st1 := {| ordered := placed; remaining := JS.sort blocked;
                 processed := list_to_set placed |}).
  assert (∀ b, foldl (Arrays.visit tp names) (st1, b) (JS.sort blocked)
               = (st1, b)) as Hsecond.
  { intros b. apply foldl_visit_blocked. intros r Hr.
    rewrite sort_Permutation in Hr.
    destruct (Hblocked r Hr) as (p & Hp & Hin & Hout).
    destruct (allPrereqsMet tp names (processed st1) r) eqn:Hmet; [|done].
    destruct (proj1 (allPrereqsMet_spec tp names _ _) Hmet p Hp) as [Hpr|Hn].
    - simpl in Hpr. by apply elem_of_list_to_set in Hpr.
    - done. }
  assert (pass tp names st0
          = (st1, match placed with [] => false | _ => true end)) as Hpass.
  { unfold pass. change (remaining st0) with names. rewrite Hnames at 2.
    rewrite foldl_app.
    rewrite (foldl_visit_placed names placed st0 false (JS.sort blocked)).
    - simpl. rewrite (left_id_L ∅ (∪)). apply Hsecond.
    - by simpl.
    - by rewrite <- Hnames.
    - intros l1 x l2 Heq. apply allPrereqsMet_spec. intros p Hp.
      destruct (decide (p ∈ names)) as [Hin|]; [left|by right].
      simpl. rewrite (left_id_L ∅ (∪)). apply elem_of_list_to_set. eauto. }
  destruct (decide (names = [])) as [Hnil|Hne].
  { subst st0. by rewrite Hnil. }
  assert (∃ f, (length names * 2)%nat = S (S f)) as [f ->].
  { destruct names as [|n0 names']; [done|]. by eexists. }
  destruct placed as [|p0 placed'].
  - rewrite loop_flush; [|done|by rewrite Hpass].
    simpl. rewrite Hnames. simpl. apply sort_unique, sort_Permutation.
  - rewrite (loop_step tp names _ 0 st0 st1) by done.
    destruct (JS.sort blocked) as [|s0 sb] eqn:Hsb.
    + simpl. by rewrite Hnames, app_nil_r.
    + rewrite loop_flush.
      * simpl. rewrite Hnames, <- Hsb. simpl. do 2 f_equal.
        apply sort_unique, sort_Permutation.
      * done.
      * unfold pass. by rewrite Hsecond.
Qed.

End LearningOrderAgain.

(** *** The three tables of the repository *)

Lemma acyclic_rank entries s ps p :
  acyclic entries = true →
  (list_to_map entries : gmap string (list string)) !! s = Some ps →
  p ∈ ps → (rank entries p < rank entries s)%nat.
Proof.
  unfold acyclic. rewrite forallb_forall. intros Hall Hs Hp.
  apply elem_of_list_to_map_2, list_elem_of_In, Hall in Hs. simpl in Hs.
  rewrite forallb_forall in Hs. apply list_elem_of_In, Hs in Hp.
  by apply Nat.ltb_lt in Hp.
Qed.

Lemma tables_acyclic :
  acyclic Prerequisites.frontend = true ∧
  acyclic Prerequisites.backend = true ∧
  acyclic Prerequisites.fullstack = true.
Proof. by vm_compute. Qed.

Lemma lookup_three {A} (k1 k2 k3 : string) (v1 v2 v3 v : A) (k : string) :
  (list_to_map [(k1, v1); (k2, v2); (k3, v3)] : gmap string A) !! k = Some v →
  v = v1 ∨ v = v2 ∨ v = v3.
Proof.
  intros H. apply elem_of_list_to_map_2 in H.
  repeat (apply elem_of_cons in H as [[= _ ->]|H]; [tauto|]).
  by apply elem_of_nil in H.
Qed.

Lemma PREREQUISITES_lookup track tp :
  Prerequisites.PREREQUISITES !! track = Some tp →
  ∃ entries, tp = list_to_map entries ∧ acyclic entries = true.
Proof.
  intros H. apply lookup_three in H.
  destruct tables_acyclic as (Hf & Hb & Hs).
  destruct H as [H|[H|H]]; rewrite H; eexists; (split; [reflexivity|eassumption]).
Qed.

Lemma fuel_suffices (names : list string) :
  (length (JS.Set_from names) ≤ length names * 2)%nat.
Proof. pose proof (Set_from_length names). lia. Qed.

(** No table holds a skill under a name that it inherits: such a name
    reads the inherited member. *)
Lemma tables_own_no_inherited_name :
  Forall (λ tp : gmap string (list string),
            Forall (λ name, tp !! name = None) JS.Object_prototype_names)
    [ list_to_map Prerequisites.frontend;
      list_to_map Prerequisites.backend;
      list_to_map Prerequisites.fullstack ].
Proof.
  repeat (apply Forall_cons; split;
          [apply (bool_decide_unpack _); by vm_compute|]).
  apply Forall_nil_2.
Qed.

(** *** The calls of [getLearningOrder] *)

Section Runs.
Import Prerequisites.
Variable engine : Engine.t.
Variable P : gmap string (gmap string (list string)).
Variable track : string.

Local Abbreviation unreadable := (readError engine P track).

Lemma readError_None t s :
  trackPrereqsOf P track = Some t → unreadable s = None →
  ∃ l, prereqsOf engine t s = Ok (Array l).
Proof.
  unfold readError, getPrerequisitesIn. intros ->.
  destruct (prereqsOf engine t s) as [[l|]|message]; [by exists l|done..].
Qed.

Lemma readError_Some s message :
  unreadable s = Some message →
  ∃ t, trackPrereqsOf P track = Some t ∧
       bind (prereqsOf engine t s) (λ prereqs, every prereqs (λ _, true))
       = Throw message.
Proof.
  unfold readError, getPrerequisitesIn.
  destruct (trackPrereqsOf P track) as [t|]; [|done].
  intros H. exists t. split; [done|].
  destruct (bind _ _); [done|]. by injection H as ->.
Qed.

Lemma prerequisitesOf_arrays t s :
  trackPrereqsOf P track = Some t → unreadable s = None →
  prerequisitesOf engine P track s = default [] (arraysOf t !! s).
Proof.
  intros Ht Hs. destruct (readError_None t s Ht Hs) as [l Hl].
  unfold prerequisitesOf, getPrerequisitesIn. rewrite Ht, Hl. simpl.
  by apply (prereqsOf_Array engine t).
Qed.

Lemma prerequisitesOf_no_track s :
  trackPrereqsOf P track = None → prerequisitesOf engine P track s = [].
Proof. unfold prerequisitesOf, getPrerequisitesIn. by intros ->. Qed.

Lemma getPrerequisitesIn_readable s :
  unreadable s = None →
  getPrerequisitesIn engine P track s
  = Ok (Array (prerequisitesOf engine P track s)).
Proof.
  unfold readError, prerequisitesOf.
  by destruct (getPrerequisitesIn engine P track s) as [[l|]|message].
Qed.

(** The first skill of a list that reads no array. *)
Lemma first_unreadable (names : list string) :
  (∀ s, s ∈ names → unreadable s = None)
  ∨ ∃ before s after message,
      names = before ++ s :: after ∧
      (∀ x, x ∈ before → unreadable x = None) ∧
      unreadable s = Some message.
Proof.
  induction names as [|n names IH].
  - left. intros s Hs. by apply elem_of_nil in Hs.
  - destruct (unreadable n) as [message|] eqn:Hn.
    { right. exists [], n, names, message. split; [done|]. split; [|done].
      intros x Hx. by apply elem_of_nil in Hx. }
    destruct IH as [Hall|(before & s & after & message & -> & Hb & Hs)].
    + left. intros s Hs. apply elem_of_cons in Hs as [->|Hs]; auto.
    + right. exists (n :: before), s, after, message.
      split; [done|]. split; [|done].
      intros x Hx. apply elem_of_cons in Hx as [->|Hx]; auto.
Qed.

Lemma getLearningOrderRun_reads t (names : list string) :
  trackPrereqsOf P track = Some t →
  (∀ s, s ∈ names → unreadable s = None) →
  getLearningOrderRun engine P track names
  = Ok (Arrays.loop (arraysOf t) names (length names * 2) 0
          {| ordered := []; remaining := JS.Set_from names;
             processed := ∅ |}).
Proof.
  intros Ht Hnames. unfold getLearningOrderRun. rewrite Ht.
  apply loop_reads; [apply initial_Inv|].
  intros s Hs. by apply readError_None, Hnames.
Qed.

Lemma getLearningOrderRun_throws (before : list string) s after message :
  (∀ x, x ∈ before → unreadable x = None) →
  unreadable s = Some message →
  getLearningOrderRun engine P track (before ++ s :: after)
  = Throw message.
Proof.
  intros Hbefore Hs.
  destruct (readError_Some s message Hs) as (t & Ht & Hthrows).
  unfold getLearningOrderRun. rewrite Ht.
  assert (∃ fuel, (length (before ++ s :: after) * 2)%nat = S fuel)
    as [fuel ->].
  { rewrite length_app. simpl. exists (length before * 2 + length after * 2 + 1)%nat. lia. }
  apply (loop_throws engine t _ before s after); [|done..].
  intros x Hx. by apply readError_None, Hbefore.
Qed.

Lemma getLearningOrderRun_Ok (names : list string) r :
  getLearningOrderRun engine P track names = Ok r →
  ∀ s, s ∈ names → unreadable s = None.
Proof.
  intros Hrun.
  destruct (first_unreadable names)
    as [Hall|(before & s & after & message & -> & Hb & Hs)]; [done|].
  by rewrite (getLearningOrderRun_throws before s after message) in Hrun.
Qed.

(** The result of a call that reads arrays only: what was placed, then
    what was left, sorted. *)
Lemma getLearningOrder_shape (skillNames : list string) :
  is_Some (trackPrereqsOf P track) →
  (∀ s, s ∈ skillNames → unreadable s = None) →
  ∃ placed rest iterations,
    getLearningOrderRun engine P track skillNames
    = Ok (placed ++ JS.sort rest, iterations) ∧
    (iterations ≤ 2 * length skillNames)%nat ∧
    NoDup (placed ++ rest) ∧
    (∀ s, s ∈ placed ++ rest ↔ s ∈ skillNames) ∧
    (∀ l1 s l2 p,
       placed = l1 ++ s :: l2 →
       p ∈ prerequisitesOf engine P track s → p ∈ skillNames → p ∈ l1) ∧
    (∀ s, s ∈ rest →
          ∃ p, p ∈ prerequisitesOf engine P track s ∧
               p ∈ skillNames ∧ p ∉ placed).
Proof.
  intros [t Ht] Hnames.
  rewrite (getLearningOrderRun_reads t skillNames Ht Hnames).
  destruct (loop_shape (arraysOf t) skillNames _ 0 _
              (initial_Inv (arraysOf t) skillNames)
              (fuel_suffices skillNames))
    as (st & [Hnd Hel Hpr Hord] & Hout & Hblocked).
  destruct (loop_total (arraysOf t) skillNames _ 0 _
              (initial_Inv (arraysOf t) skillNames)
              (fuel_suffices skillNames)) as [_ Hit].
  destruct (Arrays.loop (arraysOf t) skillNames _ 0 _)
    as [out iterations].
  simpl in Hout, Hit. subst out.
  exists (ordered st), (remaining st), iterations.
  split_and!; [done|lia|done|done| |].
  - intros l1 s l2 p Heq Hp Hin. apply (Hord l1 s l2 p Heq); [|done].
    rewrite <- (prerequisitesOf_arrays t s Ht); [done|].
    apply Hnames, Hel. rewrite Heq, !elem_of_app, elem_of_cons. tauto.
  - intros s Hs.
    destruct (allPrereqsMet_false (arraysOf t) skillNames _ s
                (Hblocked s Hs))
      as (p & Hp & Hin & Hout').
    exists p. split_and!; [|done|by rewrite <- Hpr].
    rewrite (prerequisitesOf_arrays t s Ht); [done|].
    apply Hnames, Hel, elem_of_app. by right.
Qed.

(** A round that places nothing leaves the locals as they were. *)
Lemma visit_unchanged t names st b x st' :
  visit engine t names (st, b) x = Ok (st', false) →
  st' = st ∧ b = false.
Proof.
  unfold visit.
  destruct (allPrereqsMet engine t names (processed (st, b).1) x)
    as [[|]|message]; simpl; [done| |done].
  by intros [= -> ->].
Qed.

Lemma foldlM_visit_unchanged t names l :
  ∀ st b st',
    foldlM (visit engine t names) (st, b) l = Ok (st', false) →
    st' = st ∧ b = false.
Proof.
  induction l as [|x l IH]; intros st b st'; simpl.
  - by intros [= -> ->].
  - destruct (visit engine t names (st, b) x) as [[st1 b1]|message] eqn:Hv;
      simpl; [|done].
    intros H. destruct (IH _ _ _ H) as [-> ->].
    by apply visit_unchanged in Hv.
Qed.

Lemma loop_flushes t names fuel iterations st st' :
  remaining st ≠ [] →
  pass engine t names st = Ok (st', false) →
  st' = st ∧
  loop engine t names (S fuel) iterations st
  = Ok (ordered st ++ JS.sort (remaining st), S iterations).
Proof.
  intros Hne Hpass.
  destruct (foldlM_visit_unchanged t names _ _ _ _ Hpass) as [-> _].
  split; [done|]. simpl.
  destruct (remaining st) as [|r rs] eqn:Hrem; [done|].
  rewrite Hpass. simpl. by rewrite Hrem.
Qed.

End Runs.

(** On the three tracks a skill reads an array unless its name is one
    that the table only inherits. *)
Lemma readError_tracks (engine : Engine.t) (track skill : string) :
  track ∈ Constants.TRACKS.values →
  readError engine Prerequisites.PREREQUISITES track skill
  = if decide (skill ∈ JS.Object_prototype_names)
    then Some "prereqs.every is not a function" else None.
Proof.
  intros Htrack.
  assert (∃ tp, Prerequisites.PREREQUISITES !! track = Some tp ∧
                Forall (λ name, tp !! name = None) JS.Object_prototype_names)
    as (tp & Htp & Hown).
  { pose proof tables_own_no_inherited_name as Hall.
    apply Forall_cons in Hall as [Hf Hall].
    apply Forall_cons in Hall as [Hb Hall].
    apply Forall_cons in Hall as [Hs _].
    apply elem_of_cons in Htrack as [->|Htrack]; [by eexists|].
    apply elem_of_cons in Htrack as [->|Htrack]; [by eexists|].
    apply list_elem_of_singleton in Htrack as ->. by eexists. }
  unfold readError, Prerequisites.getPrerequisitesIn,
    Prerequisites.trackPrereqsOf, Prerequisites.prereqsOf.
  rewrite Htp. rewrite Forall_forall in Hown.
  destruct (decide (skill ∈ JS.Object_prototype_names)) as [Hin|Hout].
  - by rewrite (Hown skill Hin).
  - by destruct (tp !! skill).
Qed.


(** *** The claims on the learning order *)

(** A name that the table of a track only inherits ends the call. *)
Lemma getLearningOrder_throws_on_an_inherited_name :
  Prerequisites.getLearningOrder Engine.example "frontend"
    ["HTML"; "constructor"; "CSS"]
  = Throw "prereqs.every is not a function".
Proof. vm_compute. reflexivity. Qed.

(** C1, as the code has it.  For every track and every list of skill
    names each of which reads an array of prerequisites,
    [getLearningOrder] returns the input skills (the same skills; a
    permutation of the input when it has no repetition, and on a track
    with prerequisites each skill once), and whenever all prerequisites
    of an input skill [S] are in the input, each of them stands before
    [S] in the result.  When an input skill reads no array, the call
    throws, with the error of the first such skill.  On the three tracks
    the skills that read no array are those whose name the table, a
    plain object, inherits from [Object.prototype]; these throw a
    [TypeError].  On the track [frontend] and the input React,
    JavaScript, HTML, CSS, both HTML and JavaScript stand strictly before
    React. *)
Theorem getLearningOrder_respects_prerequisites (engine : Engine.t)
    (track : string) (skillNames : list string) :
  let unreadable := readError engine Prerequisites.PREREQUISITES track in
  let prerequisites :=
    prerequisitesOf engine Prerequisites.PREREQUISITES track in
  ((∀ S, S ∈ skillNames → unreadable S = None) →
   ∃ out,
     Prerequisites.getLearningOrder engine track skillNames = Ok out ∧
     (∀ s, s ∈ out ↔ s ∈ skillNames) ∧
     (NoDup skillNames → out ≡ₚ skillNames) ∧
     (is_Some (Prerequisites.trackPrereqsOf Prerequisites.PREREQUISITES
                 track) → NoDup out) ∧
     (∀ S, S ∈ skillNames →
           (∀ p, p ∈ prerequisites S → p ∈ skillNames) →
           ∀ p, p ∈ prerequisites S →
                0 ≤ JS.indexOf out p < JS.indexOf out S)) ∧
  (∀ before S after message,
     skillNames = before ++ S :: after →
     (∀ x, x ∈ before → unreadable x = None) →
     unreadable S = Some message →
     Prerequisites.getLearningOrder engine track skillNames
     = Throw message) ∧
  (track ∈ Constants.TRACKS.values →
   ∀ S, unreadable S
        = if decide (S ∈ JS.Object_prototype_names)
          then Some "prereqs.every is not a function" else None) ∧
  (∃ ordered,
     Prerequisites.getLearningOrder engine "frontend"
       ["React"; "JavaScript"; "HTML"; "CSS"] = Ok ordered ∧
     0 ≤ JS.indexOf ordered "HTML" < JS.indexOf ordered "React" ∧
     0 ≤ JS.indexOf ordered "JavaScript" < JS.indexOf ordered "React").
Proof.
  intros unreadable prerequisites. split_and!.
  - intros Hnames.
    unfold Prerequisites.getLearningOrder, Prerequisites.getLearningOrderIn.
    destruct (Prerequisites.trackPrereqsOf Prerequisites.PREREQUISITES track)
      as [t|] eqn:Ht.
    2:{ exists skillNames. unfold Prerequisites.getLearningOrderRun.
        rewrite Ht. simpl. split_and!; [done|done|done|by intros [? ?]|].
        intros S _ _ p Hp. subst prerequisites.
        rewrite prerequisitesOf_no_track in Hp by done.
        by apply elem_of_nil in Hp. }
    rewrite (getLearningOrderRun_reads engine _ track t skillNames Ht Hnames).
    simpl. eexists. split; [reflexivity|].
    destruct (loop_total (arraysOf t) skillNames _ 0 _
                (initial_Inv (arraysOf t) skillNames)
                (fuel_suffices skillNames)) as [Hp _].
    split_and!.
    + intros s. by rewrite Hp, Set_from_elem.
    + intros Hnd. by rewrite Hp, Set_from_distinct.
    + intros _. rewrite Hp. apply Set_from_NoDup.
    + intros S HS Hall p Hpre. subst prerequisites. simpl in Hall, Hpre.
      rewrite (prerequisitesOf_arrays engine _ track t S Ht (Hnames S HS))
        in Hall, Hpre.
      assert (∃ rank : string → nat,
                ∀ s ps q, arraysOf t !! s = Some ps → q ∈ ps →
                          (rank q < rank s)%nat) as [rank Hrank].
      { unfold Prerequisites.trackPrereqsOf in Ht.
        destruct (Prerequisites.PREREQUISITES !! track) as [tp|] eqn:Htp.
        - injection Ht as <-.
          destruct (PREREQUISITES_lookup track tp Htp)
            as (entries & -> & Hac).
          exists (rank entries). intros s ps q.
          by apply acyclic_rank.
        - case_decide; [|done]. injection Ht as <-.
          exists (λ _, O). intros s ps q Hs. simpl in Hs.
          by rewrite lookup_empty in Hs. }
      destruct (loop_acyclic (arraysOf t) skillNames rank Hrank
                  _ 0 _ (initial_Inv _ skillNames)
                  (fuel_suffices skillNames))
        as (st & [Hnd Hel _ Hord] & Hrem & ->).
      rewrite Hrem, app_nil_r in *.
      assert (S ∈ Prerequisites.ordered st) as HSo by (by apply Hel).
      apply list_elem_of_split in HSo as (l1 & l2 & Heq).
      assert (S ∉ l1) as HS1.
      { rewrite Heq in Hnd. apply NoDup_app in Hnd as (_ & Hd & _).
        intros Hin. apply (Hd S Hin). left. }
      assert (p ∈ skillNames) as Hpin by (by apply Hall).
      pose proof (Hord l1 S l2 p Heq Hpre Hpin) as Hp1.
      rewrite Heq. unfold JS.indexOf.
      rewrite (indexOf_from_first 0 l1 l2 S HS1).
      pose proof (indexOf_from_elem 0 l1 (S :: l2) p Hp1). lia.
  - intros before S after message -> Hbefore HS.
    unfold Prerequisites.getLearningOrder, Prerequisites.getLearningOrderIn.
    by rewrite (getLearningOrderRun_throws engine _ track before S after
                  message Hbefore HS).
  - intros Htrack S. by apply readError_tracks.
  - exists ["HTML"; "CSS"; "JavaScript"; "React"].
    split; [vm_compute; reflexivity|]. by vm_compute.
Qed.

(** A table with a direct cycle between two skills. *)
Example getLearningOrder_two_cycle :
  Prerequisites.getLearningOrderRun Engine.example
    (list_to_map [("t", list_to_map [("A", ["B"]); ("B", ["A"])])])
    "t" ["B"; "A"; "C"]
  = Ok (["C"; "A"; "B"], 2%nat).
Proof. by vm_compute. Qed.

(** A list of distinct names, one of them inherited by the table. *)
Lemma getLearningOrder_returns_no_skill_of_an_inherited_name :
  Prerequisites.getLearningOrderRun Engine.example
    Prerequisites.PREREQUISITES "backend" ["toString"; "SQL"]
  = Throw "prereqs.every is not a function".
Proof. vm_compute. reflexivity. Qed.

(** C2, as the code has it.  For every table of prerequisites (with or
    without cycles), every track and every list of distinct skill names
    each of which reads an array of prerequisites, [getLearningOrder]
    stops after at most [2 × |input|] rounds and returns every input
    skill exactly once.  What it returns is the skills it placed, each
    after its prerequisites in the input, followed in ascending order by
    the skills it could not place, each of which has a prerequisite in
    the input that was not placed either.  In the loop, a round that
    places no skill while some remain leaves the locals as they were and
    makes the loop append the remaining skills in ascending order and
    stop. *)
Theorem getLearningOrder_terminates_total (engine : Engine.t)
    (P : gmap string (gmap string (list string)))
    (track : string) (skillNames : list string) :
  NoDup skillNames →
  (∀ S, S ∈ skillNames → readError engine P track S = None) →
  let prerequisites := prerequisitesOf engine P track in
  ∃ out iterations placed rest,
    Prerequisites.getLearningOrderRun engine P track skillNames
    = Ok (out, iterations) ∧
    Prerequisites.getLearningOrderIn engine P track skillNames = Ok out ∧
    (iterations ≤ 2 * length skillNames)%nat ∧
    out ≡ₚ skillNames ∧
    NoDup out ∧
    out = placed ++ JS.sort rest ∧
    Sorted String.le (JS.sort rest) ∧
    JS.sort rest ≡ₚ rest ∧
    (∀ l1 s l2 p,
       placed = l1 ++ s :: l2 →
       p ∈ prerequisites s → p ∈ skillNames → p ∈ l1) ∧
    (∀ s, s ∈ rest →
          ∃ p, p ∈ prerequisites s ∧ p ∈ skillNames ∧ p ∉ placed) ∧
    (∀ t fuel iterations st st',
       Prerequisites.remaining st ≠ [] →
       Prerequisites.pass engine t skillNames st = Ok (st', false) →
       st' = st ∧
       Prerequisites.loop engine t skillNames (S fuel) iterations st
       = Ok (Prerequisites.ordered st
             ++ JS.sort (Prerequisites.remaining st), S iterations)).
Proof.
  intros Hnd Hnames prerequisites.
  assert (∃ placed rest iterations,
            Prerequisites.getLearningOrderRun engine P track skillNames
            = Ok (placed ++ JS.sort rest, iterations) ∧
            (iterations ≤ 2 * length skillNames)%nat ∧
            NoDup (placed ++ rest) ∧
            (∀ s, s ∈ placed ++ rest ↔ s ∈ skillNames) ∧
            (∀ l1 s l2 p,
               placed = l1 ++ s :: l2 →
               p ∈ prerequisites s → p ∈ skillNames → p ∈ l1) ∧
            (∀ s, s ∈ rest →
                  ∃ p, p ∈ prerequisites s ∧ p ∈ skillNames ∧ p ∉ placed))
    as (placed & rest & iterations & Hrun & Hit & Hnd' & Hel & Hord & Hrest).
  { destruct (Prerequisites.trackPrereqsOf P track) as [t|] eqn:Ht.
    - by apply getLearningOrder_shape.
    - exists skillNames, [], O.
      unfold Prerequisites.getLearningOrderRun. rewrite Ht.
      change (JS.sort []) with (@nil string). rewrite !app_nil_r.
      split_and!; [done|lia|done|done| |].
      + intros l1 s l2 p _ Hp. subst prerequisites.
        rewrite prerequisitesOf_no_track in Hp by done.
        by apply elem_of_nil in Hp.
      + intros s Hs. by apply elem_of_nil in Hs. }
  assert (placed ++ JS.sort rest ≡ₚ skillNames) as Hperm.
  { rewrite sort_Permutation. by apply NoDup_Permutation. }
  exists (placed ++ JS.sort rest), iterations, placed, rest.
  split_and!; [done| |done|done|by rewrite Hperm|done|apply sort_Sorted
              |apply sort_Permutation|done|done|].
  - unfold Prerequisites.getLearningOrderIn. by rewrite Hrun.
  - intros t fuel it st st'. apply loop_flushes.
Qed.

Lemma getLearningOrder_terminates_total_witness :
  let P : gmap string (gmap string (list string)) :=
    list_to_map [("t", list_to_map [("A", ["B"]); ("B", ["A"])])] in
  NoDup ["B"; "A"; "C"] ∧
  ∃ iterations placed rest,
    Prerequisites.getLearningOrderRun Engine.example P "t" ["B"; "A"; "C"]
    = Ok (["C"; "A"; "B"], iterations) ∧
    (iterations ≤ 2 * 3)%nat ∧
    ["C"; "A"; "B"] = placed ++ JS.sort rest.
Proof.
  intros P.
  assert (NoDup ["B"; "A"; "C"]) as Hnd.
  { apply (bool_decide_unpack _). vm_compute. exact I. }
  split; [exact Hnd|].
  assert (∀ S, S ∈ ["B"; "A"; "C"] → readError Engine.example P "t" S = None)
    as Hnames.
  { intros S HS. repeat (apply elem_of_cons in HS as [->|HS]; [reflexivity|]).
    by apply elem_of_nil in HS. }
  destruct (getLearningOrder_terminates_total Engine.example P "t"
              ["B"; "A"; "C"] Hnd Hnames)
    as (out & iterations & placed & rest & Hrun & _ & Hit & _ & _ & Hout & _).
  assert (out = ["C"; "A"; "B"]) as Heq.
  { assert (Prerequisites.getLearningOrderRun Engine.example P "t"
              ["B"; "A"; "C"] = Ok (["C"; "A"; "B"], 2%nat)) as Hc
      by (vm_compute; reflexivity).
    rewrite Hc in Hrun. by injection Hrun as <- _. }
  rewrite Heq in Hrun, Hout.
  exists iterations, placed, rest. split; [exact Hrun|].
  split; [exact Hit|exact Hout].
Defined.

(** ** The cache *)

Section Cache.
Import CacheService.
Context {V : Type}.
Variable null : V.

Local Abbreviation store := (list (string * Entry V)).

Lemma Map_get_cons k k' e (m : store) :
  Map_get k ((k', e) :: m) = if decide (k' = k) then Some e else Map_get k m.
Proof.
  unfold Map_get. simpl. destruct (decide (k' = k)); [done|].
  by destruct (list_find _ m) as [[? [? ?]]|].
Qed.

Lemma Map_get_nil k : Map_get k ([] : store) = None.
Proof. done. Qed.

Lemma Map_has_cons k k' e (m : store) :
  Map_has k ((k', e) :: m) = if decide (k' = k) then true else Map_has k m.
Proof.
  unfold Map_has. simpl. destruct (decide (k' = k)) as [->|Hne].
  - apply bool_decide_eq_true. left.
  - apply bool_decide_ext. rewrite elem_of_cons. split; [|by right].
    intros [?|?]; [congruence|done].
Qed.

Lemma Map_has_true k (m : store) : Map_has k m = true ↔ k ∈ m.*1.
Proof. apply bool_decide_eq_true. Qed.

Lemma Map_has_false k (m : store) : Map_has k m = false ↔ k ∉ m.*1.
Proof. apply bool_decide_eq_false. Qed.

Lemma Map_get_None k (m : store) : Map_get k m = None ↔ k ∉ m.*1.
Proof.
  induction m as [|[k' e] m IH]; simpl.
  - split; [intros _; apply not_elem_of_nil|done].
  - rewrite Map_get_cons, not_elem_of_cons.
    destruct (decide (k' = k)) as [Heq|Hne].
    + split; [done|]. intros [Hk _]. by destruct Hk.
    + rewrite IH. split; [intros ?; split; [congruence|done]|tauto].
Qed.

Lemma Map_get_Some_elem k e (m : store) : Map_get k m = Some e → k ∈ m.*1.
Proof.
  intros H. destruct (decide (k ∈ m.*1)) as [|Hn]; [done|].
  apply Map_get_None in Hn. congruence.
Qed.

Lemma keys_Map_delete k (m : store) :
  (Map_delete k m).*1 = filter (λ y, y ≠ k) m.*1.
Proof.
  unfold Map_delete. induction m as [|[k' e] m IH]; [done|].
  rewrite fmap_cons. cbn [fst]. destruct (decide (k' = k)) as [->|Hne].
  - rewrite !filter_cons_False by (cbn; intros H; by apply H). done.
  - rewrite !filter_cons_True by (cbn; congruence).
    rewrite fmap_cons. cbn [fst]. by rewrite IH.
Qed.

Lemma Map_delete_absent k (m : store) : k ∉ m.*1 → Map_delete k m = m.
Proof.
  unfold Map_delete. induction m as [|[k' e] m IH]; [done|]. simpl.
  rewrite not_elem_of_cons. intros [Hne Hk].
  rewrite filter_cons_True by (simpl; congruence). by rewrite IH.
Qed.

Lemma Map_delete_head k e (m : store) :
  k ∉ m.*1 → Map_delete k ((k, e) :: m) = m.
Proof.
  intros Hk. unfold Map_delete. rewrite filter_cons_False by (simpl; tauto).
  by apply Map_delete_absent.
Qed.

Lemma Map_delete_length k (m : store) :
  (length (Map_delete k m) ≤ length m)%nat.
Proof. apply length_filter. Qed.

Lemma Map_delete_length_lt k (m : store) :
  k ∈ m.*1 → (length (Map_delete k m) < length m)%nat.
Proof.
  intros Hk. apply list_elem_of_fmap in Hk as ([k' e] & -> & Hin).
  apply (length_filter_lt _ _ (k', e)); [done|]. simpl. tauto.
Qed.

Lemma Map_get_delete k (m : store) : Map_get k (Map_delete k m) = None.
Proof.
  apply Map_get_None. rewrite keys_Map_delete, list_elem_of_filter. tauto.
Qed.

Lemma Map_get_delete_ne k k' (m : store) :
  k' ≠ k → Map_get k' (Map_delete k m) = Map_get k' m.
Proof.
  intros Hne. unfold Map_delete. induction m as [|[k0 e] m IH]; [done|].
  rewrite filter_cons. simpl. rewrite Map_get_cons.
  destruct (decide (k0 ≠ k)) as [Hk|Hk].
  - rewrite Map_get_cons. by rewrite IH.
  - rewrite decide_False; [done|]. intros ->. apply Hk. congruence.
Qed.

Lemma keys_Map_set_present k e (m : store) :
  k ∈ m.*1 → (Map_set k e m).*1 = m.*1.
Proof.
  intros Hk. unfold Map_set. rewrite (proj2 (Map_has_true k m) Hk).
  rewrite <- list_fmap_compose. apply list_fmap_ext.
  intros _ [k' e'] _. simpl. by destruct (decide (k' = k)).
Qed.

Lemma Map_set_absent k e (m : store) :
  k ∉ m.*1 → Map_set k e m = m ++ [(k, e)].
Proof.
  intros Hk. unfold Map_set. by rewrite (proj2 (Map_has_false k m) Hk).
Qed.

Lemma Map_set_length k e (m : store) :
  length (Map_set k e m)
  = if Map_has k m then length m else S (length m).
Proof.
  unfold Map_set. destruct (Map_has k m).
  - by rewrite length_fmap.
  - rewrite length_app. simpl. lia.
Qed.

Lemma Map_get_set k e (m : store) : Map_get k (Map_set k e m) = Some e.
Proof.
  unfold Map_set. destruct (Map_has k m) eqn:Hk.
  - apply Map_has_true in Hk. induction m as [|[k' e'] m IH].
    + by apply elem_of_nil in Hk.
    + simpl in *. destruct (decide (k' = k)) as [->|Hne].
      * by rewrite Map_get_cons, decide_True.
      * rewrite Map_get_cons, decide_False by done. apply IH.
        apply elem_of_cons in Hk as [?|?]; [congruence|done].
  - apply Map_has_false in Hk. induction m as [|[k' e'] m IH]; simpl.
    + by rewrite Map_get_cons, decide_True.
    + simpl in Hk. apply not_elem_of_cons in Hk as [Hne Hk].
      rewrite Map_get_cons, decide_False by done. by apply IH.
Qed.


(** *** The store after [set] and after [get] *)

Lemma evict_spec key (c : t V) :
  evict key c =
    if decide (maxSize c ≤ Z.of_nat (length (cache c)) ∧ key ∉ (cache c).*1)
    then match cache c with
         | [] => []
         | (firstKey, _) :: _ => Map_delete firstKey (cache c)
         end
    else cache c.
Proof.
  unfold evict. destruct (Map_has key (cache c)) eqn:Hk.
  - apply Map_has_true in Hk. rewrite andb_false_r.
    rewrite decide_False by tauto. done.
  - apply Map_has_false in Hk. rewrite andb_true_r.
    destruct (Z.leb_spec (maxSize c) (Z.of_nat (length (cache c)))).
    + rewrite decide_True by tauto. by destruct (cache c) as [|[? ?] ?].
    + rewrite decide_False by lia. done.
Qed.

Lemma evict_keeps key k (c : t V) : k ∈ (evict key c).*1 → k ∈ (cache c).*1.
Proof.
  rewrite evict_spec. case_decide; [|done].
  destruct (cache c) as [|[k0 e0] m] eqn:Hc; [done|].
  rewrite keys_Map_delete, list_elem_of_filter. tauto.
Qed.

Lemma evict_present key (c : t V) :
  key ∈ (cache c).*1 → evict key c = cache c.
Proof. intros Hk. rewrite evict_spec. by rewrite decide_False by tauto. Qed.

Lemma evict_length key (c : t V) :
  0 < maxSize c → key ∉ (cache c).*1 →
  Z.of_nat (length (cache c)) ≤ maxSize c →
  Z.of_nat (length (evict key c)) < maxSize c.
Proof.
  intros Hpos Hk Hsize. rewrite evict_spec. case_decide as Hd.
  - destruct (cache c) as [|[k0 e0] m] eqn:Hc; simpl in *; [lia|].
    pose proof (Map_delete_length_lt k0 ((k0, e0) :: m) ltac:(left)) as Hlt.
    simpl in Hlt. lia.
  - assert (¬ maxSize c ≤ Z.of_nat (length (cache c))) by tauto. lia.
Qed.

Lemma set_size now key v ttlMs (c : t V) :
  0 < maxSize c →
  Z.of_nat (length (cache c)) ≤ maxSize c →
  Z.of_nat (length (cache (set now key v ttlMs c).2)) ≤ maxSize c.
Proof.
  intros Hpos Hsize. simpl. rewrite Map_set_length.
  destruct (decide (key ∈ (cache c).*1)) as [Hk|Hk].
  - rewrite (evict_present key c Hk).
    by rewrite (proj2 (Map_has_true key (cache c)) Hk).
  - pose proof (evict_length key c Hpos Hk Hsize).
    destruct (Map_has key (evict key c)); lia.
Qed.

Lemma get_size now key (c : t V) :
  (length (cache (get null now key c).2) ≤ length (cache c))%nat.
Proof.
  unfold get. destruct (Map_get key (cache c)) as [e|] eqn:Hg; [|done].
  destruct (expiry e <? now); simpl; [apply Map_delete_length|].
  rewrite Map_set_length, (proj2 (Map_has_false _ _)).
  - apply Map_get_Some_elem in Hg.
    pose proof (Map_delete_length_lt key (cache c) Hg). lia.
  - rewrite keys_Map_delete, list_elem_of_filter. tauto.
Qed.

Lemma step_maxSize (c : t V) o : maxSize (step null c o) = maxSize c.
Proof.
  destruct o as [now key v ttl|now key]; simpl; [done|].
  unfold get. destruct (Map_get key (cache c)) as [e|]; [|done].
  by destruct (expiry e <? now).
Qed.

Lemma step_size (c : t V) o :
  0 < maxSize c →
  Z.of_nat (length (cache c)) ≤ maxSize c →
  Z.of_nat (length (cache (step null c o))) ≤ maxSize c.
Proof.
  intros Hpos Hsize. destruct o as [now key v ttl|now key].
  - by apply set_size.
  - pose proof (get_size now key c). simpl. lia.
Qed.

Lemma run_size ops :
  ∀ c : t V, 0 < maxSize c →
    Z.of_nat (length (cache c)) ≤ maxSize c →
    Z.of_nat (length (cache (run null c ops))) ≤ maxSize c.
Proof.
  induction ops as [|o ops IH]; intros c Hpos Hsize; simpl; [done|].
  rewrite <- (step_maxSize c o). apply IH.
  - by rewrite step_maxSize.
  - rewrite step_maxSize. by apply step_size.
Qed.

End Cache.

(** *** The order of the store is the order of last use *)

Section Recency.
Import CacheService.
Context {V : Type}.
Variable null : V.

Lemma StronglySorted_sublist {A} (R : relation A) (l1 l2 : list A) :
  l1 `sublist_of` l2 → StronglySorted R l2 → StronglySorted R l1.
Proof.
  induction 1 as [|x l1 l2 Hsub IH|x l1 l2 Hsub IH]; intros Hs.
  - constructor.
  - apply StronglySorted_inv in Hs as [Hs Hall]. constructor; [by apply IH|].
    apply Forall_forall. intros y Hy.
    rewrite Forall_forall in Hall. apply Hall. by eapply elem_of_sublist.
  - apply StronglySorted_inv in Hs as [Hs _]. by apply IH.
Qed.

Lemma recency_sub m clock (keys keys' : list string) :
  keys' `sublist_of` keys → recency_order m clock keys →
  recency_order m (S clock) keys'.
Proof.
  intros Hsub [Hnd Hs Hp]. split.
  - by eapply sublist_NoDup.
  - by eapply StronglySorted_sublist.
  - intros k Hk. destruct (Hp k) as (n & ? & ?); [by eapply elem_of_sublist|].
    exists n. split; [done|lia].
Qed.

Lemma used_before_insert m k n (l : list string) :
  k ∉ l → StronglySorted (used_before m) l →
  StronglySorted (used_before (<[k:=n]> m)) l.
Proof.
  intros Hk Hs. induction Hs as [|a l Hs IH Hall]; constructor.
  - apply IH. by apply not_elem_of_cons in Hk as [_ ?].
  - apply not_elem_of_cons in Hk as [Hka Hkl].
    rewrite Forall_forall in Hall |- *. intros b Hb.
    destruct (Hall b Hb) as (na & nb & Ha' & Hb' & Hlt).
    exists na, nb. rewrite !lookup_insert_ne; [done| |done].
    intros ->. done.
Qed.

Lemma recency_touch m clock (keys keys' : list string) k :
  keys' `sublist_of` keys → k ∉ keys' → recency_order m clock keys →
  recency_order (<[k:=clock]> m) (S clock) (keys' ++ [k]).
Proof.
  intros Hsub Hk Hr. destruct (recency_sub m clock keys keys' Hsub Hr)
    as [Hnd Hs Hp].
  destruct Hr as [_ _ Hp0].
  assert (∀ a, a ∈ keys' → a ≠ k) as Hne by (intros a Ha ->; done).
  split.
  - apply NoDup_app. split_and!; [done| |apply NoDup_singleton].
    intros a Ha ->%list_elem_of_singleton. done.
  - apply StronglySorted_app_2.
    + intros a b Ha ->%list_elem_of_singleton.
      destruct (Hp0 a) as (na & Hna & Hlt); [by eapply elem_of_sublist|].
      exists na, clock. rewrite lookup_insert_eq.
      rewrite lookup_insert_ne by (symmetry; by apply Hne). done.
    + by apply used_before_insert.
    + repeat constructor.
  - intros a [Ha| ->%list_elem_of_singleton]%elem_of_app.
    + destruct (Hp a Ha) as (n & ? & ?). exists n.
      rewrite lookup_insert_ne by (symmetry; by apply Hne). done.
    + exists clock. rewrite lookup_insert_eq. split; [done|lia].
Qed.

Lemma keys_evict_sublist key (c : t V) :
  (evict key c).*1 `sublist_of` (cache c).*1.
Proof.
  rewrite evict_spec. case_decide; [|done].
  destruct (cache c) as [|[k0 e0] m]; [done|].
  rewrite keys_Map_delete. apply sublist_filter.
Qed.

Lemma step_stamped_ok (s : Stamped V) o :
  stamped_ok s → stamped_ok (step_stamped null s o).
Proof.
  unfold stamped_ok. intros Hr. destruct s as [c n m]. simpl in *.
  destruct o as [now key v ttl|now key]; simpl.
  - destruct (decide (key ∈ (cache c).*1)) as [Hk|Hk].
    + rewrite (proj2 (Map_has_true key (cache c)) Hk).
      rewrite evict_present by done. rewrite keys_Map_set_present by done.
      by apply (recency_sub m n (cache c).*1).
    + rewrite (proj2 (Map_has_false key (cache c)) Hk).
      assert (key ∉ (evict key c).*1) as Hk'.
      { intros Hin. by apply Hk, (evict_keeps key). }
      rewrite Map_set_absent by done. rewrite fmap_app. simpl.
      apply (recency_touch m n (cache c).*1); [|done..].
      apply keys_evict_sublist.
  - unfold get. destruct (Map_get key (cache c)) as [e|] eqn:Hg; simpl.
    + destruct (expiry e <? now); simpl.
      * rewrite keys_Map_delete.
        apply (recency_sub m n (cache c).*1); [apply sublist_filter|done].
      * assert (key ∉ (Map_delete key (cache c)).*1) as Hk.
        { rewrite keys_Map_delete, list_elem_of_filter. tauto. }
        rewrite Map_set_absent by done. rewrite fmap_app. simpl.
        apply (recency_touch m n (cache c).*1); [|done..].
        rewrite keys_Map_delete. apply sublist_filter.
    + by apply (recency_sub m n (cache c).*1).
Qed.

Lemma foldl_step_stamped_current ops :
  ∀ s : Stamped V,
    current (foldl (step_stamped null) s ops) = run null (current s) ops.
Proof. induction ops as [|o ops IH]; intros s; simpl; [done|]. by rewrite IH. Qed.

Lemma run_stamped_current (c : t V) ops :
  current (run_stamped null c ops) = run null c ops.
Proof. apply foldl_step_stamped_current. Qed.

Lemma foldl_step_stamped_ok ops :
  ∀ s : Stamped V, stamped_ok s → stamped_ok (foldl (step_stamped null) s ops).
Proof.
  induction ops as [|o ops IH]; intros s Hs; simpl; [done|].
  by apply IH, step_stamped_ok.
Qed.

Lemma run_stamped_ok (c : t V) ops :
  cache c = [] → stamped_ok (run_stamped null c ops).
Proof.
  intros Hc. apply foldl_step_stamped_ok. unfold stamped_ok. simpl.
  rewrite Hc. split; [constructor|constructor|].
  intros k Hk. by apply elem_of_nil in Hk.
Qed.

Lemma run_maxSize ops :
  ∀ c : t V, maxSize (run null c ops) = maxSize c.
Proof.
  induction ops as [|o ops IH]; intros c; simpl; [done|].
  by rewrite IH, step_maxSize.
Qed.

(** At capacity, [set] on a new key removes the first entry of the store
    and puts the new entry last. *)
Lemma set_evicts_first now key v ttl (c : t V) k0 e0 rest :
  NoDup (cache c).*1 → cache c = (k0, e0) :: rest →
  maxSize c ≤ Z.of_nat (length (cache c)) → key ∉ (cache c).*1 →
  cache (set now key v ttl c).2 = rest ++ [(key, new_entry now v ttl c)].
Proof.
  intros Hnd Hc Hfull Hk. simpl.
  assert (evict key c = rest) as Hev.
  { rewrite evict_spec, decide_True by done. rewrite Hc.
    apply Map_delete_head. rewrite Hc in Hnd. simpl in Hnd.
    by apply NoDup_cons in Hnd as [? _]. }
  rewrite Hev. apply Map_set_absent. rewrite Hc in Hk. simpl in Hk.
  by apply not_elem_of_cons in Hk as [_ ?].
Qed.

(** Calls of [set] on keys that are new and distinct: the store keeps the
    last [maxSize] of all keys. *)
Lemma run_sets (calls : list (SetCall V)) :
  ∀ c : t V,
    0 < maxSize c → Z.of_nat (length (cache c)) ≤ maxSize c →
    NoDup ((cache c).*1 ++ (call_key <$> calls)) →
    (cache (run null c (OpSetOf <$> calls))).*1
    = drop (length ((cache c).*1 ++ (call_key <$> calls))
            - Z.to_nat (maxSize c))
        ((cache c).*1 ++ (call_key <$> calls)).
Proof.
  induction calls as [|a calls IH]; intros c Hpos Hsize Hnd.
  - simpl. rewrite app_nil_r, length_fmap.
    replace (length (cache c) - Z.to_nat (maxSize c))%nat with O by lia.
    done.
  - rewrite !fmap_cons.
    change (run null c (OpSetOf a :: (OpSetOf <$> calls)))
      with (run null (step null c (OpSetOf a)) (OpSetOf <$> calls)).
    set (c' := step null c (OpSetOf a)).
    assert (call_key a ∉ (cache c).*1) as Hk.
    { apply NoDup_app in Hnd as (_ & Hd & _). intros Hin.
      apply (Hd _ Hin). left. }
    assert (NoDup (cache c).*1) as Hndc by (by apply NoDup_app in Hnd as (?&_&_)).
    assert ((cache c').*1 ++ (call_key <$> calls)
            = drop (if decide (maxSize c ≤ Z.of_nat (length (cache c)))
                    then 1 else 0)
                ((cache c).*1 ++ call_key a :: (call_key <$> calls))) as Hkeys.
    { subst c'. simpl. rewrite Map_set_absent
        by (intros Hin; by apply Hk, (evict_keeps (call_key a))).
      rewrite fmap_app. simpl. rewrite evict_spec.
      case_decide as Hd; case_decide as Hd'; try tauto.
      - destruct (cache c) as [|[k0 e0] m] eqn:Hc; simpl in *; [lia|].
        rewrite Map_delete_head by (by apply NoDup_cons in Hndc as [? _]).
        by rewrite <- app_assoc.
      - by rewrite <- app_assoc. }
    assert (maxSize c' = maxSize c) as HM by (subst c'; apply step_maxSize).
    rewrite <- HM. rewrite IH.
    + rewrite Hkeys, HM. rewrite drop_drop. f_equal.
      rewrite length_drop, !length_app, length_fmap. simpl.
      case_decide; lia.
    + lia.
    + rewrite HM. by apply step_size.
    + rewrite Hkeys. eapply sublist_NoDup; [|apply sublist_drop].
      by rewrite fmap_cons in Hnd.
Qed.

End Recency.

(** *** Capacity, eviction, expiry *)

Section CacheClaims.
Import CacheService.
Context {V : Type}.
Variable null : V.

(** C3.  On a cache that starts empty with [maxSize > 0], after every
    sequence of [set] and [get] calls the store holds at most [maxSize]
    entries.  When [set] is called at capacity with a key that is not
    present, the first entry of the store is removed and the new entry is
    put last; that first entry is the least recently used one: every
    other entry was inserted or read later.  Hence [maxSize + 1] calls of
    [set] on distinct keys leave exactly [maxSize] entries, all keys but
    the first. *)
Theorem cache_capacity_and_eviction (c0 : t V) :
  cache c0 = [] → 0 < maxSize c0 →
  (∀ ops, Z.of_nat (length (cache (run null c0 ops))) ≤ maxSize c0) ∧
  (∀ ops now key v ttlMs,
     let s := run_stamped null c0 ops in
     let c := current s in
     maxSize c ≤ Z.of_nat (length (cache c)) → key ∉ (cache c).*1 →
     ∃ k0 e0 rest,
       cache c = (k0, e0) :: rest ∧
       (∀ k, k ∈ rest.*1 → used_before (lastUse s) k0 k) ∧
       cache (set now key v ttlMs c).2
       = rest ++ [(key, new_entry now v ttlMs c)]) ∧
  (∀ calls : list (SetCall V),
     NoDup (call_key <$> calls) →
     Z.of_nat (length calls) = maxSize c0 + 1 →
     let c := run null c0 (OpSetOf <$> calls) in
     Z.of_nat (length (cache c)) = maxSize c0 ∧
     (cache c).*1 = tail (call_key <$> calls)).
Proof.
  intros Hempty Hpos. split_and!.
  - intros ops. apply run_size; [done|]. rewrite Hempty. simpl. lia.
  - intros ops now key v ttlMs s c Hfull Hk.
    pose proof (run_stamped_ok null c0 ops Hempty) as [Hnd Hs _].
    fold s in Hnd, Hs. fold c in Hnd, Hs.
    assert (maxSize c = maxSize c0) as HM.
    { subst c s. by rewrite run_stamped_current, run_maxSize. }
    destruct (cache c) as [|[k0 e0] rest] eqn:Hc; [simpl in Hfull; lia|].
    exists k0, e0, rest. split_and!; [done| |].
    + simpl in Hs. apply StronglySorted_cons in Hs as [Hall _].
      rewrite Forall_forall in Hall. exact Hall.
    + apply (set_evicts_first now key v ttlMs c k0 e0 rest);
        rewrite ?Hc; done.
  - intros calls Hnd Hlen c.
    pose proof (run_sets null calls c0 Hpos) as Hrun.
    rewrite Hempty in Hrun. simpl in Hrun.
    specialize (Hrun ltac:(lia) Hnd). fold c in Hrun.
    assert (length (call_key <$> calls) - Z.to_nat (maxSize c0) = 1)%nat
      as Hone by (rewrite length_fmap; lia).
    rewrite Hone in Hrun.
    assert ((cache c).*1 = tail (call_key <$> calls)) as Hkeys.
    { rewrite Hrun. by destruct (call_key <$> calls). }
    split; [|done].
    rewrite <- (length_fmap fst (cache c)), Hrun.
    rewrite length_drop, length_fmap. lia.
Qed.

(** C4.  [get] answers [null] and leaves the cache as it is when the key
    is absent; answers [null] and deletes the entry when the clock is past
    the entry's expiry; and otherwise answers the stored value and moves
    the entry to the end of the store, the most recently used place.  An
    entry set with a ttl of 50 ms is a miss 100 ms later (and at any time
    more than 50 ms later), and is read back up to 50 ms later. *)
Theorem get_hit_or_miss (c : t V) (now : Z) (key : string) :
  (Map_get key (cache c) = None → get null now key c = (null, c)) ∧
  (∀ e, Map_get key (cache c) = Some e → expiry e < now →
        get null now key c
        = (null, with_cache c (Map_delete key (cache c))) ∧
        Map_get key (cache (get null now key c).2) = None) ∧
  (∀ e, Map_get key (cache c) = Some e → now ≤ expiry e →
        get null now key c
        = (value e, with_cache c (Map_delete key (cache c) ++ [(key, e)])) ∧
        last (cache (get null now key c).2) = Some (key, e)) ∧
  (∀ t v d,
     let c1 := (set t key v (Some 50) c).2 in
     (get null (t + 100) key c1).1 = null ∧
     (50 < d → (get null (t + d) key c1).1 = null) ∧
     (d ≤ 50 → (get null (t + d) key c1).1 = v)).
Proof.
  split_and!.
  - intros Hg. unfold get. by rewrite Hg.
  - intros e Hg Hexp. unfold get. rewrite Hg.
    rewrite (proj2 (Z.ltb_lt _ _) Hexp). split; [done|]. simpl.
    apply Map_get_delete.
  - intros e Hg Hexp. unfold get. rewrite Hg.
    rewrite (proj2 (Z.ltb_ge _ _) Hexp).
    rewrite Map_set_absent
      by (rewrite keys_Map_delete, list_elem_of_filter; tauto).
    split; [done|]. simpl. apply last_snoc.
  - intros t v d c1.
    assert (Map_get key (cache c1) = Some (new_entry t v (Some 50) c)) as Hg
      by apply Map_get_set.
    assert (∀ n, (get null n key c1).1
                 = if t + 50 <? n then null else v) as Hget.
    { intros n. unfold get. rewrite Hg. simpl.
      by destruct (t + 50 <? n). }
    rewrite !Hget. split_and!.
    + by rewrite (proj2 (Z.ltb_lt _ _)) by lia.
    + intros Hd. by rewrite (proj2 (Z.ltb_lt _ _)) by lia.
    + intros Hd. by rewrite (proj2 (Z.ltb_ge _ _)) by lia.
Qed.


End CacheClaims.

Lemma cache_capacity_and_eviction_witness :
  let c0 := CacheService.constructor (Some 2) None in
  CacheService.cache c0 = [] ∧ 0 < CacheService.maxSize c0 ∧
  (CacheService.cache
     (CacheService.run "" c0
        [CacheService.OpSet 0 "a" "1" None; CacheService.OpSet 1 "b" "2" None;
         CacheService.OpSet 2 "c" "3" None])).*1 = ["b"; "c"].
Proof.
  intros c0. split; [reflexivity|]. split; [reflexivity|].
  assert (NoDup ["a"; "b"; "c"]) as Hnd.
  { apply (bool_decide_unpack _). vm_compute. exact I. }
  pose proof (cache_capacity_and_eviction "" c0 eq_refl eq_refl) as (_ & _ & H).
  exact (proj2 (H [ {| call_now := 0; call_key := "a"; call_value := "1";
                       call_ttlMs := None |};
                    {| call_now := 1; call_key := "b"; call_value := "2";
                       call_ttlMs := None |};
                    {| call_now := 2; call_key := "c"; call_value := "3";
                       call_ttlMs := None |} ] Hnd eq_refl)).
Defined.


(** ** The cache key *)

Section GenerateKey.
Import CacheService.
Context {W : Type}.






End GenerateKey.


(** ** Gaps *)

(** *** The fold of the letters A-Z *)

Lemma sameLetter_lower (a b : ascii) :
  sameLetter a b = bool_decide (JS.lower_ascii a = JS.lower_ascii b).
Proof.
  assert (forallb
            (λ a, forallb
                    (λ b, bool_decide
                            (sameLetter a b
                             = bool_decide
                                 (JS.lower_ascii a = JS.lower_ascii b)))
                    (ascii_of_nat <$> seq 0 256))
            (ascii_of_nat <$> seq 0 256) = true) as Hall
    by (vm_compute; reflexivity).
  rewrite forallb_forall in Hall.
  assert (∀ c, In c (ascii_of_nat <$> seq 0 256)) as Hin.
  { intros c. apply list_elem_of_In, list_elem_of_fmap.
    exists (nat_of_ascii c). split; [by rewrite ascii_nat_embedding|].
    apply list_elem_of_In, in_seq. pose proof (nat_ascii_bounded c). lia. }
  specialize (Hall a (Hin a)). rewrite forallb_forall in Hall.
  specialize (Hall b (Hin b)). by apply bool_decide_eq_true in Hall.
Qed.

(** Two strings have the same fold exactly when they are equal up to the
    case of letters. *)
Lemma equalUpToCase_lower (s1 s2 : string) :
  equalUpToCase s1 s2 = true ↔ JS.toLowerCase s1 = JS.toLowerCase s2.
Proof.
  revert s2. induction s1 as [|a s1 IH]; intros [|b s2]; simpl; try done.
  rewrite andb_true_iff, IH, sameLetter_lower, bool_decide_eq_true.
  split; [by intros [-> ->]|]. by intros [= -> ->].
Qed.

Section Gaps.
Import Roadmaps.
Variable engine : Engine.t.

Local Abbreviation lower := (Engine.toLowerCase engine).

Lemma getCoreSkills_catalog track core :
  getCoreSkills track = Ok (Some core) →
  core = coreSkills_frontend ∨ core = coreSkills_backend
  ∨ core = coreSkills_fullstack.
Proof.
  unfold getCoreSkills, getCoreSkillsIn.
  destruct (ROADMAPS !! track) as [roadmap|] eqn:Hr; [|by case_decide].
  intros [= <-]. apply lookup_three in Hr.
  destruct Hr as [->|[->| ->]]; auto.
Qed.

(** The catalogs name their skills in ASCII characters, and none names a
    skill twice, even up to the case of letters. *)
Lemma catalogs_ASCII :
  Forall (λ s, JS.isASCII (name s) = true) coreSkills_frontend ∧
  Forall (λ s, JS.isASCII (name s) = true) coreSkills_backend ∧
  Forall (λ s, JS.isASCII (name s) = true) coreSkills_fullstack.
Proof. split_and!; apply (bool_decide_unpack _); by vm_compute. Qed.

Lemma catalogs_distinct :
  NoDup (JS.toLowerCase <$> (name <$> coreSkills_frontend)) ∧
  NoDup (JS.toLowerCase <$> (name <$> coreSkills_backend)) ∧
  NoDup (JS.toLowerCase <$> (name <$> coreSkills_fullstack)).
Proof. split_and!; apply (bool_decide_unpack _); by vm_compute. Qed.

Lemma getCoreSkills_ASCII track core :
  getCoreSkills track = Ok (Some core) →
  Forall (λ s, JS.isASCII (name s) = true) core.
Proof.
  intros H. destruct catalogs_ASCII as (? & ? & ?).
  by destruct (getCoreSkills_catalog track core H) as [->|[->| ->]].
Qed.

Lemma lower_ASCII (names : list string) :
  Forall (λ n, JS.isASCII n = true) names →
  lower <$> names = JS.toLowerCase <$> names.
Proof.
  intros Hnames. apply list_fmap_ext. intros i n Hn.
  apply Engine.foldsASCII.
  by apply (proj1 (Forall_forall _ _) Hnames), list_elem_of_lookup_2 with i.
Qed.

Lemma lower_core track core :
  getCoreSkills track = Ok (Some core) →
  lower <$> (name <$> core) = JS.toLowerCase <$> (name <$> core).
Proof.
  intros H. apply lower_ASCII, Forall_fmap.
  by apply (getCoreSkills_ASCII track).
Qed.

Lemma getCoreSkills_distinct track core :
  getCoreSkills track = Ok (Some core) →
  NoDup (lower <$> (name <$> core)).
Proof.
  intros H. rewrite (lower_core track core H).
  destruct catalogs_distinct as (? & ? & ?).
  by destruct (getCoreSkills_catalog track core H) as [->|[->| ->]].
Qed.

Lemma NoDup_fmap_eq {A B} (f : A → B) (l : list A) x y :
  NoDup (f <$> l) → x ∈ l → y ∈ l → f x = f y → x = y.
Proof.
  induction l as [|a l IH]; intros Hnd Hx Hy Hf.
  - by apply elem_of_nil in Hx.
  - rewrite fmap_cons in Hnd. apply NoDup_cons in Hnd as [Ha Hnd].
    apply elem_of_cons in Hx as [->|Hx]; apply elem_of_cons in Hy as [->|Hy].
    + done.
    + exfalso. apply Ha. rewrite Hf. by apply list_elem_of_fmap_2.
    + exfalso. apply Ha. rewrite <- Hf. by apply list_elem_of_fmap_2.
    + by apply IH.
Qed.

Lemma findSkill_Some core skillName s :
  findSkill engine core skillName = Some s →
  s ∈ core ∧ lower (name s) = lower skillName.
Proof.
  unfold findSkill. destruct (list_find _ core) as [[i s']|] eqn:Hf; [|done].
  intros [= <-]. apply list_find_Some in Hf as (Hi & Hs & _).
  split; [|done]. by eapply list_elem_of_lookup_2.
Qed.

Lemma findSkill_None core skillName :
  findSkill engine core skillName = None →
  lower skillName ∉ lower <$> (name <$> core).
Proof.
  unfold findSkill. destruct (list_find _ core) as [[i s']|] eqn:Hf; [done|].
  intros _. rewrite list_find_None, Forall_forall in Hf.
  intros Hin. apply list_elem_of_fmap in Hin as (n & Hn & Hin).
  apply list_elem_of_fmap in Hin as (s & -> & Hs). by apply (Hf s Hs).
Qed.

Lemma findSkill_is_Some core skillName :
  lower skillName ∈ lower <$> (name <$> core) →
  is_Some (findSkill engine core skillName).
Proof.
  intros Hin. destruct (findSkill engine core skillName) eqn:Hf;
    [by eexists|].
  by apply findSkill_None in Hf.
Qed.

Lemma mapM_weights R track core (names : list string) :
  getCoreSkillsIn R track = Ok (Some core) →
  mapM (λ skill,
          bind (getSkillWeightIn engine R track skill)
            (λ w, Ok {| ValidationService.skill := skill;
                       ValidationService.weight := w |})) names
  = Ok ((λ n, {| ValidationService.skill := n;
             ValidationService.weight := weightIn engine core n |})
        <$> names).
Proof.
  intros Hc. induction names as [|n names IH]; [done|].
  simpl. unfold getSkillWeightIn at 1. rewrite Hc. simpl.
  by rewrite IH.
Qed.

Lemma findGapsIn_Ok R track core userSkillNames coreSkillNames :
  getCoreSkillsIn R track = Ok (Some core) →
  ValidationService.findGapsIn engine R track userSkillNames coreSkillNames
  = Ok ((λ n, {| ValidationService.skill := n;
             ValidationService.weight := weightIn engine core n |})
        <$> filter (λ c, lower c ∉ lower <$> userSkillNames)
              coreSkillNames).
Proof.
  intros Hc. unfold ValidationService.findGapsIn.
  rewrite (mapM_weights R track core) by done.
  do 2 f_equal. apply list_filter_iff. intros c.
  by rewrite elem_of_list_to_set.
Qed.

(** Among ASCII names, a name has the fold of a user's name exactly when
    it is equal to one of them up to the case of letters. *)
Lemma known_equalUpToCase (c : string) (userSkillNames : list string) :
  JS.isASCII c = true →
  Forall (λ u, JS.isASCII u = true) userSkillNames →
  lower c ∈ lower <$> userSkillNames
  ↔ ∃ u, u ∈ userSkillNames ∧ equalUpToCase c u = true.
Proof.
  intros Hc Hu. rewrite (lower_ASCII userSkillNames Hu).
  rewrite (Engine.foldsASCII engine c Hc), list_elem_of_fmap.
  split; intros (u & H1 & H2); exists u.
  - split; [done|]. by apply equalUpToCase_lower.
  - split; [|done]. by apply equalUpToCase_lower.
Qed.

End Gaps.

(** C6.  On a recognized track, with [core] its catalog, [findGaps]
    returns (never throws) the core skills that are not among the user's
    skill names up to [toLowerCase], in catalog order: a core skill is a
    gap exactly when its lower-case form is not the one of a user's name,
    no gap occurs twice, even up to case, and every gap carries the
    weight its catalog entry has.  On any list of names the weight of a
    name that the catalog does not hold is 0.  When the user's names are
    written in ASCII characters, a core skill is a gap exactly when no
    name of the user is equal to it up to the case of the letters
    A-Z. *)
Theorem findGaps_covers_core (engine : Engine.t) (track : string)
    (core : list Roadmaps.Skill) (userSkillNames : list string) :
  Roadmaps.getCoreSkills track = Ok (Some core) →
  let lower := Engine.toLowerCase engine in
  let known c := lower c ∈ lower <$> userSkillNames in
  let skillOf := ValidationService.skill in
  let weightOf := ValidationService.weight in
  ∃ gaps,
    ValidationService.findGaps engine track userSkillNames
      (Roadmaps.name <$> core) = Ok gaps ∧
    skillOf <$> gaps = filter (λ c, ¬ known c) (Roadmaps.name <$> core) ∧
    (∀ c, c ∈ Roadmaps.name <$> core →
          (c ∈ skillOf <$> gaps ↔ ¬ known c)) ∧
    (∀ c, c ∈ skillOf <$> gaps → c ∈ Roadmaps.name <$> core) ∧
    NoDup (lower <$> (skillOf <$> gaps)) ∧
    (∀ g, g ∈ gaps →
          ∃ s, s ∈ core ∧ Roadmaps.name s = skillOf g
               ∧ Roadmaps.weight s = weightOf g) ∧
    (∀ names, ∃ gaps',
       ValidationService.findGaps engine track userSkillNames names
       = Ok gaps' ∧
       ∀ g, g ∈ gaps' →
            lower (skillOf g) ∉ lower <$> (Roadmaps.name <$> core) →
            weightOf g = 0) ∧
    (Forall (λ u, JS.isASCII u = true) userSkillNames →
     ∀ c, c ∈ Roadmaps.name <$> core →
          (c ∈ skillOf <$> gaps
           ↔ ¬ ∃ u, u ∈ userSkillNames ∧ equalUpToCase c u = true)).
Proof.
  intros Hc lower known skillOf weightOf. subst skillOf weightOf lower.
  pose proof (getCoreSkills_distinct engine track core Hc) as Hnd.
  unfold ValidationService.findGaps.
  eexists. split; [by apply findGapsIn_Ok|].
  assert (∀ l : list string,
            ValidationService.skill
            <$> ((λ n, {| ValidationService.skill := n;
                          ValidationService.weight := weightIn engine core n |})
                 <$> l)
            = l) as Hskill.
  { intros l. rewrite <- list_fmap_compose.
    by rewrite <- (list_fmap_id l) at 2. }
  rewrite Hskill. split_and!.
  - done.
  - intros c Hin. rewrite list_elem_of_filter. tauto.
  - intros c Hin. apply list_elem_of_filter in Hin. tauto.
  - eapply sublist_NoDup; [exact Hnd|]. apply fmap_sublist, sublist_filter.
  - intros g Hg. apply list_elem_of_fmap in Hg as (n & -> & Hn). simpl.
    apply list_elem_of_filter in Hn as [_ Hn].
    apply list_elem_of_fmap in Hn as (s & -> & Hs).
    unfold weightIn.
    destruct (Roadmaps.findSkill engine core (Roadmaps.name s))
      as [s'|] eqn:Hf.
    + apply findSkill_Some in Hf as [Hs' Heq].
      assert (s' = s) as ->; [|by exists s].
      rewrite <- list_fmap_compose in Hnd.
      by apply (NoDup_fmap_eq (Engine.toLowerCase engine ∘ Roadmaps.name)
                   core).
    + apply findSkill_None in Hf. exfalso. apply Hf.
      by apply list_elem_of_fmap_2, list_elem_of_fmap_2.
  - intros names. eexists. split; [by apply findGapsIn_Ok|].
    intros g Hg Habs. apply list_elem_of_fmap in Hg as (n & -> & _).
    simpl in *. unfold weightIn.
    destruct (Roadmaps.findSkill engine core n) as [s|] eqn:Hf; [|done].
    apply findSkill_Some in Hf as [Hs Heq]. exfalso. apply Habs.
    rewrite <- Heq. by apply list_elem_of_fmap_2, list_elem_of_fmap_2.
  - intros Hu c Hin. rewrite list_elem_of_filter.
    rewrite <- (known_equalUpToCase engine c userSkillNames); [tauto| |done].
    apply list_elem_of_fmap in Hin as (s & -> & Hs).
    by apply (proj1 (Forall_forall _ _)
                (getCoreSkills_ASCII track core Hc)).
Qed.

Lemma findGaps_covers_core_witness :
  Roadmaps.getCoreSkills "frontend" = Ok (Some Roadmaps.coreSkills_frontend) ∧
  ∃ gaps,
    ValidationService.findGaps Engine.example "frontend"
      ["html"; "CSS"; "JAVASCRIPT"]
      (Roadmaps.name <$> Roadmaps.coreSkills_frontend) = Ok gaps ∧
    length gaps = 38%nat ∧
    "HTML" ∉ ValidationService.skill <$> gaps ∧
    "JavaScript" ∉ ValidationService.skill <$> gaps ∧
    "React" ∈ ValidationService.skill <$> gaps.
Proof.
  assert (Roadmaps.getCoreSkills "frontend"
          = Ok (Some Roadmaps.coreSkills_frontend))
    as Hc by (vm_compute; reflexivity).
  split; [exact Hc|].
  destruct (findGaps_covers_core Engine.example "frontend"
              Roadmaps.coreSkills_frontend ["html"; "CSS"; "JAVASCRIPT"] Hc)
    as (gaps & Hg & Hs & _).
  exists gaps. split; [exact Hg|].
  assert (ValidationService.skill <$> gaps
          = filter (λ c, c ∉ ["HTML"; "CSS"; "JavaScript"])
              (Roadmaps.name <$> Roadmaps.coreSkills_frontend)) as Hs'.
  { rewrite Hs. vm_compute. reflexivity. }
  split; [|rewrite Hs'; split_and!].
  - rewrite <- (length_fmap ValidationService.skill), Hs'.
    vm_compute. reflexivity.
  - apply (bool_decide_unpack _). vm_compute. exact I.
  - apply (bool_decide_unpack _). vm_compute. exact I.
  - apply (bool_decide_unpack _). vm_compute. exact I.
Defined.

(** The end-to-end example of the specification: with HTML and CSS known,
    JavaScript is a gap of weight 10 on the frontend track. *)
Example findGaps_frontend_JavaScript :
  ∃ gaps,
    ValidationService.findGaps Engine.example "frontend" ["HTML"; "CSS"]
      (Roadmaps.name <$> Roadmaps.coreSkills_frontend) = Ok gaps ∧
    {| ValidationService.skill := "JavaScript";
       ValidationService.weight := 10 |} ∈ gaps ∧
    length gaps = 39%nat.
Proof.
  eexists. split; [by vm_compute|]. split; [|reflexivity].
  apply list_elem_of_here.
Qed.

(** A track that is not recognized has no catalog: [getSkillWeight]
    throws, and so does [findGaps] as soon as there is a gap. *)
Example findGaps_unknown_track :
  ValidationService.findGaps Engine.example "mobile" [] ["HTML"]
  = Throw "Invalid track: mobile".
Proof. by vm_compute. Qed.

(** ** Demand categories *)

Section Demand.
Import ValidationService.

(** The two thresholds as binary64 numbers. *)
Lemma Prim2SF_HIGH :
  Prim2SF CONSTANTS.DEMAND_THRESHOLDS.HIGH
  = S754_finite false 8796093022208000 (-43).
Proof. reflexivity. Qed.

Lemma Prim2SF_MEDIUM :
  Prim2SF CONSTANTS.DEMAND_THRESHOLDS.MEDIUM
  = S754_finite false 5277655813324800 (-44).
Proof. reflexivity. Qed.

Local Ltac float_cases x :=
  rewrite ?leb_spec, ?ltb_spec, ?Prim2SF_HIGH, ?Prim2SF_MEDIUM;
  unfold SFleb, SFltb, SFcompare;
  destruct (Prim2SF x) as [[]|[]| |[] m e]; try done;
  destruct (Z.compare_spec (-43) e); destruct (Z.compare_spec (-44) e);
  destruct (Z.compare_spec e (-43)); try lia; try done.

(** Two mantissas under one exponent compare as the numbers they are. *)
Lemma mantissa_not_le_lt (m K : positive) :
  match PosDef.Pos.compare_cont Eq K m with Gt => false | _ => true end
  = false →
  match PosDef.Pos.compare_cont Eq m K with Lt => true | _ => false end
  = true.
Proof.
  change (PosDef.Pos.compare_cont Eq m K) with (Pos.compare m K).
  change (PosDef.Pos.compare_cont Eq K m) with (Pos.compare K m).
  rewrite (Pos.compare_antisym m K). by destruct (Pos.compare m K).
Qed.

Lemma mantissa_lt_not_le (m K : positive) :
  match PosDef.Pos.compare_cont Eq m K with Lt => true | _ => false end
  = true →
  match PosDef.Pos.compare_cont Eq K m with Gt => false | _ => true end
  = false.
Proof.
  change (PosDef.Pos.compare_cont Eq m K) with (Pos.compare m K).
  change (PosDef.Pos.compare_cont Eq K m) with (Pos.compare K m).
  rewrite (Pos.compare_antisym m K). by destruct (Pos.compare m K).
Qed.

(** A score that reaches the upper threshold reaches the lower one. *)
Lemma HIGH_MEDIUM x :
  (CONSTANTS.DEMAND_THRESHOLDS.HIGH <=? x)%float = true →
  (CONSTANTS.DEMAND_THRESHOLDS.MEDIUM <=? x)%float = true.
Proof. float_cases x. Qed.

(** A score that reaches the lower threshold (so it is a number) and not
    the upper one is below the upper one. *)
Lemma below_HIGH x :
  (CONSTANTS.DEMAND_THRESHOLDS.MEDIUM <=? x)%float = true →
  (CONSTANTS.DEMAND_THRESHOLDS.HIGH <=? x)%float = false →
  (x <? CONSTANTS.DEMAND_THRESHOLDS.HIGH)%float = true.
Proof. float_cases x. intros _. apply mantissa_not_le_lt. Qed.

Lemma not_HIGH x :
  (x <? CONSTANTS.DEMAND_THRESHOLDS.HIGH)%float = true →
  (CONSTANTS.DEMAND_THRESHOLDS.HIGH <=? x)%float = false.
Proof. float_cases x. apply mantissa_lt_not_le. Qed.

(** C7.  The category of a score is [high] exactly when the score is at
    least 1000, [medium] exactly when it is at least 300 and below 1000,
    and [low] in every other case (the score does not reach 300, which
    includes a score that is not a number); every score gets exactly one of
    the three categories, which depends on nothing but the score. *)
Theorem categorizeDemand_partition (combinedScore : float) :
  let HIGH := CONSTANTS.DEMAND_THRESHOLDS.HIGH in
  let MEDIUM := CONSTANTS.DEMAND_THRESHOLDS.MEDIUM in
  (categorizeDemand combinedScore = "high"
   ↔ (HIGH <=? combinedScore)%float = true) ∧
  (categorizeDemand combinedScore = "medium"
   ↔ (MEDIUM <=? combinedScore)%float = true
     ∧ (combinedScore <? HIGH)%float = true) ∧
  (categorizeDemand combinedScore = "low"
   ↔ (MEDIUM <=? combinedScore)%float = false) ∧
  (categorizeDemand combinedScore = "high"
   ∨ categorizeDemand combinedScore = "medium"
   ∨ categorizeDemand combinedScore = "low") ∧
  HIGH = 1000%float ∧ MEDIUM = 300%float.
Proof.
  intros HIGH MEDIUM. unfold categorizeDemand. fold HIGH MEDIUM.
  pose proof (HIGH_MEDIUM combinedScore) as H1.
  pose proof (below_HIGH combinedScore) as H2.
  pose proof (not_HIGH combinedScore) as H3.
  fold HIGH MEDIUM in H1, H2, H3.
  destruct (HIGH <=? combinedScore)%float eqn:Hh;
    destruct (MEDIUM <=? combinedScore)%float eqn:Hm;
    unfold CONSTANTS.DEMAND_CATEGORIES.HIGH, CONSTANTS.DEMAND_CATEGORIES.MEDIUM,
      CONSTANTS.DEMAND_CATEGORIES.LOW.
  - split_and!; try done; try (by left).
    split; [done|]. intros [_ Hlt]. specialize (H3 Hlt). done.
  - specialize (H1 eq_refl). done.
  - split_and!; try done; try (by right; left). split; [|done].
    intros _. split; [done|]. by apply H2.
  - split_and!; try done; try (by right; right).
    split; [done|]. by intros [? _].
Qed.

Example categorizeDemand_examples :
  categorizeDemand 1000 = "high" ∧ categorizeDemand 999.5 = "medium" ∧
  categorizeDemand 300 = "medium" ∧ categorizeDemand 299.5 = "low" ∧
  categorizeDemand 0 = "low" ∧ categorizeDemand nan = "low" ∧
  categorizeDemand infinity = "high".
Proof. by vm_compute. Qed.

(** The scores the analyzer builds are [github + stackoverflow × 0.5] for
    two counts, that is [k / 2] for an integer [k]: for every such score up
    to 2000 the category is the one exact arithmetic gives. *)
Example categorizeDemand_half_integers :
  forallb
    (λ k : nat,
       let score := (number_of_length k * 0.5)%float in
       bool_decide
         (categorizeDemand score
          = if decide (2000 ≤ k)%nat then "high"
            else if decide (600 ≤ k)%nat then "medium" else "low"))
    (seq 0 4001)
  = true.
Proof. by vm_compute. Qed.

End Demand.

(** ** Coverage *)

Section Coverage.
Import Roadmaps ValidationService.

(** For the sizes of the three catalogs, the binary64 computation followed
    by [toFixed(1)] gives the exactly rounded percentage. *)
Lemma coveragePercentOf_exact (g c : nat) :
  c ∈ [41; 46]%nat → (g ≤ c)%nat →
  coveragePercentOf g c = coveragePercent_exact g c.
Proof.
  intros Hc Hg.
  assert (forallb
            (λ c, forallb
                    (λ g, bool_decide
                            (coveragePercentOf g c = coveragePercent_exact g c))
                    (seq 0 (S c)))
            [41; 46]%nat = true) as Hall by (vm_compute; reflexivity).
  rewrite forallb_forall in Hall.
  apply list_elem_of_In, Hall in Hc. rewrite forallb_forall in Hc.
  eapply bool_decide_eq_true_1, Hc, in_seq. lia.
Qed.

(** The sizes matter: a catalog of 80 skills with 79 gaps has an exact
    coverage of 1.25, which the binary64 computation leaves just below. *)
Example coveragePercentOf_80 :
  coveragePercentOf 79 80 = "1.2" ∧ coveragePercent_exact 79 80 = "1.3".
Proof. by vm_compute. Qed.

(** Without core skills the division would be [0 / 0]: the percentage
    would be the string [NaN]. *)
Example coveragePercentOf_0 : coveragePercentOf 0 0 = "NaN".
Proof. by vm_compute. Qed.

Lemma catalog_sizes track core :
  getCoreSkills track = Ok (Some core) → length core ∈ [41; 46]%nat.
Proof.
  intros H. destruct (getCoreSkills_catalog track core H) as [->|[->| ->]];
    apply (bool_decide_unpack _); by vm_compute.
Qed.

End Coverage.

(** ** Suggestions *)

Section Suggestions.
Import Prerequisites.
Variable engine : Engine.t.
Variable P : gmap string (gmap string (list string)).
Variable track : string.
Variable currentSkills : list string.

Local Abbreviation lower := (Engine.toLowerCase engine).
Local Abbreviation learnedSet :=
  (list_to_set (lower <$> currentSkills) : gset string).
Local Abbreviation unreadable := (readError engine P track).
Local Abbreviation suggestion :=
  (suggestionFor engine P track currentSkills).
Local Abbreviation missing :=
  (missingPrereqsOf engine P track currentSkills).

Lemma missing_filter gapSkill :
  filter (λ prereq, lower prereq ∉ learnedSet)
    (prerequisitesOf engine P track gapSkill)
  = missing gapSkill.
Proof.
  apply list_filter_iff. intros p. by rewrite elem_of_list_to_set.
Qed.

Lemma allMet_missing gapSkill :
  forallb (λ prereq, bool_decide (lower prereq ∈ learnedSet))
    (prerequisitesOf engine P track gapSkill) = true
  ↔ missing gapSkill = [].
Proof.
  unfold missingPrereqsOf. generalize (prerequisitesOf engine P track gapSkill).
  intros l. induction l as [|p l IH]; [done|]. simpl.
  rewrite filter_cons, andb_true_iff, IH, bool_decide_eq_true.
  rewrite elem_of_list_to_set.
  destruct (decide (lower p ∉ lower <$> currentSkills)) as [Hn|Hy].
  - split; [tauto|done].
  - split; [tauto|]. intros ->. split; [|done].
    by destruct (decide (lower p ∈ lower <$> currentSkills)).
Qed.

(** One turn of the loop pushes the suggestion of the gap skill, if it
    has one. *)
Lemma suggestStep_spec suggestions gapSkill :
  unreadable gapSkill = None →
  suggestStep engine P track learnedSet suggestions gapSkill
  = Ok (suggestions ++ option_list (suggestion gapSkill)).
Proof.
  intros Hread. unfold suggestStep, suggestionFor.
  rewrite (getPrerequisitesIn_readable engine P track gapSkill Hread).
  cbn [bind every elements]. rewrite missing_filter.
  destruct (forallb _ _) eqn:Hall.
  - apply allMet_missing in Hall. by rewrite Hall.
  - destruct (missing gapSkill) as [|m [|m' l]] eqn:Hm; simpl.
    + apply allMet_missing in Hm. congruence.
    + done.
    + by rewrite app_nil_r.
Qed.

Lemma suggestStep_throws suggestions gapSkill message :
  unreadable gapSkill = Some message →
  suggestStep engine P track learnedSet suggestions gapSkill
  = Throw message.
Proof.
  unfold readError, suggestStep.
  destruct (getPrerequisitesIn engine P track gapSkill) as [[l|]|m];
    simpl; [done|by intros [= <-]..].
Qed.

Lemma foldlM_suggestStep gapSkills :
  ∀ suggestions,
    (∀ g, g ∈ gapSkills → unreadable g = None) →
    foldlM (suggestStep engine P track learnedSet) suggestions gapSkills
    = Ok (suggestions ++ omap suggestion gapSkills).
Proof.
  induction gapSkills as [|g gapSkills IH]; intros suggestions Hread; simpl.
  - by rewrite app_nil_r.
  - rewrite suggestStep_spec by (apply Hread; left). simpl.
    rewrite IH by (intros x Hx; apply Hread; by right).
    rewrite <- app_assoc. do 2 f_equal.
    by destruct (suggestion g).
Qed.

Lemma suggestionFor_Some g s :
  suggestion g = Some s →
  skill s = g ∧
  ((missing g = []
    ∧ reason s = "Prerequisites met" ∧ missingPrereqs s = None)
   ∨ (∃ m, missing g = [m]
           ∧ reason s = "Learn " +:+ m +:+ " first"
           ∧ missingPrereqs s = Some [m])).
Proof.
  unfold suggestionFor.
  destruct (missing g) as [|m [|m' l]];
    intros [= <-]; simpl; split; try done.
  - by left.
  - right. by exists m.
Qed.

Lemma suggestionFor_is_Some g :
  (length (missing g) ≤ 1)%nat →
  ∃ s, suggestion g = Some s ∧ skill s = g.
Proof.
  unfold suggestionFor.
  destruct (missing g) as [|m [|m' l]];
    simpl; intros Hlen; [by eexists..|lia].
Qed.

Lemma getSuggestedNextIn_readable gapSkills count :
  (∀ g, g ∈ gapSkills → unreadable g = None) →
  getSuggestedNextIn engine P track currentSkills gapSkills count
  = Ok (JS.slice0 (omap suggestion gapSkills) count).
Proof.
  intros Hread. unfold getSuggestedNextIn.
  by rewrite foldlM_suggestStep.
Qed.

Lemma getSuggestedNextIn_throws before g after message count :
  (∀ x, x ∈ before → unreadable x = None) →
  unreadable g = Some message →
  getSuggestedNextIn engine P track currentSkills (before ++ g :: after)
    count
  = Throw message.
Proof.
  intros Hbefore Hg. unfold getSuggestedNextIn.
  rewrite foldlM_app, foldlM_suggestStep by done. simpl.
  by rewrite (suggestStep_throws _ g message Hg).
Qed.

Lemma slice0_sublist {A} (l : list A) count : sublist (JS.slice0 l count) l.
Proof. unfold JS.slice0. destruct (count <? 0); apply sublist_take. Qed.

End Suggestions.

(** With a negative count the call returns more suggestions than the
    count, and a gap skill under a name that the table only inherits
    ends the call. *)
Lemma getSuggestedNext_exceeds_a_negative_count :
  (∃ out,
     Prerequisites.getSuggestedNext Engine.example "frontend" []
       ["HTML"; "Git"; "CSS"] (-1) = Ok out ∧
     Prerequisites.skill <$> out = ["HTML"; "Git"] ∧
     -1 < Z.of_nat (length out)) ∧
  Prerequisites.getSuggestedNext Engine.example "frontend" []
    ["HTML"; "valueOf"] 3
  = Throw "prereqs.every is not a function".
Proof.
  split; [|vm_compute; reflexivity].
  eexists. split; [vm_compute; reflexivity|]. by vm_compute.
Qed.

(** C9, as the code has it.  When every gap skill reads an array of
    prerequisites, [getSuggestedNext] returns the suggestions that the
    gap skills, walked in order, give rise to, cut by
    [slice(0, count)]: the first [count] of them, so at most [count],
    for a count that is not negative, and all but the last [-count] of
    them for a negative count.  Every suggestion returned is for a gap
    skill with no missing prerequisite (reason [Prerequisites met]) or
    with exactly one (reason [Learn X first], where [X] is the one
    missing); a gap skill with two or more missing prerequisites is never
    returned; and a gap skill with at most one missing prerequisite is
    returned whenever fewer than [count] suggestions come before it.
    When a gap skill reads no array, the call throws, with the error of
    the first such skill. *)
Theorem getSuggestedNext_spec (engine : Engine.t)
    (P : gmap string (gmap string (list string)))
    (track : string) (currentSkills gapSkills : list string) (count : Z) :
  let unreadable := readError engine P track in
  let suggestion := suggestionFor engine P track currentSkills in
  let missing := missingPrereqsOf engine P track currentSkills in
  let walk := omap suggestion gapSkills in
  ((∀ g, g ∈ gapSkills → unreadable g = None) →
   ∃ out,
     Prerequisites.getSuggestedNextIn engine P track currentSkills gapSkills
       count = Ok out ∧
     (0 ≤ count →
      Z.of_nat (length out) ≤ count ∧ out = take (Z.to_nat count) walk) ∧
     (count < 0 →
      out = take (length walk - Z.to_nat (- count)) walk) ∧
     (∀ s, s ∈ out →
           Prerequisites.skill s ∈ gapSkills ∧
           ((missing (Prerequisites.skill s) = []
             ∧ Prerequisites.reason s = "Prerequisites met")
            ∨ (∃ m, missing (Prerequisites.skill s) = [m]
                    ∧ Prerequisites.reason s = "Learn " +:+ m +:+ " first"
                    ∧ Prerequisites.missingPrereqs s = Some [m]))) ∧
     (∀ g, (2 ≤ length (missing g))%nat →
           g ∉ Prerequisites.skill <$> out) ∧
     (∀ before g after,
        gapSkills = before ++ g :: after →
        (length (missing g) ≤ 1)%nat →
        Z.of_nat (length (omap suggestion before)) < count →
        g ∈ Prerequisites.skill <$> out)) ∧
  (∀ before g after message,
     gapSkills = before ++ g :: after →
     (∀ x, x ∈ before → unreadable x = None) →
     unreadable g = Some message →
     Prerequisites.getSuggestedNextIn engine P track currentSkills gapSkills
       count = Throw message).
Proof.
  intros unreadable suggestion missing walk. split.
  2:{ intros before g after message ->. apply getSuggestedNextIn_throws. }
  intros Hread. exists (JS.slice0 walk count).
  split; [by apply getSuggestedNextIn_readable|].
  assert (∀ s, s ∈ JS.slice0 walk count →
               ∃ g, g ∈ gapSkills ∧ suggestion g = Some s) as Hin.
  { intros s Hs.
    pose proof (elem_of_sublist _ _ _ Hs (slice0_sublist walk count)) as Hw.
    by apply list_elem_of_omap in Hw. }
  split_and!.
  - intros Hcount. unfold JS.slice0.
    rewrite (proj2 (Z.ltb_ge _ _) Hcount). split; [|done].
    rewrite length_take. lia.
  - intros Hcount. unfold JS.slice0.
    rewrite (proj2 (Z.ltb_lt _ _) Hcount). f_equal. lia.
  - intros s Hs. destruct (Hin s Hs) as (g & Hg & Hsome).
    apply suggestionFor_Some in Hsome as [<- Hcases]. split; [done|].
    destruct Hcases as [(? & ? & ?)|(m & ? & ? & ?)]; [by left|].
    right. by exists m.
  - intros g Hlen Hg. apply list_elem_of_fmap in Hg as (s & -> & Hs).
    destruct (Hin s Hs) as (g & Hg & Hsome).
    apply suggestionFor_Some in Hsome as [<- Hcases]. subst missing.
    destruct Hcases as [(Hm & _)|(m & Hm & _)]; rewrite Hm in Hlen;
      simpl in Hlen; lia.
  - intros before g after -> Hlen Hbefore.
    destruct (suggestionFor_is_Some engine P track currentSkills g Hlen)
      as (s & Hs & <-).
    apply list_elem_of_fmap_2. unfold JS.slice0.
    rewrite (proj2 (Z.ltb_ge count 0)) by lia.
    subst walk suggestion. rewrite omap_app. simpl. rewrite Hs.
    apply list_elem_of_lookup.
    exists (length (omap (suggestionFor engine P track currentSkills)
                      before)).
    rewrite lookup_take_lt by lia. by rewrite list_lookup_middle.
Qed.

Example getSuggestedNext_frontend :
  ∃ out,
    Prerequisites.getSuggestedNext Engine.example "frontend" ["html"]
      ["React"; "CSS"; "CSS-in-JS"; "GitHub"; "JavaScript"; "Git"] 3
    = Ok out ∧
    Prerequisites.skill <$> out = ["CSS"; "GitHub"; "JavaScript"] ∧
    Prerequisites.reason <$> out
    = ["Prerequisites met"; "Learn Git first"; "Prerequisites met"].
Proof. eexists. split; [vm_compute; reflexivity|]. by vm_compute. Qed.

(** ** The other methods of the cache *)

Section CacheRest.
Import CacheService.
Context {V : Type} `{EqDecision V}.
Variable null : V.

Local Abbreviation store := (list (string * Entry V)).

Lemma NoDup_Map_delete k (m : store) : NoDup m.*1 → NoDup (Map_delete k m).*1.
Proof. intros Hnd. rewrite keys_Map_delete. by apply NoDup_filter. Qed.

Lemma NoDup_Map_set k e (m : store) : NoDup m.*1 → NoDup (Map_set k e m).*1.
Proof.
  intros Hnd. destruct (decide (k ∈ m.*1)) as [Hk|Hk].
  - by rewrite keys_Map_set_present.
  - rewrite Map_set_absent, fmap_app by done. simpl.
    apply NoDup_app. split_and!; [done| |apply NoDup_singleton].
    intros x Hx ->%list_elem_of_singleton. done.
Qed.

Lemma NoDup_evict key (c : t V) :
  NoDup (cache c).*1 → NoDup (evict key c).*1.
Proof.
  intros Hnd. rewrite evict_spec. case_decide; [|done].
  destruct (cache c) as [|[k0 e0] m] eqn:Hc; [done|].
  rewrite <- Hc in *. by apply NoDup_Map_delete.
Qed.

Lemma NoDup_filter_entries (Q : string * Entry V → Prop)
    `{∀ kv, Decision (Q kv)} (m : store) :
  NoDup m.*1 → NoDup (filter Q m).*1.
Proof.
  intros Hnd. eapply sublist_NoDup; [exact Hnd|].
  apply fmap_sublist, sublist_filter.
Qed.

Lemma get_state now key (c : t V) :
  (get null now key c).2 =
    match Map_get key (cache c) with
    | None => c
    | Some e =>
      if expiry e <? now then with_cache c (Map_delete key (cache c))
      else with_cache c (Map_delete key (cache c) ++ [(key, e)])
    end.
Proof.
  unfold get. destruct (Map_get key (cache c)) as [e|]; [|done].
  destruct (expiry e <? now); [done|]. simpl.
  by rewrite Map_set_absent
    by (rewrite keys_Map_delete, list_elem_of_filter; tauto).
Qed.

Lemma get_answer now key (c : t V) :
  (get null now key c).1 =
    match Map_get key (cache c) with
    | None => null
    | Some e => if expiry e <? now then null else value e
    end.
Proof.
  unfold get. destruct (Map_get key (cache c)) as [e|]; [|done].
  by destruct (expiry e <? now).
Qed.

Lemma get_NoDup now key (c : t V) :
  NoDup (cache c).*1 → NoDup (cache (get null now key c).2).*1.
Proof.
  intros Hnd. rewrite get_state.
  destruct (Map_get key (cache c)) as [e|]; [|done].
  destruct (expiry e <? now); simpl; [by apply NoDup_Map_delete|].
  rewrite fmap_app. simpl. apply NoDup_app. split_and!.
  - by apply NoDup_Map_delete.
  - intros x Hx ->%list_elem_of_singleton. revert Hx.
    rewrite keys_Map_delete, list_elem_of_filter. tauto.
  - apply NoDup_singleton.
Qed.

Lemma exec_maxSize (c : t V) o : maxSize (Cache.exec null c o) = maxSize c.
Proof.
  destruct o as [now key v ttl|now key|now key|key| |now]; simpl; try done.
  all: rewrite get_state; destruct (Map_get key (cache c)) as [e|]; [|done];
    by destruct (expiry e <? now).
Qed.

Lemma exec_defaultTTL (c : t V) o :
  defaultTTL (Cache.exec null c o) = defaultTTL c.
Proof.
  destruct o as [now key v ttl|now key|now key|key| |now]; simpl; try done.
  all: rewrite get_state; destruct (Map_get key (cache c)) as [e|]; [|done];
    by destruct (expiry e <? now).
Qed.

Lemma exec_NoDup (c : t V) o :
  NoDup (cache c).*1 → NoDup (cache (Cache.exec null c o)).*1.
Proof.
  intros Hnd.
  destruct o as [now key v ttl|now key|now key|key| |now]; simpl.
  - by apply NoDup_Map_set, NoDup_evict.
  - by apply get_NoDup.
  - by apply get_NoDup.
  - by apply NoDup_Map_delete.
  - apply NoDup_nil_2.
  - by apply NoDup_filter_entries.
Qed.

Lemma exec_size (c : t V) o :
  0 < maxSize c →
  Z.of_nat (length (cache c)) ≤ maxSize c →
  Z.of_nat (length (cache (Cache.exec null c o))) ≤ maxSize c.
Proof.
  intros Hpos Hsize.
  destruct o as [now key v ttl|now key|now key|key| |now]; simpl.
  - by apply set_size.
  - pose proof (get_size null now key c). lia.
  - pose proof (get_size null now key c). lia.
  - pose proof (Map_delete_length key (cache c)). lia.
  - lia.
  - pose proof (length_filter (λ kv : string * Entry V, ¬ expiry kv.2 < now)
                  (cache c)). lia.
Qed.

Lemma foldl_exec_keeps calls :
  ∀ c : t V,
    0 < maxSize c → Z.of_nat (length (cache c)) ≤ maxSize c →
    NoDup (cache c).*1 →
    let c' := foldl (Cache.exec null) c calls in
    Z.of_nat (length (cache c')) ≤ maxSize c ∧ NoDup (cache c').*1 ∧
    maxSize c' = maxSize c ∧ defaultTTL c' = defaultTTL c.
Proof.
  induction calls as [|o calls IH]; intros c Hpos Hsize Hnd; simpl; [done|].
  destruct (IH (Cache.exec null c o)) as (H1 & H2 & H3 & H4).
  - by rewrite exec_maxSize.
  - rewrite exec_maxSize. by apply exec_size.
  - by apply exec_NoDup.
  - rewrite exec_maxSize in *. rewrite exec_defaultTTL in *. done.
Qed.

(** *** The counts of [getStats] *)

Local Abbreviation live now :=
  (λ kv : string * Entry V, ¬ expiry kv.2 < now).
Local Abbreviation dead now :=
  (λ kv : string * Entry V, expiry kv.2 < now).

Lemma foldl_countEntry now (m : store) :
  ∀ acc,
    foldl (Cache.countEntry now) acc m
    = ((acc.1 + length (filter (live now) m))%nat,
       (acc.2 + length (filter (dead now) m))%nat).
Proof.
  induction m as [|kv m IH]; intros [a b]; simpl.
  { f_equal; lia. }
  rewrite IH. unfold Cache.countEntry. simpl.
  destruct (Z.ltb_spec (expiry kv.2) now) as [Hlt|Hge].
  - rewrite (filter_cons_False (live now)) by tauto.
    rewrite (filter_cons_True (dead now)) by done.
    simpl. f_equal; lia.
  - rewrite (filter_cons_True (live now)) by lia.
    rewrite (filter_cons_False (dead now)) by lia.
    simpl. f_equal; lia.
Qed.

Lemma filter_lengths now (m : store) :
  (length (filter (live now) m)
   + length (filter (dead now) m))%nat = length m.
Proof.
  induction m as [|kv m IH]; [done|].
  destruct (decide (expiry kv.2 < now)) as [Hlt|Hge].
  - rewrite (filter_cons_False (live now)) by tauto.
    rewrite (filter_cons_True (dead now)) by done.
    simpl. lia.
  - rewrite (filter_cons_True (live now)) by lia.
    rewrite (filter_cons_False (dead now)) by lia.
    simpl. lia.
Qed.

Lemma getStats_valid now (c : t V) :
  Cache.validEntries (Cache.getStats now c)
  = length (filter (live now) (cache c)).
Proof. unfold Cache.getStats. simpl. by rewrite foldl_countEntry. Qed.

Lemma getStats_expired now (c : t V) :
  Cache.expiredEntries (Cache.getStats now c)
  = length (filter (dead now) (cache c)).
Proof. unfold Cache.getStats. simpl. by rewrite foldl_countEntry. Qed.

(** [getStats] counts every entry once, as valid or as expired: the two
    counts add up to [totalEntries], which is the size of the store; an
    entry counts as valid exactly when [get] at that time would not find
    it expired; and with no entry in the store both counts are 0. *)
Theorem getStats_counts (c : t V) (now : Z) :
  let stats := Cache.getStats now c in
  (Cache.validEntries stats + Cache.expiredEntries stats)%nat
  = Cache.totalEntries stats ∧
  Cache.totalEntries stats = length (cache c) ∧
  Cache.validEntries stats
  = length (filter (λ kv, now ≤ expiry kv.2) (cache c)) ∧
  Cache.expiredEntries stats
  = length (filter (dead now) (cache c)) ∧
  (cache c = [] →
   Cache.validEntries stats = O ∧ Cache.expiredEntries stats = O).
Proof.
  intros stats. subst stats.
  rewrite getStats_valid, getStats_expired. split_and!.
  - apply filter_lengths.
  - done.
  - f_equal. apply list_filter_iff. intros kv. lia.
  - done.
  - by intros ->.
Qed.

(** *** [cleanExpired] *)

Lemma Map_get_filter (Q : string * Entry V → Prop)
    `{∀ kv, Decision (Q kv)} k (m : store) :
  NoDup m.*1 →
  Map_get k (filter Q m)
  = match Map_get k m with
    | Some e => if decide (Q (k, e)) then Some e else None
    | None => None
    end.
Proof.
  induction m as [|[k' e'] m IH]; intros Hnd; [done|].
  apply NoDup_cons in Hnd as [Hk' Hnd]. rewrite Map_get_cons.
  destruct (decide (Q (k', e'))) as [HQ|HQ].
  - rewrite filter_cons_True by done. rewrite Map_get_cons.
    destruct (decide (k' = k)) as [->|Hne]; [by rewrite decide_True|].
    by apply IH.
  - rewrite filter_cons_False by done.
    destruct (decide (k' = k)) as [->|Hne]; [|by apply IH].
    rewrite decide_False by done. apply Map_get_None.
    intros Hin. apply Hk'.
    eapply elem_of_sublist; [exact Hin|].
    apply fmap_sublist, sublist_filter.
Qed.

(** [cleanExpired] removes exactly the entries whose expiry lies before
    the clock and answers their number, which is the number [getStats]
    reports as expired at that time; the entries it keeps stand in the
    order they had.  Afterwards [getStats] reports no expired entry and
    the same valid ones, a second sweep at that time (or earlier) removes
    nothing, and on a store that holds each key once every key reads as
    it did before the sweep. *)
Theorem cleanExpired_removes_the_expired (c : t V) (now : Z) :
  let r := cleanExpired now c in
  cache r.2 = filter (λ kv, now ≤ expiry kv.2) (cache c) ∧
  r.1 = length (filter (dead now) (cache c)) ∧
  r.1 = Cache.expiredEntries (Cache.getStats now c) ∧
  (r.1 + length (cache r.2))%nat = length (cache c) ∧
  Cache.expiredEntries (Cache.getStats now r.2) = O ∧
  Cache.validEntries (Cache.getStats now r.2)
  = Cache.validEntries (Cache.getStats now c) ∧
  (∀ now', now' ≤ now → cleanExpired now' r.2 = (O, r.2)) ∧
  (NoDup (cache c).*1 →
   ∀ key, (get null now key r.2).1 = (get null now key c).1).
Proof.
  intros r. subst r. rewrite !getStats_expired, !getStats_valid.
  unfold cleanExpired. simpl.
  set (kept := filter (live now) (cache c)).
  pose proof (filter_lengths now (cache c)) as Hlen. fold kept in Hlen.
  assert (∀ now', now' ≤ now → filter (live now') kept = kept) as Hfix.
  { intros now' Hle. unfold kept. rewrite list_filter_filter.
    apply list_filter_iff. intros kv. lia. }
  split_and!.
  - apply list_filter_iff. intros kv. lia.
  - lia.
  - lia.
  - lia.
  - pose proof (filter_lengths now kept) as Hk.
    rewrite (Hfix now) in Hk by lia. lia.
  - by rewrite (Hfix now) by lia.
  - intros now' Hle. rewrite (Hfix now' Hle). f_equal. lia.
  - intros Hnd key. rewrite !get_answer. simpl. unfold kept.
    rewrite Map_get_filter by done.
    destruct (Map_get key (cache c)) as [e|]; [|done].
    simpl. destruct (Z.ltb_spec (expiry e) now) as [Hlt|Hge].
    + by rewrite decide_False by tauto.
    + rewrite decide_True by lia.
      by rewrite (proj2 (Z.ltb_ge _ _)) by lia.
Qed.

(** *** [delete] *)

(** [delete] answers whether the key was stored.  Afterwards the key is
    a miss, which leaves the cache as it is; every other key reads as
    before; the keys that remain stand in the order they had; and the
    capacity and the default time to live are untouched. *)
Theorem delete_forgets_the_key (c : t V) (key : string) (now : Z) :
  let r := delete key c in
  (r.1 = true ↔ is_Some (Map_get key (cache c))) ∧
  get null now key r.2 = (null, r.2) ∧
  (∀ key', key' ≠ key →
           Map_get key' (cache r.2) = Map_get key' (cache c)) ∧
  (cache r.2).*1 = filter (λ k, k ≠ key) (cache c).*1 ∧
  maxSize r.2 = maxSize c ∧ defaultTTL r.2 = defaultTTL c.
Proof.
  intros r. subst r. unfold delete. simpl. split_and!.
  - rewrite Map_has_true. split.
    + intros Hin. destruct (Map_get key (cache c)) eqn:Hg; [done|].
      by apply Map_get_None in Hg.
    + intros [e He]. by apply Map_get_Some_elem in He.
  - unfold get. simpl. by rewrite Map_get_delete.
  - intros key' Hne. by apply Map_get_delete_ne.
  - apply keys_Map_delete.
  - done.
  - done.
Qed.

(** *** [has] *)

(** [has] is not a plain query.  It answers [true] exactly when the key
    holds an entry that has not expired and whose value is not [null];
    and it leaves the cache as [get] does: an entry that has not expired
    is moved to the end of the store (also when its value is [null] and
    the answer is [false]), an expired entry is deleted, and only an
    absent key leaves the cache unchanged. *)
Theorem has_moves_or_deletes (c : t V) (now : Z) (key : string) :
  let r := Cache.has null now key c in
  (r.1 = true ↔
   ∃ e, Map_get key (cache c) = Some e ∧ now ≤ expiry e ∧ value e ≠ null) ∧
  (∀ e, Map_get key (cache c) = Some e → now ≤ expiry e →
        r.2 = with_cache c (Map_delete key (cache c) ++ [(key, e)])) ∧
  (∀ e, Map_get key (cache c) = Some e → expiry e < now →
        r.1 = false ∧ r.2 = with_cache c (Map_delete key (cache c))) ∧
  (Map_get key (cache c) = None → r = (false, c)).
Proof.
  intros r. subst r. unfold Cache.has. simpl.
  rewrite get_answer, get_state. split_and!.
  - rewrite bool_decide_eq_true.
    destruct (Map_get key (cache c)) as [e|].
    + destruct (Z.ltb_spec (expiry e) now) as [Hlt|Hge].
      * split; [done|]. intros (e' & [= <-] & Hle & _). lia.
      * split; [by exists e|]. by intros (e' & [= <-] & _ & Hv).
    + split; [done|]. by intros (e' & [=] & _).
  - intros e -> Hle. by rewrite (proj2 (Z.ltb_ge _ _)) by lia.
  - intros e -> Hlt. rewrite (proj2 (Z.ltb_lt _ _)) by lia.
    split; [|done]. apply bool_decide_eq_false. by intros Hn; apply Hn.
  - intros ->. f_equal. apply bool_decide_eq_false. by intros Hn; apply Hn.
Qed.

(** *** How long an entry stays *)

Lemma length_filter_keys k (m : store) :
  NoDup m.*1 →
  (length m ≤ S (length (filter (λ kv : string * Entry V, kv.1 ≠ k) m)))%nat.
Proof.
  induction m as [|[k' e'] m IH]; intros Hnd; simpl; [lia|].
  apply NoDup_cons in Hnd as [Hk' Hnd].
  destruct (decide (k' = k)) as [->|Hne].
  - rewrite filter_cons_False by (simpl; tauto).
    fold (Map_delete k m). rewrite Map_delete_absent by done. lia.
  - rewrite filter_cons_True by done. simpl. specialize (IH Hnd). lia.
Qed.

Lemma stands_get key e n (m : store) :
  NoDup m.*1 → stands key e n m → Map_get key m = Some e.
Proof.
  intros Hnd (before & after & -> & _).
  rewrite fmap_app in Hnd. apply NoDup_app in Hnd as (_ & Hnot & _).
  induction before as [|[k' e'] before IH]; simpl.
  - rewrite Map_get_cons. by rewrite decide_True.
  - rewrite Map_get_cons. rewrite decide_False.
    + apply IH. intros x Hx. apply Hnot. by right.
    + intros ->. apply (Hnot key); [by left|]. by left.
Qed.

Lemma stands_delete key e n k (m : store) :
  k ≠ key → NoDup m.*1 → stands key e (S n) m →
  stands key e n (Map_delete k m).
Proof.
  intros Hne Hnd (before & after & -> & Hlen).
  exists (Map_delete k before), (Map_delete k after). split.
  - unfold Map_delete. rewrite filter_app.
    by rewrite filter_cons_True by (simpl; congruence).
  - rewrite fmap_app in Hnd. apply NoDup_app in Hnd as (Hb & _ & _).
    pose proof (length_filter_keys k before Hb). unfold Map_delete. lia.
Qed.

Lemma stands_weaken key e n n' (m : store) :
  (n' ≤ n)%nat → stands key e n m → stands key e n' m.
Proof.
  intros Hle (before & after & -> & Hlen).
  exists before, after. split; [done|lia].
Qed.

Lemma stands_snoc key e n kv (m : store) :
  stands key e n m → stands key e n (m ++ [kv]).
Proof.
  intros (before & after & -> & Hlen).
  exists before, (after ++ [kv]). split; [|done].
  by rewrite <- app_assoc.
Qed.

Lemma stands_set key e n k e' (m : store) :
  k ≠ key → stands key e n m → stands key e n (Map_set k e' m).
Proof.
  intros Hne Hst. destruct (decide (k ∈ m.*1)) as [Hk|Hk].
  - destruct Hst as (before & after & -> & Hlen).
    unfold Map_set. rewrite (proj2 (Map_has_true _ _) Hk).
    rewrite fmap_app, fmap_cons. simpl.
    rewrite decide_False by congruence.
    eexists _, _. split; [reflexivity|]. by rewrite length_fmap.
  - rewrite Map_set_absent by done. by apply stands_snoc.
Qed.

Lemma stands_evict key e n k (c : t V) :
  k ≠ key → NoDup (cache c).*1 → stands key e (S n) (cache c) →
  stands key e n (evict k c).
Proof.
  intros Hne Hnd Hst. rewrite evict_spec. case_decide.
  - destruct (cache c) as [|[k0 e0] m] eqn:Hc.
    { destruct Hst as (before & after & Heq & _). by destruct before. }
    apply stands_delete; [|done|done].
    intros ->. destruct Hst as (before & after & Heq & Hlen).
    destruct before as [|[k1 e1] before]; [simpl in Hlen; lia|].
    simpl in Heq. injection Heq as -> -> ->.
    simpl in Hnd. apply NoDup_cons in Hnd as [Hk0 _]. apply Hk0.
    rewrite fmap_app. apply elem_of_app. right. left.
  - by apply (stands_weaken key e (S n)); [lia|].
Qed.

Lemma exec_stands key e n (c : t V) o :
  (∃ k, Cache.keyOf o = Some k ∧ k ≠ key) →
  NoDup (cache c).*1 → stands key e (S n) (cache c) →
  stands key e n (cache (Cache.exec null c o)).
Proof.
  intros (k & Hk & Hne) Hnd Hst.
  destruct o as [now k' v ttl|now k'|now k'|k'| |now]; simpl in *;
    try discriminate; injection Hk as ->.
  - by apply stands_set, stands_evict.
  - rewrite get_state. destruct (Map_get k (cache c)) as [e0|].
    + destruct (expiry e0 <? now); simpl.
      * by apply stands_delete.
      * by apply stands_snoc, stands_delete.
    + by apply (stands_weaken key e (S n)); [lia|].
  - rewrite get_state. destruct (Map_get k (cache c)) as [e0|].
    + destruct (expiry e0 <? now); simpl.
      * by apply stands_delete.
      * by apply stands_snoc, stands_delete.
    + by apply (stands_weaken key e (S n)); [lia|].
  - by apply stands_delete.
Qed.

Lemma foldl_exec_stands key e calls :
  ∀ c : t V,
    NoDup (cache c).*1 → stands key e (length calls) (cache c) →
    (∀ o, o ∈ calls → ∃ k, Cache.keyOf o = Some k ∧ k ≠ key) →
    Map_get key (cache (foldl (Cache.exec null) c calls)) = Some e.
Proof.
  induction calls as [|o calls IH]; intros c Hnd Hst Hall; simpl.
  { by apply (stands_get key e O). }
  apply IH.
  - by apply exec_NoDup.
  - apply exec_stands; [|done|done]. apply Hall. by left.
  - intros o' Ho'. apply Hall. by right.
Qed.

(** An entry is not pushed out by fewer calls than there are entries
    before it.  In a store that holds each key once, an entry with [n]
    entries before it is still there, unchanged, after any [n] calls of
    [set], [get], [has] and [delete] on other keys, whatever the
    capacity: each such call removes at most one of the entries before
    it.  So the last entry of a store of [n + 1] entries (the place where
    a new key and a key that [get] found are put) outlives [n] calls on
    other keys. *)
Theorem entry_outlives_the_entries_before_it (c : t V) (key : string)
    (e : Entry V) (before after : store) (calls : list (Cache.call V)) :
  NoDup (cache c).*1 →
  cache c = before ++ (key, e) :: after →
  (length calls ≤ length before)%nat →
  (∀ o, o ∈ calls → ∃ k, Cache.keyOf o = Some k ∧ k ≠ key) →
  Map_get key (cache (foldl (Cache.exec null) c calls)) = Some e.
Proof.
  intros Hnd Hc Hlen Hall. apply foldl_exec_stands; [done| |done].
  by exists before, after.
Qed.

(** *** Every method keeps the capacity *)

Lemma getOrSet_state now key during fetched now' ttlMs (c : t V) :
  ∃ calls,
    (Cache.getOrSet null now key during fetched now' ttlMs c).2
    = foldl (Cache.exec null) c calls.
Proof.
  unfold Cache.getOrSet. case_decide.
  - by exists [Cache.Get now key].
  - destruct fetched as [fresh|message].
    + exists (Cache.Get now key :: during ++ [Cache.Set_ now' key fresh ttlMs]).
      simpl. by rewrite foldl_app.
    + by exists (Cache.Get now key :: during).
Qed.

(** Whatever methods are called, a store within its capacity stays
    within it and keeps each key once, and the capacity and the default
    time to live never change; the same holds across a call of
    [getOrSet], whatever other tasks do to the cache while it waits. *)
Theorem every_method_keeps_the_capacity (c : t V)
    (calls : list (Cache.call V)) :
  0 < maxSize c → Z.of_nat (length (cache c)) ≤ maxSize c →
  NoDup (cache c).*1 →
  let kept c' :=
    Z.of_nat (length (cache c')) ≤ maxSize c ∧ NoDup (cache c').*1 ∧
    maxSize c' = maxSize c ∧ defaultTTL c' = defaultTTL c in
  kept (foldl (Cache.exec null) c calls) ∧
  ∀ now key during fetched now' ttlMs,
    kept (Cache.getOrSet null now key during fetched now' ttlMs
            (foldl (Cache.exec null) c calls)).2.
Proof.
  intros Hpos Hsize Hnd kept. subst kept. simpl. split.
  - by apply foldl_exec_keeps.
  - intros now key during fetched now' ttlMs.
    destruct (getOrSet_state now key during fetched now' ttlMs
                (foldl (Cache.exec null) c calls)) as [calls' ->].
    rewrite <- foldl_app. by apply foldl_exec_keeps.
Qed.

(** *** [getOrSet] *)

Lemma foldl_exec_defaultTTL calls :
  ∀ c : t V, defaultTTL (foldl (Cache.exec null) c calls) = defaultTTL c.
Proof.
  induction calls as [|o calls IH]; intros c; simpl; [done|].
  by rewrite IH, exec_defaultTTL.
Qed.

Lemma getOrSet_miss now key during fresh now' ttlMs (c c' : t V) :
  Cache.getOrSet null now key during (Ok fresh) now' ttlMs c
  = (Ok (fresh, false), c') →
  Map_get key (cache c')
  = Some {| value := fresh;
            expiry := now' + ttl_or_default ttlMs (defaultTTL c);
            createdAt := now' |}.
Proof.
  unfold Cache.getOrSet. case_decide; [intros [=]|].
  intros [= <-]. simpl. rewrite Map_get_set. unfold new_entry.
  rewrite foldl_exec_defaultTTL. do 3 f_equal.
  rewrite get_state. destruct (Map_get key (cache c)) as [e|]; [|done].
  by destruct (expiry e <? now).
Qed.

Lemma getOrSet_answer now key during fetched now' ttlMs (c : t V) :
  (Cache.getOrSet null now key during fetched now' ttlMs c).1
  = if decide ((get null now key c).1 ≠ null)
    then Ok ((get null now key c).1, true)
    else match fetched with
         | Ok fresh => Ok (fresh, false)
         | Throw message => Throw message
         end.
Proof.
  unfold Cache.getOrSet. case_decide; [done|]. by destruct fetched.
Qed.

(** When [getOrSet] misses and its producer yields [fresh], the data is
    stored under the key with the time to live asked for (the default one
    for none or 0).  If [fresh] is not [null], a later [getOrSet] on the
    key made directly on that cache, up to the expiry, answers [fresh]
    from the cache, whatever its own producer would yield.  If [fresh] is
    [null], it is stored but never served: every later [getOrSet] on the
    key misses again and answers what its producer yields. *)
Theorem getOrSet_serves_what_it_stored (c c' : t V) (now : Z)
    (key : string) (during : list (Cache.call V)) (fresh : V) (now' : Z)
    (ttlMs : option Z) :
  Cache.getOrSet null now key during (Ok fresh) now' ttlMs c
  = (Ok (fresh, false), c') →
  (∃ e, Map_get key (cache c') = Some e ∧ value e = fresh ∧
        expiry e = now' + ttl_or_default ttlMs (defaultTTL c)) ∧
  (fresh ≠ null →
   ∀ t during2 fetched2 t' ttlMs2,
     t ≤ now' + ttl_or_default ttlMs (defaultTTL c) →
     (Cache.getOrSet null t key during2 fetched2 t' ttlMs2 c').1
     = Ok (fresh, true)) ∧
  (fresh = null →
   ∀ t during2 fetched2 t' ttlMs2,
     (Cache.getOrSet null t key during2 fetched2 t' ttlMs2 c').1
     = match fetched2 with
       | Ok fresh2 => Ok (fresh2, false)
       | Throw message => Throw message
       end).
Proof.
  intros Hmiss. apply getOrSet_miss in Hmiss. split_and!.
  - eexists. split; [exact Hmiss|done].
  - intros Hfresh t during2 fetched2 t' ttlMs2 Ht.
    rewrite getOrSet_answer, get_answer, Hmiss. simpl.
    rewrite (proj2 (Z.ltb_ge _ _)) by lia. by rewrite decide_True.
  - intros -> t during2 fetched2 t' ttlMs2.
    rewrite getOrSet_answer, get_answer, Hmiss. simpl.
    rewrite decide_False; [done|].
    intros Hn. apply Hn. by destruct (_ <? t).
Qed.

End CacheRest.

Lemma entry_outlives_the_entries_before_it_witness :
  let e (v : string) :=
    {| CacheService.value := v; CacheService.expiry := 10;
       CacheService.createdAt := 0 |} in
  let c :=
    {| CacheService.cache := [("a", e "1"); ("b", e "2"); ("c", e "3")];
       CacheService.maxSize := 3; CacheService.defaultTTL := 10 |} in
  CacheService.Map_get "c"
    (CacheService.cache
       (foldl (Cache.exec "") c
          [Cache.Set_ 1 "d" "4" None; Cache.Get 2 "b"]))
  = Some (e "3").
Proof.
  intros e c.
  apply (entry_outlives_the_entries_before_it "" c "c" (e "3")
           [("a", e "1"); ("b", e "2")] []).
  - apply (bool_decide_unpack _). vm_compute. exact I.
  - reflexivity.
  - simpl. lia.
  - intros o Ho. apply elem_of_cons in Ho as [->|Ho].
    { exists "d". by split. }
    apply list_elem_of_singleton in Ho as ->. exists "b". by split.
Defined.

Lemma every_method_keeps_the_capacity_witness :
  let c := CacheService.constructor (V := string) (Some 2) None in
  Z.of_nat
    (length
       (CacheService.cache
          (foldl (Cache.exec "") c
             [Cache.Set_ 0 "a" "1" None; Cache.Set_ 1 "b" "2" None;
              Cache.Has 2 "a"; Cache.Set_ 3 "c" "3" None;
              Cache.CleanExpired 4]))) ≤ 2.
Proof.
  intros c.
  assert (NoDup (CacheService.cache c).*1) as Hnd by apply NoDup_nil_2.
  exact (proj1 (proj1 (every_method_keeps_the_capacity "" c
                         [Cache.Set_ 0 "a" "1" None; Cache.Set_ 1 "b" "2" None;
                          Cache.Has 2 "a"; Cache.Set_ 3 "c" "3" None;
                          Cache.CleanExpired 4]
                         eq_refl ltac:(simpl; lia) Hnd))).
Defined.

Lemma getOrSet_serves_what_it_stored_witness :
  let c := CacheService.constructor (V := string) None None in
  let c' := (Cache.getOrSet "" 0 "k" [] (Ok "data") 5 (Some 50) c).2 in
  (Cache.getOrSet "" 55 "k" [] (Throw "offline") 60 None c').1
  = Ok ("data", true).
Proof.
  intros c c'.
  assert (Cache.getOrSet "" 0 "k" [] (Ok "data") 5 (Some 50) c
          = (Ok ("data", false), c')) as Hmiss by reflexivity.
  refine (proj1 (proj2 (getOrSet_serves_what_it_stored "" c c' 0 "k" []
                          "data" 5 (Some 50) Hmiss)) _ 55 [] _ 60 None _).
  - discriminate.
  - vm_compute. discriminate.
Defined.

(** ** The learning order, for every table *)

Section LearningOrderTheorems.
Variable engine : Engine.t.
Variable P : gmap string (gmap string (list string)).

Lemma getLearningOrderIn_arrays t (track : string)
    (skillNames : list string) :
  Prerequisites.trackPrereqsOf P track = Some t →
  (∀ s, s ∈ skillNames → readError engine P track s = None) →
  ∃ placed rest,
    Prerequisites.getLearningOrderIn engine P track skillNames
    = Ok (placed ++ JS.sort rest) ∧
    NoDup (placed ++ rest) ∧
    (∀ s, s ∈ placed ++ rest ↔ s ∈ skillNames) ∧
    (∀ l1 s l2 p,
       placed = l1 ++ s :: l2 →
       p ∈ default [] (arraysOf t !! s) → p ∈ skillNames → p ∈ l1) ∧
    (∀ s, s ∈ rest →
          ∃ p, p ∈ default [] (arraysOf t !! s) ∧
               p ∈ skillNames ∧ p ∉ placed).
Proof.
  intros Ht Hnames. unfold Prerequisites.getLearningOrderIn.
  rewrite (getLearningOrderRun_reads engine P track t skillNames Ht Hnames).
  destruct (loop_shape (arraysOf t) skillNames _ 0 _
              (initial_Inv (arraysOf t) skillNames)
              (fuel_suffices skillNames))
    as (st & [Hnd Hel Hpr Hord] & Hout & Hblocked).
  exists (Prerequisites.ordered st), (Prerequisites.remaining st).
  simpl. rewrite Hout. split_and!; [done|done|done|done|].
  intros s Hs.
  destruct (allPrereqsMet_false (arraysOf t) skillNames _ s
              (Hblocked s Hs)) as (p & Hp & Hin & Hout').
  exists p. split_and!; [done|done|]. by rewrite <- Hpr.
Qed.

Lemma getLearningOrderIn_again t (track : string)
    (placed blocked : list string) :
  let names := placed ++ JS.sort blocked in
  Prerequisites.trackPrereqsOf P track = Some t →
  (∀ s, s ∈ names → readError engine P track s = None) →
  NoDup names →
  (∀ l1 x l2 p, placed = l1 ++ x :: l2 →
                p ∈ default [] (arraysOf t !! x) → p ∈ names → p ∈ l1) →
  (∀ r, r ∈ blocked →
        ∃ p, p ∈ default [] (arraysOf t !! r) ∧ p ∈ names ∧ p ∉ placed) →
  Prerequisites.getLearningOrderIn engine P track names = Ok names.
Proof.
  intros names Ht Hnames Hnd Hplaced Hblocked.
  unfold Prerequisites.getLearningOrderIn.
  rewrite (getLearningOrderRun_reads engine P track t names Ht Hnames).
  simpl. f_equal. by apply loop_again.
Qed.

(** Whatever the table (with or without cycles), on a track it has and
    for skills each of which reads an array of prerequisites,
    [getLearningOrder] returns the skills it could place, followed by the
    skills it could not, in ascending order.  Every input skill is in
    exactly one of the two parts.  A placed skill stands after each of
    its prerequisites that is in the input, whether or not the others
    are.  A skill that was not placed has a prerequisite in the input
    that was not placed either; so nothing is left over when no cycle
    reaches the input. *)
Theorem getLearningOrder_placed_then_sorted_rest (track : string)
    (skillNames : list string) :
  is_Some (Prerequisites.trackPrereqsOf P track) →
  (∀ s, s ∈ skillNames → readError engine P track s = None) →
  ∃ placed rest,
    Prerequisites.getLearningOrderIn engine P track skillNames
    = Ok (placed ++ JS.sort rest) ∧
    NoDup (placed ++ rest) ∧
    (∀ s, s ∈ placed ++ rest ↔ s ∈ skillNames) ∧
    (∀ l1 s l2 p,
       placed = l1 ++ s :: l2 →
       p ∈ prerequisitesOf engine P track s → p ∈ skillNames → p ∈ l1) ∧
    (∀ s, s ∈ rest →
          ∃ p, p ∈ prerequisitesOf engine P track s ∧
               p ∈ skillNames ∧ p ∉ placed) ∧
    Sorted String.le (JS.sort rest) ∧ JS.sort rest ≡ₚ rest.
Proof.
  intros Ht Hnames.
  destruct (getLearningOrder_shape engine P track skillNames Ht Hnames)
    as (placed & rest & iterations & Hrun & _ & Hnd & Hel & Hord & Hblocked).
  exists placed, rest. unfold Prerequisites.getLearningOrderIn.
  rewrite Hrun.
  split_and!; [done|done|done|done|done|apply sort_Sorted
              |apply sort_Permutation].
Qed.

(** A list of distinct skills, each of which reads an array of
    prerequisites, in which every skill stands after each of its
    prerequisites that the list holds is a learning order already:
    [getLearningOrder] returns it as it is, on every track and for every
    table. *)
Theorem getLearningOrder_keeps_a_valid_order (track : string)
    (skillNames : list string) :
  NoDup skillNames →
  (∀ s, s ∈ skillNames → readError engine P track s = None) →
  (∀ l1 s l2 p,
     skillNames = l1 ++ s :: l2 →
     p ∈ prerequisitesOf engine P track s → p ∈ skillNames → p ∈ l1) →
  Prerequisites.getLearningOrderIn engine P track skillNames
  = Ok skillNames.
Proof.
  intros Hnd Hnames Hord.
  destruct (Prerequisites.trackPrereqsOf P track) as [t|] eqn:Ht.
  2:{ unfold Prerequisites.getLearningOrderIn,
        Prerequisites.getLearningOrderRun. by rewrite Ht. }
  pose proof (getLearningOrderIn_again t track skillNames []) as H.
  change (JS.sort []) with (@nil string) in H. simpl in H.
  rewrite app_nil_r in H. apply H; [done|done|done| |].
  - intros l1 x l2 p Heq Hp Hin. apply (Hord l1 x l2 p Heq); [|done].
    rewrite (prerequisitesOf_arrays engine P track t x Ht); [done|].
    apply Hnames. rewrite Heq, elem_of_app, elem_of_cons. tauto.
  - intros r Hr. by apply elem_of_nil in Hr.
Qed.

(** [getLearningOrder] is idempotent: ordering a list that it returned
    returns the same list, on every track, for every table and every
    input. *)
Theorem getLearningOrder_idempotent (track : string)
    (skillNames out : list string) :
  Prerequisites.getLearningOrderIn engine P track skillNames = Ok out →
  Prerequisites.getLearningOrderIn engine P track out = Ok out.
Proof.
  intros Hout.
  destruct (Prerequisites.trackPrereqsOf P track) as [t|] eqn:Ht.
  2:{ unfold Prerequisites.getLearningOrderIn,
        Prerequisites.getLearningOrderRun. by rewrite Ht. }
  assert (∀ s, s ∈ skillNames → readError engine P track s = None)
    as Hnames.
  { unfold Prerequisites.getLearningOrderIn in Hout.
    destruct (Prerequisites.getLearningOrderRun engine P track skillNames)
      as [r|message] eqn:Hrun; [|done].
    by apply (getLearningOrderRun_Ok engine P track skillNames r). }
  destruct (getLearningOrderIn_arrays t track skillNames Ht Hnames)
    as (placed & rest & Hout' & Hnd & Hel & Hord & Hblocked).
  rewrite Hout' in Hout. injection Hout as <-.
  assert (∀ s, s ∈ placed ++ JS.sort rest ↔ s ∈ skillNames) as Hel'.
  { intros s. rewrite <- Hel, !elem_of_app, sort_Permutation. tauto. }
  apply (getLearningOrderIn_again t track placed rest Ht).
  - intros s Hs. by apply Hnames, Hel'.
  - apply NoDup_app in Hnd as (Hn1 & Hn2 & Hn3).
    apply NoDup_app. split_and!; [done| |by rewrite sort_Permutation].
    intros x Hx. rewrite sort_Permutation. by apply Hn2.
  - intros l1 x l2 p Heq Hp Hin. apply (Hord l1 x l2 p Heq Hp).
    by apply Hel'.
  - intros r Hr. destruct (Hblocked r Hr) as (p & Hp & Hin & Hnot).
    exists p. split_and!; [done| |done]. by apply Hel'.
Qed.

End LearningOrderTheorems.

Lemma getLearningOrder_placed_then_sorted_rest_witness :
  let P : gmap string (gmap string (list string)) :=
    list_to_map [("t", list_to_map [("A", ["B"]); ("B", ["A"])])] in
  is_Some (Prerequisites.trackPrereqsOf P "t") ∧
  ∃ placed rest,
    Prerequisites.getLearningOrderIn Engine.example P "t"
      ["B"; "A"; "C"; "A"]
    = Ok (placed ++ JS.sort rest) ∧
    placed ++ JS.sort rest = ["C"; "A"; "B"] ∧
    NoDup (placed ++ rest).
Proof.
  intros P.
  assert (is_Some (Prerequisites.trackPrereqsOf P "t")) as Hsome
    by (by vm_compute; eexists).
  split; [exact Hsome|].
  assert (∀ s, s ∈ ["B"; "A"; "C"; "A"] →
               readError Engine.example P "t" s = None) as Hnames.
  { intros s Hs. repeat (apply elem_of_cons in Hs as [->|Hs]; [reflexivity|]).
    by apply elem_of_nil in Hs. }
  destruct (getLearningOrder_placed_then_sorted_rest Engine.example P "t"
              ["B"; "A"; "C"; "A"] Hsome Hnames)
    as (placed & rest & Hout & Hnd & _).
  exists placed, rest. split; [exact Hout|]. split; [|exact Hnd].
  assert (Prerequisites.getLearningOrderIn Engine.example P "t"
            ["B"; "A"; "C"; "A"] = Ok ["C"; "A"; "B"]) as Hc
    by (vm_compute; reflexivity).
  rewrite Hc in Hout. by injection Hout as <-.
Defined.

Lemma getLearningOrder_keeps_a_valid_order_witness :
  let P : gmap string (gmap string (list string)) :=
    list_to_map [("t", list_to_map [("A", ["B"])])] in
  Prerequisites.getLearningOrderIn Engine.example P "t" ["B"; "A"]
  = Ok ["B"; "A"].
Proof.
  intros P. apply getLearningOrder_keeps_a_valid_order.
  - apply (bool_decide_unpack _). vm_compute. exact I.
  - intros s Hs. repeat (apply elem_of_cons in Hs as [->|Hs]; [reflexivity|]).
    by apply elem_of_nil in Hs.
  - intros l1 s l2 p Heq Hp Hin.
    destruct l1 as [|x1 l1]; simpl in Heq.
    { injection Heq as <- <-. vm_compute in Hp. by apply elem_of_nil in Hp. }
    injection Heq as <- Heq.
    destruct l1 as [|x2 l1]; simpl in Heq.
    { injection Heq as <- <-. vm_compute in Hp.
      apply list_elem_of_singleton in Hp as ->. by left. }
    injection Heq as <- Heq. by destruct l1.
Defined.

Lemma getLearningOrder_idempotent_witness :
  Prerequisites.getLearningOrderIn Engine.example
    Prerequisites.PREREQUISITES "frontend"
    ["HTML"; "CSS"; "JavaScript"; "React"]
  = Ok ["HTML"; "CSS"; "JavaScript"; "React"].
Proof.
  apply (getLearningOrder_idempotent Engine.example
           Prerequisites.PREREQUISITES "frontend"
           ["React"; "JavaScript"; "HTML"; "CSS"]).
  vm_compute. reflexivity.
Defined.

(** ** Prerequisites met *)

Lemma toLowerCase_idempotent s :
  JS.toLowerCase (JS.toLowerCase s) = JS.toLowerCase s.
Proof.
  induction s as [|a s IH]; [done|]. simpl. rewrite IH. f_equal.
  unfold JS.lower_ascii.
  destruct ((65 <=? N_of_ascii a)%N && (N_of_ascii a <=? 90)%N) eqn:Hup.
  - apply andb_true_iff in Hup as [H1%N.leb_le H2%N.leb_le].
    assert (N_of_ascii (ascii_of_N (N_of_ascii a + 32))
            = (N_of_ascii a + 32)%N) as Hn
      by (apply N_ascii_embedding; lia).
    rewrite Hn.
    rewrite (proj2 (N.leb_gt (N_of_ascii a + 32) 90)) by lia.
    by rewrite andb_false_r.
  - by rewrite Hup.
Qed.

Lemma isASCII_toLowerCase s :
  JS.isASCII s = true → JS.isASCII (JS.toLowerCase s) = true.
Proof.
  induction s as [|a s IH]; [done|]. simpl.
  intros [Ha%N.ltb_lt Hs]%andb_true_iff. rewrite (IH Hs), andb_true_r.
  apply N.ltb_lt. unfold JS.lower_ascii.
  destruct ((65 <=? N_of_ascii a)%N && (N_of_ascii a <=? 90)%N) eqn:Hup;
    [|done].
  apply andb_true_iff in Hup as [H1%N.leb_le H2%N.leb_le].
  rewrite N_ascii_embedding by lia. lia.
Qed.

(** The engine folds an ASCII string as it folds the fold of it. *)
Lemma lower_toLowerCase (engine : Engine.t) s :
  JS.isASCII s = true →
  Engine.toLowerCase engine (JS.toLowerCase s) = Engine.toLowerCase engine s.
Proof.
  intros Hs.
  rewrite (Engine.foldsASCII engine _ (isASCII_toLowerCase s Hs)).
  by rewrite toLowerCase_idempotent, (Engine.foldsASCII engine s Hs).
Qed.

Section PrerequisitesMet.
Import Prerequisites.
Variable engine : Engine.t.
Variable P : gmap string (gmap string (list string)).

Local Abbreviation lower := (Engine.toLowerCase engine).

Lemma prerequisitesMetIn_readable track skillName learnedSkills :
  readError engine P track skillName = None →
  prerequisitesMetIn engine P track skillName learnedSkills
  = Ok (bool_decide
          (missingPrereqsOf engine P track learnedSkills skillName = [])).
Proof.
  intros Hread. unfold prerequisitesMetIn.
  rewrite (getPrerequisitesIn_readable engine P track skillName Hread).
  cbn [bind every]. f_equal.
  pose proof (allMet_missing engine P track learnedSkills skillName) as H.
  destruct (forallb _ _).
  - by rewrite bool_decide_eq_true_2 by (by apply H).
  - rewrite bool_decide_eq_false_2; [done|]. intros Hnil.
    by apply H in Hnil.
Qed.

Lemma prerequisitesMetIn_throws track skillName learnedSkills message :
  readError engine P track skillName = Some message →
  prerequisitesMetIn engine P track skillName learnedSkills = Throw message.
Proof.
  unfold readError, prerequisitesMetIn.
  destruct (getPrerequisitesIn engine P track skillName) as [[l|]|m];
    simpl; [done|by intros [= <-]..].
Qed.

Lemma missingPrereqsOf_nil track skillName learnedSkills :
  missingPrereqsOf engine P track learnedSkills skillName = [] ↔
  ∀ p, p ∈ prerequisitesOf engine P track skillName →
       lower p ∈ lower <$> learnedSkills.
Proof.
  unfold missingPrereqsOf. split.
  - intros Hnil p Hp.
    destruct (decide (lower p ∈ lower <$> learnedSkills))
      as [|Hn]; [done|].
    assert (p ∈ filter
              (λ prereq, lower prereq ∉ lower <$> learnedSkills)
              (prerequisitesOf engine P track skillName)) as Hin
      by (by apply list_elem_of_filter).
    rewrite Hnil in Hin. by apply elem_of_nil in Hin.
  - intros Hall. apply elem_of_nil_inv. intros p Hp.
    apply list_elem_of_filter in Hp as [Hn Hp]. by apply Hn, Hall.
Qed.

(** When the prerequisites of the skill read as an array,
    [prerequisitesMet] answers (it does not throw), and it answers
    [true] exactly when every prerequisite is among the learned skills up
    to [toLowerCase]; so it answers [true] for a skill without
    prerequisites.  Learning more never turns the answer from [true] to
    [false], and for learned names written in ASCII characters the case
    of their letters does not matter.  It agrees with [getSuggestedNext]:
    the answer is [true] exactly when the skill, given as the only gap,
    is suggested with the reason "Prerequisites met".  When the
    prerequisites read as no array, both functions throw the same error.
    On a track without a table the answer is [true]. *)
Theorem prerequisitesMet_agrees_with_suggestions (track skillName : string)
    (learnedSkills : list string) :
  let met := prerequisitesMetIn engine P track skillName in
  let prerequisites := prerequisitesOf engine P track skillName in
  (readError engine P track skillName = None →
   (∃ b, met learnedSkills = Ok b) ∧
   (met learnedSkills = Ok true ↔
    ∀ p, p ∈ prerequisites → lower p ∈ lower <$> learnedSkills) ∧
   (prerequisites = [] → met learnedSkills = Ok true) ∧
   (∀ more, learnedSkills ⊆ more →
            met learnedSkills = Ok true → met more = Ok true) ∧
   (Forall (λ s, JS.isASCII s = true) learnedSkills →
    met (JS.toLowerCase <$> learnedSkills) = met learnedSkills) ∧
   (met learnedSkills = Ok true ↔
    getSuggestedNextIn engine P track learnedSkills [skillName] 1
    = Ok [ {| skill := skillName; reason := "Prerequisites met";
              prereqs := prerequisites;
              missingPrereqs := None |} ])) ∧
  (∀ message,
     readError engine P track skillName = Some message →
     met learnedSkills = Throw message ∧
     getSuggestedNextIn engine P track learnedSkills [skillName] 1
     = Throw message) ∧
  (trackPrereqsOf P track = None → met learnedSkills = Ok true).
Proof.
  intros met prerequisites. subst met prerequisites. split_and!.
  2:{ intros message Hread. split.
      - by apply prerequisitesMetIn_throws.
      - apply (getSuggestedNextIn_throws engine P track learnedSkills
                 [] skillName []); [|done].
        intros x Hx. by apply elem_of_nil in Hx. }
  2:{ intros Hnone. unfold prerequisitesMetIn, getPrerequisitesIn.
      by rewrite Hnone. }
  intros Hread.
  assert (∀ learned,
            prerequisitesMetIn engine P track skillName learned = Ok true ↔
            ∀ p, p ∈ prerequisitesOf engine P track skillName →
                 lower p ∈ lower <$> learned) as Hspec.
  { intros learned. rewrite prerequisitesMetIn_readable by done.
    rewrite <- missingPrereqsOf_nil. split.
    - intros [= H]. by apply bool_decide_eq_true in H.
    - intros H. by rewrite bool_decide_eq_true_2. }
  split_and!.
  - rewrite prerequisitesMetIn_readable by done. by eexists.
  - apply Hspec.
  - intros Hnil. apply Hspec. rewrite Hnil. intros p Hp.
    by apply elem_of_nil in Hp.
  - intros more Hsub Hmet. apply Hspec. intros p Hp.
    apply (proj1 (Hspec learnedSkills) Hmet) in Hp.
    apply list_elem_of_fmap in Hp as (s & -> & Hs).
    apply list_elem_of_fmap_2. by apply Hsub.
  - intros Hascii. rewrite !prerequisitesMetIn_readable by done.
    unfold missingPrereqsOf. rewrite <- list_fmap_compose.
    assert (lower ∘ JS.toLowerCase <$> learnedSkills
            = lower <$> learnedSkills) as ->; [|done].
    apply list_fmap_ext. intros i s Hs. simpl.
    apply lower_toLowerCase.
    by apply (proj1 (Forall_forall _ _) Hascii),
         list_elem_of_lookup_2 with i.
  - rewrite prerequisitesMetIn_readable by done.
    rewrite getSuggestedNextIn_readable.
    2:{ intros g Hg. by apply list_elem_of_singleton in Hg as ->. }
    unfold JS.slice0. change (1 <? 0) with false. cbv iota.
    simpl omap. unfold suggestionFor.
    destruct (missingPrereqsOf engine P track learnedSkills skillName)
      as [|m [|m' l]] eqn:Hmiss; simpl.
    + done.
    + split; by intros [=].
    + split; by intros [=].
Qed.

End PrerequisitesMet.

(** ** The catalog *)

Section CatalogRest.
Import Roadmaps.

Lemma sort_NoDup l : NoDup l → NoDup (JS.sort l).
Proof. intros H. by rewrite sort_Permutation. Qed.

Lemma getAllSkillsIn_elem (R : gmap string Roadmap) (s : string) :
  s ∈ Catalog.getAllSkillsIn R ↔
  ∃ track roadmap skill,
    R !! track = Some roadmap ∧ skill ∈ coreSkills roadmap ∧
    name skill = s.
Proof.
  unfold Catalog.getAllSkillsIn, Catalog.allSkillsOf.
  rewrite sort_Permutation, Set_from_elem, list_elem_of_bind.
  split.
  - intros (roadmap & Hs & Hr).
    apply list_elem_of_fmap in Hs as (skill & -> & Hskill).
    apply list_elem_of_fmap in Hr as ([track roadmap'] & -> & Hr).
    apply elem_of_map_to_list in Hr. by exists track, roadmap', skill.
  - intros (track & roadmap & skill & Hr & Hskill & <-).
    exists roadmap. split; [by apply list_elem_of_fmap_2|].
    apply list_elem_of_fmap. exists (track, roadmap). split; [done|].
    by apply elem_of_map_to_list.
Qed.

(** [getAllSkills] lists, in ascending order and each once, exactly the
    names that some track of the catalog gives a core skill; so every core
    skill of every track is offered for completion. *)
Theorem getAllSkills_sorted_distinct_complete (R : gmap string Roadmap) :
  let all := Catalog.getAllSkillsIn R in
  Sorted String.le all ∧ NoDup all ∧
  (∀ s, s ∈ all ↔
        ∃ track roadmap skill,
          R !! track = Some roadmap ∧ skill ∈ coreSkills roadmap ∧
          name skill = s) ∧
  (∀ track core skill,
     getCoreSkillsIn R track = Ok (Some core) → skill ∈ core →
     name skill ∈ all).
Proof.
  intros all. subst all. split_and!.
  - apply sort_Sorted.
  - apply sort_NoDup, Set_from_NoDup.
  - apply getAllSkillsIn_elem.
  - intros track core skill Hcore Hskill. apply getAllSkillsIn_elem.
    unfold getCoreSkillsIn in Hcore.
    destruct (R !! track) as [roadmap|] eqn:Hr; [|by case_decide].
    injection Hcore as <-. by exists track, roadmap, skill.
Qed.

Lemma catalogs_weights :
  Forall (λ s, 1 ≤ weight s ≤ 10) coreSkills_frontend ∧
  Forall (λ s, 1 ≤ weight s ≤ 10) coreSkills_backend ∧
  Forall (λ s, 1 ≤ weight s ≤ 10) coreSkills_fullstack.
Proof. split_and!; apply (bool_decide_unpack _); by vm_compute. Qed.

Lemma getCoreSkills_weights track core :
  getCoreSkills track = Ok (Some core) →
  Forall (λ s, 1 ≤ weight s ≤ 10) core.
Proof.
  intros H. destruct catalogs_weights as (? & ? & ?).
  by destruct (getCoreSkills_catalog track core H) as [->|[->| ->]].
Qed.

Lemma existsb_findSkill (engine : Engine.t) core skillName :
  existsb
    (λ s, bool_decide (Engine.toLowerCase engine (name s)
                       = Engine.toLowerCase engine skillName))
    core
  = bool_decide (is_Some (findSkill engine core skillName)).
Proof.
  destruct (findSkill engine core skillName) as [s|] eqn:Hf.
  - rewrite bool_decide_eq_true_2 by (by eexists).
    apply findSkill_Some in Hf as [Hs Heq].
    apply existsb_exists. exists s. split; [by apply list_elem_of_In|].
    by apply bool_decide_eq_true.
  - rewrite bool_decide_eq_false_2 by (by intros [? ?]).
    apply findSkill_None in Hf.
    destruct (existsb _ core) eqn:Hex; [|done].
    apply existsb_exists in Hex as (s & Hs & Heq).
    apply bool_decide_eq_true in Heq. exfalso. apply Hf.
    rewrite <- Heq. apply list_elem_of_fmap_2, list_elem_of_fmap_2.
    by apply list_elem_of_In.
Qed.

(** The names a plain object inherits are no tracks of the catalog. *)
Lemma ROADMAPS_inherited track :
  track ∈ JS.Object_prototype_names → ROADMAPS !! track = None.
Proof.
  intros Hin.
  assert (Forall (λ name, ROADMAPS !! name = None) JS.Object_prototype_names)
    as Hall by (apply (bool_decide_unpack _); by vm_compute).
  by apply (proj1 (Forall_forall _ _) Hall).
Qed.

(** [isCoreSkill] and [getSkillWeight] agree.  On a track of the catalog
    neither throws; a skill is core exactly when its weight is at least
    1, the weight of a core skill lies between 1 and 10, and a skill that
    is not core weighs 0.  On any other track both throw: the same
    [Invalid track] error, unless the track is a name that the catalog, a
    plain object, inherits; then [getCoreSkills] returns [undefined] and
    each throws the [TypeError] of its own method call.  Neither answer
    changes between two names that [toLowerCase] maps to the same string,
    such as an ASCII name and its fold. *)
Theorem isCoreSkill_agrees_with_getSkillWeight (engine : Engine.t)
    (track skillName : string) :
  (is_Some (ROADMAPS !! track) →
   ∃ b w,
     isCoreSkill engine track skillName = Ok b ∧
     getSkillWeight engine track skillName = Ok w ∧
     (b = true ↔ 1 ≤ w) ∧ (b = false ↔ w = 0) ∧ 0 ≤ w ≤ 10) ∧
  (ROADMAPS !! track = None → track ∉ JS.Object_prototype_names →
   isCoreSkill engine track skillName
   = Throw ("Invalid track: " +:+ track) ∧
   getSkillWeight engine track skillName
   = Throw ("Invalid track: " +:+ track)) ∧
  (track ∈ JS.Object_prototype_names →
   getCoreSkills track = Ok None ∧
   isCoreSkill engine track skillName
   = Throw "Cannot read properties of undefined (reading 'some')" ∧
   getSkillWeight engine track skillName
   = Throw "Cannot read properties of undefined (reading 'find')") ∧
  (∀ other,
     Engine.toLowerCase engine other = Engine.toLowerCase engine skillName →
     isCoreSkill engine track other = isCoreSkill engine track skillName ∧
     getSkillWeight engine track other
     = getSkillWeight engine track skillName) ∧
  (JS.isASCII skillName = true →
   isCoreSkill engine track (JS.toLowerCase skillName)
   = isCoreSkill engine track skillName ∧
   getSkillWeight engine track (JS.toLowerCase skillName)
   = getSkillWeight engine track skillName).
Proof.
  assert (∀ other,
            Engine.toLowerCase engine other
            = Engine.toLowerCase engine skillName →
            isCoreSkill engine track other
            = isCoreSkill engine track skillName ∧
            getSkillWeight engine track other
            = getSkillWeight engine track skillName) as Hsame.
  { intros other Heq.
    unfold isCoreSkill, isCoreSkillIn, getSkillWeight, getSkillWeightIn,
      findSkill.
    by rewrite Heq. }
  unfold isCoreSkill, isCoreSkillIn, getSkillWeight, getSkillWeightIn.
  split_and!.
  - intros [roadmap Hr].
    assert (getCoreSkills track = Ok (Some (coreSkills roadmap))) as Hcore
      by (unfold getCoreSkills, getCoreSkillsIn; by rewrite Hr).
    pose proof (getCoreSkills_weights track _ Hcore) as Hw.
    unfold getCoreSkills in Hcore. rewrite Hcore. simpl.
    rewrite existsb_findSkill. eexists _, _.
    split; [reflexivity|]. split; [reflexivity|].
    destruct (findSkill engine (coreSkills roadmap) skillName)
      as [s|] eqn:Hf.
    + apply findSkill_Some in Hf as [Hs _].
      rewrite Forall_forall in Hw. specialize (Hw s Hs).
      rewrite bool_decide_eq_true_2 by (by eexists).
      split; [split; [lia|done]|]. split; [split; [done|lia]|lia].
    + rewrite bool_decide_eq_false_2 by (by intros [? ?]).
      split; [split; [done|lia]|]. split; [done|lia].
  - intros Hnone Hnot. unfold getCoreSkillsIn. rewrite Hnone.
    by rewrite decide_False.
  - intros Hin. unfold getCoreSkills, getCoreSkillsIn.
    rewrite (ROADMAPS_inherited track Hin).
    by rewrite decide_True.
  - apply Hsame.
  - intros Hascii. apply Hsame. by apply lower_toLowerCase.
Qed.

End CatalogRest.

(** ** Sorting with a comparator *)

Section SortWith.
Context {A : Type}.
Variable after : A → A → bool.

Lemma insert_Permutation x l : JSArray.insert after x l ≡ₚ x :: l.
Proof.
  induction l as [|y l IH]; simpl; [done|].
  destruct (after x y); [|done]. rewrite IH. apply Permutation_swap.
Qed.

Lemma sortWith_Permutation l : JSArray.sortWith after l ≡ₚ l.
Proof.
  induction l as [|x l IH]; simpl; [done|].
  fold (JSArray.sortWith after l). by rewrite insert_Permutation, IH.
Qed.

(** A comparator [(a, b) => key(b) - key(a)] on integers. *)
Variable key : A → Z.
Hypothesis after_key : ∀ a b, after a b = (0 <? key b - key a).

Lemma insert_sorted x l :
  StronglySorted (λ a b, key b ≤ key a) l →
  StronglySorted (λ a b, key b ≤ key a) (JSArray.insert after x l).
Proof.
  induction l as [|y l IH]; intros Hs; simpl.
  { by repeat constructor. }
  apply StronglySorted_inv in Hs as [Hl Hy]. rewrite after_key.
  destruct (Z.ltb_spec 0 (key y - key x)) as [Hlt|Hge].
  - constructor; [by apply IH|].
    rewrite insert_Permutation. constructor; [lia|done].
  - constructor; [by constructor|].
    constructor; [lia|]. eapply Forall_impl; [exact Hy|].
    intros z Hz. simpl in Hz. lia.
Qed.

Lemma sortWith_sorted l :
  StronglySorted (λ a b, key b ≤ key a) (JSArray.sortWith after l).
Proof.
  induction l as [|x l IH]; simpl; [constructor|].
  by apply insert_sorted.
Qed.

Lemma insert_stable w x l :
  filter (λ a, key a = w) (JSArray.insert after x l)
  = filter (λ a, key a = w) (x :: l).
Proof.
  induction l as [|y l IH]; simpl; [done|].
  rewrite after_key.
  destruct (Z.ltb_spec 0 (key y - key x)) as [Hlt|Hge]; [|done].
  rewrite filter_cons, IH, !filter_cons.
  destruct (decide (key x = w)), (decide (key y = w)); try done. lia.
Qed.

Lemma sortWith_stable w l :
  filter (λ a, key a = w) (JSArray.sortWith after l)
  = filter (λ a, key a = w) l.
Proof.
  induction l as [|x l IH]; simpl; [done|].
  fold (JSArray.sortWith after l).
  by rewrite insert_stable, !filter_cons, IH.
Qed.

End SortWith.

(** ** The proficiency classes *)

Section Analyzer.
Import Roadmaps.

Lemma named_elem (Q : ValidationService.UserSkill → Prop)
    `{∀ s, Decision (Q s)}
    (userSkills : list ValidationService.UserSkill) (n : string) :
  n ∈ ValidationService.userSkillName <$> filter Q userSkills
  ↔ ∃ s, s ∈ userSkills ∧ ValidationService.userSkillName s = n ∧ Q s.
Proof.
  rewrite list_elem_of_fmap. split.
  - intros (s & -> & Hs). apply list_elem_of_filter in Hs as [HQ Hs].
    by exists s.
  - intros (s & Hs & <- & HQ). exists s. split; [done|].
    by apply list_elem_of_filter.
Qed.

(** [categorizeUserSkills] keeps the order of the skills within every
    class, and a class holds exactly the names of the skills given with
    its proficiency.  The three classes and the skills with any other
    proficiency together hold every skill exactly once: no skill is put
    in two classes, and a skill with another proficiency is in no class.
    So, when no name is given twice, no name stands in two classes or
    twice in one, and the name of a skill with another proficiency
    stands in none; and when every proficiency is one of the three
    levels (as the controller ensures) the classes together hold every
    skill once. *)
Theorem categorizeUserSkills_partitions
    (userSkills : list ValidationService.UserSkill) :
  let classes := Analyzer.categorizeUserSkills userSkills in
  let names := ValidationService.userSkillName <$> userSkills in
  let classed :=
    Analyzer.beginner classes ++ Analyzer.intermediate classes
    ++ Analyzer.strong classes in
  let others :=
    ValidationService.userSkillName
    <$> filter (λ s, ValidationService.proficiency s
                     ∉ Constants.PROFICIENCY_LEVELS.values) userSkills in
  let given n level :=
    ∃ s, s ∈ userSkills ∧ ValidationService.userSkillName s = n
         ∧ ValidationService.proficiency s = level in
  Analyzer.beginner classes `sublist_of` names ∧
  Analyzer.intermediate classes `sublist_of` names ∧
  Analyzer.strong classes `sublist_of` names ∧
  (∀ n, n ∈ Analyzer.beginner classes
        ↔ given n Constants.PROFICIENCY_LEVELS.BEGINNER) ∧
  (∀ n, n ∈ Analyzer.intermediate classes
        ↔ given n Constants.PROFICIENCY_LEVELS.INTERMEDIATE) ∧
  (∀ n, n ∈ Analyzer.strong classes
        ↔ given n Constants.PROFICIENCY_LEVELS.STRONG) ∧
  classed ++ others ≡ₚ names ∧
  (length (Analyzer.beginner classes) + length (Analyzer.intermediate classes)
   + length (Analyzer.strong classes) + length others
   = length userSkills)%nat ∧
  (NoDup names →
   NoDup classed ∧
   ∀ s, s ∈ userSkills →
        ValidationService.proficiency s
        ∉ Constants.PROFICIENCY_LEVELS.values →
        ValidationService.userSkillName s ∉ classed) ∧
  (Forall (λ s, ValidationService.proficiency s
                ∈ Constants.PROFICIENCY_LEVELS.values) userSkills →
   classed ≡ₚ names) ∧
  (Forall (λ s, ValidationService.proficiency s
                ∉ Constants.PROFICIENCY_LEVELS.values) userSkills →
   classes = {| Analyzer.beginner := []; Analyzer.intermediate := [];
                Analyzer.strong := [] |}).
Proof.
  intros classes names classed others given.
  assert (classed ++ others ≡ₚ names) as Hperm.
  { subst classed others classes names.
    unfold Analyzer.categorizeUserSkills. simpl.
    unfold Constants.PROFICIENCY_LEVELS.values,
      Constants.PROFICIENCY_LEVELS.BEGINNER,
      Constants.PROFICIENCY_LEVELS.INTERMEDIATE,
      Constants.PROFICIENCY_LEVELS.STRONG.
    induction userSkills as [|s l IH]; [done|].
    rewrite !filter_cons, fmap_cons.
    destruct (decide (ValidationService.proficiency s = "beginner")) as [Hb|Hb],
      (decide (ValidationService.proficiency s = "intermediate")) as [Hi|Hi],
      (decide (ValidationService.proficiency s = "strong")) as [Hst|Hst];
      try congruence.
    - rewrite decide_False by (rewrite Hb; set_solver).
      simpl. by rewrite IH.
    - rewrite decide_False by (rewrite Hi; set_solver).
      rewrite fmap_cons. rewrite <- !app_assoc. simpl.
      rewrite <- Permutation_middle. rewrite <- !app_assoc in IH.
      by rewrite IH.
    - rewrite decide_False by (rewrite Hst; set_solver).
      rewrite fmap_cons. rewrite <- !app_assoc. simpl.
      rewrite (app_assoc (ValidationService.userSkillName <$> _)
                 (ValidationService.userSkillName <$> _)).
      rewrite <- Permutation_middle. rewrite <- !app_assoc.
      rewrite <- !app_assoc in IH. by rewrite IH.
    - rewrite decide_True by set_solver.
      rewrite fmap_cons. rewrite <- !app_assoc.
      rewrite (app_assoc (ValidationService.userSkillName <$> _)
                 (ValidationService.userSkillName <$> _)).
      rewrite (app_assoc (_ ++ _)
                 (ValidationService.userSkillName <$> _)).
      rewrite <- Permutation_middle. rewrite <- !app_assoc.
      rewrite <- !app_assoc in IH. by rewrite IH. }
  split_and!.
  - apply fmap_sublist, sublist_filter.
  - apply fmap_sublist, sublist_filter.
  - apply fmap_sublist, sublist_filter.
  - intros n. apply named_elem.
  - intros n. apply named_elem.
  - intros n. apply named_elem.
  - done.
  - apply Permutation_length in Hperm. subst classed names.
    rewrite !length_app, length_fmap in Hperm. lia.
  - intros Hnd. rewrite <- Hperm in Hnd.
    apply NoDup_app in Hnd as (Hc & Hdisjoint & _). split; [done|].
    intros s Hs Hother Hin. apply (Hdisjoint _ Hin).
    subst others. apply list_elem_of_fmap_2.
    by apply list_elem_of_filter.
  - intros Hall. rewrite <- Hperm. subst others.
    assert (filter (λ s, ValidationService.proficiency s
                         ∉ Constants.PROFICIENCY_LEVELS.values) userSkills
            = []) as ->; [|by rewrite app_nil_r].
    apply elem_of_nil_inv. intros s Hs.
    apply list_elem_of_filter in Hs as [Hnot Hs].
    rewrite Forall_forall in Hall. by apply Hnot, Hall.
  - intros Hall. subst classes. unfold Analyzer.categorizeUserSkills.
    unfold Constants.PROFICIENCY_LEVELS.values,
      Constants.PROFICIENCY_LEVELS.BEGINNER,
      Constants.PROFICIENCY_LEVELS.INTERMEDIATE,
      Constants.PROFICIENCY_LEVELS.STRONG in *.
    assert (∀ level, level ∈ ["beginner"; "intermediate"; "strong"] →
              filter (λ s, ValidationService.proficiency s = level) userSkills
              = []) as Hnone.
    { intros level Hlevel. apply elem_of_nil_inv. intros s Hs.
      apply list_elem_of_filter in Hs as [Heq Hs].
      rewrite Forall_forall in Hall. apply (Hall s Hs). by rewrite Heq. }
    rewrite !Hnone; [done|..]; set_solver.
Qed.

(** ** Evidence *)

Lemma evidenceOf_settled skillName track
    (g s : result (Providers.DemandData * bool)) :
  let e :=
    Analyzer.evidenceOf
      (Analyzer.Promise_all2 (Providers.getSkillDemand g skillName track)
                             (Providers.getSkillDemand s skillName track)) in
  Analyzer.demandCategory e
  = ValidationService.categorizeDemand (Analyzer.combinedScore e) ∧
  Analyzer.combinedScore e
  = (Analyzer.count (Analyzer.github e)
     + Analyzer.count (Analyzer.stackoverflow e) * 0.5)%float ∧
  Analyzer.error (Analyzer.github e) = None ∧
  Analyzer.error (Analyzer.stackoverflow e) = None ∧
  (∀ message, g = Throw message →
              Analyzer.count (Analyzer.github e) = 0%float) ∧
  (∀ message, s = Throw message →
              Analyzer.count (Analyzer.stackoverflow e) = 0%float) ∧
  (∀ data fromCache, g = Ok (data, fromCache) →
     Analyzer.count (Analyzer.github e)
     = JSNumber.or0 (Providers.dataCount data)) ∧
  (∀ data fromCache, s = Ok (data, fromCache) →
     Analyzer.count (Analyzer.stackoverflow e)
     = JSNumber.or0 (Providers.dataCount data)).
Proof.
  destruct g as [[gd gc]|gm], s as [[sd sc]|sm]; simpl;
    split_and!; try done; try (by intros ? [=]); by intros ? ? [= <- <-].
Qed.

(** [addEvidenceToGaps] never throws and returns the gaps in their order,
    each with an evidence whose [demandCategory] is the category of its
    [combinedScore] and whose [combinedScore] is the GitHub count plus
    half the Stack Overflow count.  The count of a provider whose fetch
    failed is 0, and the count of one that answered is the count it
    reported (0 for none).  Both [error] fields are always [null]: the
    provider reports a failure in a field that [addEvidenceToGaps] does
    not read, and the [catch] clause of [addEvidenceToGaps] is never
    entered. *)
Theorem addEvidenceToGaps_never_reports_an_error {G : Type}
    (skillOf : G → string) (settled : Analyzer.Settled) (gaps : list G)
    (track : string) :
  let out := Analyzer.addEvidenceToGaps skillOf settled gaps track in
  Analyzer.gap <$> out = gaps ∧
  ∀ i g, out !! i = Some g →
    let e := Analyzer.evidence g in
    Analyzer.demandCategory e
    = ValidationService.categorizeDemand (Analyzer.combinedScore e) ∧
    Analyzer.combinedScore e
    = (Analyzer.count (Analyzer.github e)
       + Analyzer.count (Analyzer.stackoverflow e) * 0.5)%float ∧
    Analyzer.error (Analyzer.github e) = None ∧
    Analyzer.error (Analyzer.stackoverflow e) = None ∧
    (∀ message, (settled i).1 = Throw message →
                Analyzer.count (Analyzer.github e) = 0%float) ∧
    (∀ message, (settled i).2 = Throw message →
                Analyzer.count (Analyzer.stackoverflow e) = 0%float) ∧
    (∀ data fromCache, (settled i).1 = Ok (data, fromCache) →
       Analyzer.count (Analyzer.github e)
       = JSNumber.or0 (Providers.dataCount data)) ∧
    (∀ data fromCache, (settled i).2 = Ok (data, fromCache) →
       Analyzer.count (Analyzer.stackoverflow e)
       = JSNumber.or0 (Providers.dataCount data)).
Proof.
  intros out. subst out. unfold Analyzer.addEvidenceToGaps. split.
  - rewrite fmap_imap. unfold compose. simpl.
    revert settled. induction gaps as [|g gaps IH]; intros settled; [done|].
    simpl. f_equal. apply (IH (λ i, settled (S i))).
  - intros i g Hi. apply list_lookup_imap_Some in Hi as (g0 & Hg0 & ->).
    simpl. apply evidenceOf_settled.
Qed.

Lemma addEvidenceToGaps_gaps {G : Type} (skillOf : G → string)
    (settled : Analyzer.Settled) (gaps : list G) (track : string) :
  Analyzer.gap <$> Analyzer.addEvidenceToGaps skillOf settled gaps track
  = gaps.
Proof.
  unfold Analyzer.addEvidenceToGaps. rewrite fmap_imap. unfold compose. simpl.
  revert settled. induction gaps as [|g gaps IH]; intros settled; [done|].
  simpl. f_equal. apply (IH (λ i, settled (S i))).
Qed.

(** ** Sorted gaps *)

Lemma sortGaps_Permutation {G : Type} (weightOf : G → Z)
    (gaps : list (Analyzer.WithEvidence G)) (sortBy : string) :
  Analyzer.sortGaps weightOf gaps sortBy ≡ₚ gaps.
Proof.
  unfold Analyzer.sortGaps.
  repeat case_decide; try done; apply sortWith_Permutation.
Qed.

(** [sortGaps] returns the same gaps whatever the criterion.  By
    [impact] they stand in order of weight, the heaviest first, and gaps
    of equal weight keep the order they had.  By [learning_order], and by
    any name that is none of the four criteria, the order is left as it
    is. *)
Theorem sortGaps_permutes_and_orders_by_impact {G : Type} (weightOf : G → Z)
    (gaps : list (Analyzer.WithEvidence G)) (sortBy : string) :
  let out := Analyzer.sortGaps weightOf gaps sortBy in
  let w g := weightOf (Analyzer.gap g) in
  out ≡ₚ gaps ∧
  (sortBy = Constants.SORT_OPTIONS.IMPACT →
   StronglySorted (λ a b, w b ≤ w a) out ∧
   ∀ n, filter (λ g, w g = n) out = filter (λ g, w g = n) gaps) ∧
  (sortBy ∉ [Constants.SORT_OPTIONS.IMPACT; Constants.SORT_OPTIONS.DEMAND;
             Constants.SORT_OPTIONS.QUICK_WINS] → out = gaps).
Proof.
  intros out w. subst out. split_and!.
  - apply sortGaps_Permutation.
  - intros ->. unfold Analyzer.sortGaps. rewrite decide_True by done. split.
    + by apply (sortWith_sorted _ w).
    + intros n. by apply (sortWith_stable _ w).
  - intros Hnot. unfold Analyzer.sortGaps.
    rewrite (decide_False (P := sortBy = Constants.SORT_OPTIONS.IMPACT))
      by set_solver.
    rewrite (decide_False (P := sortBy = Constants.SORT_OPTIONS.DEMAND))
      by set_solver.
    destruct (decide (sortBy = Constants.SORT_OPTIONS.LEARNING_ORDER));
      [done|].
    by rewrite decide_False by set_solver.
Qed.

End Analyzer.

(** ** The reports of the analyzer *)

(** The core skills have no name that a plain object inherits, and the
    tracks of the catalog are the three of [CONSTANTS.TRACKS]. *)
Lemma catalogs_no_inherited_name :
  Forall (λ s, Roadmaps.name s ∉ JS.Object_prototype_names)
    Roadmaps.coreSkills_frontend ∧
  Forall (λ s, Roadmaps.name s ∉ JS.Object_prototype_names)
    Roadmaps.coreSkills_backend ∧
  Forall (λ s, Roadmaps.name s ∉ JS.Object_prototype_names)
    Roadmaps.coreSkills_fullstack.
Proof. split_and!; apply (bool_decide_unpack _); by vm_compute. Qed.

Lemma lookup_three_key {A} (k1 k2 k3 : string) (v1 v2 v3 v : A)
    (k : string) :
  (list_to_map [(k1, v1); (k2, v2); (k3, v3)] : gmap string A) !! k = Some v →
  k ∈ [k1; k2; k3].
Proof.
  intros H. apply elem_of_list_to_map_2 in H.
  apply elem_of_cons in H as [[= -> _]|H]; [by left|].
  apply elem_of_cons in H as [[= -> _]|H]; [by right; left|].
  apply elem_of_cons in H as [[= -> _]|H]; [by right; right; left|].
  by apply elem_of_nil in H.
Qed.

Lemma ROADMAPS_tracks (track : string) :
  is_Some (Roadmaps.ROADMAPS !! track) → track ∈ Constants.TRACKS.values.
Proof. intros [roadmap Hr]. by apply lookup_three_key in Hr. Qed.

Lemma TRACKS_getCoreSkills track :
  track ∈ Constants.TRACKS.values →
  ∃ core, Roadmaps.getCoreSkills track = Ok (Some core) ∧ core ≠ [].
Proof.
  unfold Constants.TRACKS.values. intros Hin.
  apply elem_of_cons in Hin as [->|Hin];
    [by eexists; split; [vm_compute; reflexivity|]|].
  apply elem_of_cons in Hin as [->|Hin];
    [by eexists; split; [vm_compute; reflexivity|]|].
  apply list_elem_of_singleton in Hin as ->.
  by eexists; split; [vm_compute; reflexivity|].
Qed.

Lemma getCoreSkills_track track core :
  Roadmaps.getCoreSkills track = Ok (Some core) →
  track ∈ Constants.TRACKS.values.
Proof.
  unfold Roadmaps.getCoreSkills, Roadmaps.getCoreSkillsIn.
  destruct (Roadmaps.ROADMAPS !! track) as [roadmap|] eqn:Hr;
    [|by case_decide].
  intros _. by apply ROADMAPS_tracks.
Qed.

(** On a track of the catalog every core skill reads an array of
    prerequisites. *)
Lemma getCoreSkills_readable (engine : Engine.t) track core :
  Roadmaps.getCoreSkills track = Ok (Some core) →
  ∀ s, s ∈ core →
       readError engine Prerequisites.PREREQUISITES track (Roadmaps.name s)
       = None.
Proof.
  intros Hcore s Hs.
  rewrite readError_tracks by (by apply (getCoreSkills_track track core)).
  rewrite decide_False; [done|].
  destruct catalogs_no_inherited_name as (Hf & Hb & Hfs).
  destruct (getCoreSkills_catalog track core Hcore) as [->|[->| ->]].
  - by apply (proj1 (Forall_forall _ _) Hf).
  - by apply (proj1 (Forall_forall _ _) Hb).
  - by apply (proj1 (Forall_forall _ _) Hfs).
Qed.

Lemma getLearningOrderIn_Permutation (engine : Engine.t)
    (P : gmap string (gmap string (list string))) track l :
  NoDup l → (∀ s, s ∈ l → readError engine P track s = None) →
  ∃ out, Prerequisites.getLearningOrderIn engine P track l = Ok out ∧
         out ≡ₚ l.
Proof.
  intros Hnd Hread.
  unfold Prerequisites.getLearningOrderIn.
  destruct (Prerequisites.trackPrereqsOf P track) as [t|] eqn:Ht.
  - rewrite (getLearningOrderRun_reads engine P track t l Ht Hread).
    eexists. split; [reflexivity|]. simpl.
    destruct (loop_total (arraysOf t) l _ 0 _ (initial_Inv (arraysOf t) l)
                (fuel_suffices l)) as [Hp _].
    by rewrite Hp, Set_from_distinct.
  - unfold Prerequisites.getLearningOrderRun. rewrite Ht. by exists l.
Qed.

Lemma getSuggestedNextIn_3 (engine : Engine.t)
    (P : gmap string (gmap string (list string))) track currentSkills gaps :
  (∀ g, g ∈ gaps → readError engine P track g = None) →
  Prerequisites.getSuggestedNextIn engine P track currentSkills gaps 3
  = Ok (take 3 (omap (suggestionFor engine P track currentSkills) gaps)).
Proof. intros Hread. by rewrite getSuggestedNextIn_readable. Qed.

Section Reports.
Import Roadmaps.
Variable engine : Engine.t.
Variable R : gmap string Roadmap.
Variable P : gmap string (gmap string (list string)).
Variable track : string.
Variable core : list Skill.
Hypothesis Hcore : getCoreSkillsIn R track = Ok (Some core).

Local Abbreviation lower := (Engine.toLowerCase engine).
Local Abbreviation mkGap :=
  (λ n, {| ValidationService.skill := n;
           ValidationService.weight := weightIn engine core n |}).
Local Abbreviation heavier :=
  (λ a b, Analyzer.heavier_after (ValidationService.weight a)
                                 (ValidationService.weight b)).

Lemma skill_mkGap (l : list string) :
  ValidationService.skill <$> (mkGap <$> l) = l.
Proof.
  rewrite <- list_fmap_compose. by rewrite <- (list_fmap_id l) at 2.
Qed.

Lemma findKeepSharpSkillsIn_Ok strongSkills coreSkillNames :
  Analyzer.findKeepSharpSkillsIn engine R track strongSkills coreSkillNames
  = Ok (JSArray.sortWith heavier
          (mkGap <$> filter
                       (λ s, lower s ∈ lower <$> coreSkillNames)
                       strongSkills)).
Proof.
  unfold Analyzer.findKeepSharpSkillsIn.
  rewrite (mapM_weights engine R track core) by done. simpl. do 3 f_equal.
  apply list_filter_iff. intros s. by rewrite elem_of_list_to_set.
Qed.

Local Abbreviation gapsOf := (gapsOf engine core).

Lemma sortedGaps_skills settled userSkills sortBy :
  (λ g, ValidationService.skill (Analyzer.gap g))
  <$> Analyzer.sortGaps ValidationService.weight
        (Analyzer.addEvidenceToGaps ValidationService.skill settled
           (gapsOf userSkills) track) sortBy
  ≡ₚ filter
       (λ c, lower c
             ∉ lower <$> (ValidationService.userSkillName <$> userSkills))
       (name <$> core).
Proof.
  rewrite sortGaps_Permutation.
  rewrite (list_fmap_compose Analyzer.gap ValidationService.skill).
  rewrite addEvidenceToGaps_gaps. unfold gapsOf. by rewrite skill_mkGap.
Qed.

Hypothesis Hnames : NoDup (name <$> core).
Hypothesis Hread :
  ∀ s, s ∈ core → readError engine P track (name s) = None.

Lemma validateSkillsIn_Ok settled userSkills sortBy :
  let sortBy' := default Constants.SORT_OPTIONS.IMPACT sortBy in
  let sorted :=
    Analyzer.sortGaps ValidationService.weight
      (Analyzer.addEvidenceToGaps ValidationService.skill settled
         (gapsOf userSkills) track) sortBy' in
  let learned := ValidationService.userSkillName <$> userSkills in
  ∃ keepSharp order,
    Analyzer.findKeepSharpSkillsIn engine R track
      (Analyzer.strong (Analyzer.categorizeUserSkills userSkills))
      (name <$> core) = Ok keepSharp ∧
    order ≡ₚ (λ g, ValidationService.skill (Analyzer.gap g)) <$> sorted ∧
    Analyzer.validateSkillsIn engine R P settled track userSkills sortBy
    = Ok {| Analyzer.track := track;
            Analyzer.totalCoreSkills := length (name <$> core);
            Analyzer.userSkillCount := length userSkills;
            Analyzer.gapCount := length (gapsOf userSkills);
            Analyzer.coveragePercent :=
              ValidationService.coveragePercentOf
                (length (gapsOf userSkills)) (length (name <$> core));
            Analyzer.sortedGaps := sorted;
            Analyzer.keepSharp := keepSharp;
            Analyzer.learningOrder := order;
            Analyzer.suggestedNext :=
              take 3 (omap (suggestionFor engine P track learned) order);
            Analyzer.sortedBy := sortBy';
            Analyzer.roadmapVersion := CONSTANTS.ROADMAP_VERSION |}.
Proof.
  intros sortBy' sorted learned.
  pose proof (sortedGaps_skills settled userSkills sortBy') as Hskills.
  fold sorted in Hskills.
  assert (NoDup ((λ g, ValidationService.skill (Analyzer.gap g))
                 <$> sorted)) as Hnd.
  { rewrite Hskills. by apply NoDup_filter. }
  assert (∀ s, s ∈ (λ g, ValidationService.skill (Analyzer.gap g))
                   <$> sorted →
               readError engine P track s = None) as Hgaps.
  { intros s Hs. rewrite Hskills in Hs.
    apply list_elem_of_filter in Hs as [_ Hs].
    apply list_elem_of_fmap in Hs as (c & -> & Hc). by apply Hread. }
  destruct (getLearningOrderIn_Permutation engine P track _ Hnd Hgaps)
    as (order & Horder & Hperm).
  eexists _, order. split; [apply findKeepSharpSkillsIn_Ok|].
  split; [exact Hperm|].
  unfold Analyzer.validateSkillsIn. rewrite Hcore. cbn [bind].
  rewrite (findGapsIn_Ok engine R track core) by done. cbn [bind].
  rewrite findKeepSharpSkillsIn_Ok. cbn [bind].
  fold sortBy'. fold (gapsOf userSkills). fold sorted.
  rewrite Horder. cbn [bind].
  rewrite getSuggestedNextIn_3.
  2:{ intros g Hg. apply Hgaps. by rewrite <- Hperm. }
  done.
Qed.

Hypothesis Hweights : Forall (λ s, 1 ≤ weight s ≤ 10) core.

Lemma weightIn_core n :
  lower n ∈ lower <$> (name <$> core) →
  1 ≤ weightIn engine core n ≤ 10.
Proof.
  intros Hin. unfold weightIn.
  destruct (findSkill_is_Some engine core n Hin) as [s Hs]. rewrite Hs.
  apply findSkill_Some in Hs as [Hs _].
  rewrite Forall_forall in Hweights. by apply Hweights.
Qed.

Lemma keepSharp_spec userSkills keepSharp :
  Analyzer.findKeepSharpSkillsIn engine R track
    (Analyzer.strong (Analyzer.categorizeUserSkills userSkills))
    (name <$> core) = Ok keepSharp →
  StronglySorted
    (λ a b, ValidationService.weight b ≤ ValidationService.weight a)
    keepSharp ∧
  ∀ k, k ∈ keepSharp →
    (∃ u, u ∈ userSkills ∧
          ValidationService.userSkillName u = ValidationService.skill k ∧
          ValidationService.proficiency u
          = Constants.PROFICIENCY_LEVELS.STRONG) ∧
    lower (ValidationService.skill k) ∈ lower <$> (name <$> core) ∧
    ValidationService.weight k
    = weightIn engine core (ValidationService.skill k) ∧
    1 ≤ ValidationService.weight k ≤ 10 ∧
    ValidationService.skill k
    ∉ ValidationService.skill <$> gapsOf userSkills.
Proof.
  rewrite findKeepSharpSkillsIn_Ok. intros [= <-]. split.
  - by apply (sortWith_sorted _ ValidationService.weight).
  - intros k Hk. rewrite sortWith_Permutation in Hk.
    apply list_elem_of_fmap in Hk as (n & -> & Hn). simpl.
    apply list_elem_of_filter in Hn as [Hin Hn].
    unfold Analyzer.categorizeUserSkills in Hn. simpl in Hn.
    apply list_elem_of_fmap in Hn as (u & -> & Hu).
    apply list_elem_of_filter in Hu as [Hstrong Hu].
    split_and!.
    + by exists u.
    + done.
    + done.
    + by apply weightIn_core.
    + by apply weightIn_core.
    + unfold gapsOf. rewrite skill_mkGap. intros Hgap.
      apply list_elem_of_filter in Hgap as [Hnot _]. apply Hnot.
      by apply list_elem_of_fmap_2, list_elem_of_fmap_2.
Qed.

Lemma known_or_gap userSkills :
  (length (gapsOf userSkills)
   + length (filter
               (λ c, lower c
                     ∈ lower
                       <$> (ValidationService.userSkillName <$> userSkills))
               (name <$> core)))%nat
  = length core.
Proof.
  unfold gapsOf. rewrite length_fmap, <- (length_fmap name core).
  generalize (name <$> core). intros l.
  induction l as [|c l IH]; [done|]. rewrite !filter_cons.
  destruct (decide (lower c
                    ∈ lower
                      <$> (ValidationService.userSkillName <$> userSkills)))
    as [Hin|Hout].
  - rewrite decide_False by tauto. simpl. lia.
  - rewrite decide_True by done. simpl. lia.
Qed.

(** The report of [validateSkills] over a catalog without a repeated
    name, whose skills read arrays of prerequisites and weigh between 1
    and 10. *)
Lemma validateSkillsIn_report settled userSkills sortBy :
  let known c :=
    lower c ∈ lower <$> (ValidationService.userSkillName <$> userSkills) in
  ∃ r,
    Analyzer.validateSkillsIn engine R P settled track userSkills sortBy
    = Ok r ∧
    Analyzer.track r = track ∧
    Analyzer.totalCoreSkills r = length core ∧
    Analyzer.userSkillCount r = length userSkills ∧
    Analyzer.gapCount r = length (gapsOf userSkills) ∧
    Analyzer.coveragePercent r
    = ValidationService.coveragePercentOf (Analyzer.gapCount r)
        (Analyzer.totalCoreSkills r) ∧
    Analyzer.sortedBy r = default Constants.SORT_OPTIONS.IMPACT sortBy ∧
    Analyzer.roadmapVersion r = CONSTANTS.ROADMAP_VERSION ∧
    Analyzer.gap <$> Analyzer.sortedGaps r ≡ₚ gapsOf userSkills ∧
    Analyzer.gapCount r = length (Analyzer.sortedGaps r) ∧
    (Analyzer.gapCount r + length (filter known (name <$> core)))%nat
    = Analyzer.totalCoreSkills r ∧
    Analyzer.learningOrder r
    ≡ₚ (λ g, ValidationService.skill (Analyzer.gap g))
       <$> Analyzer.sortedGaps r ∧
    (length (Analyzer.suggestedNext r) ≤ 3)%nat ∧
    (∀ s, s ∈ Analyzer.suggestedNext r →
          Prerequisites.skill s ∈ Analyzer.learningOrder r ∧
          ¬ known (Prerequisites.skill s)) ∧
    StronglySorted
      (λ a b, ValidationService.weight b ≤ ValidationService.weight a)
      (Analyzer.keepSharp r) ∧
    (∀ k, k ∈ Analyzer.keepSharp r →
       (∃ u, u ∈ userSkills ∧
             ValidationService.userSkillName u = ValidationService.skill k ∧
             ValidationService.proficiency u
             = Constants.PROFICIENCY_LEVELS.STRONG) ∧
       1 ≤ ValidationService.weight k ≤ 10 ∧
       ValidationService.skill k
       ∉ (λ g, ValidationService.skill (Analyzer.gap g))
         <$> Analyzer.sortedGaps r).
Proof.
  intros known.
  destruct (validateSkillsIn_Ok settled userSkills sortBy)
    as (keepSharp & order & Hkeep & Horder & Hr).
  eexists. split; [exact Hr|]. cbn.
  pose proof (sortedGaps_skills settled userSkills
                (default Constants.SORT_OPTIONS.IMPACT sortBy)) as Hskills.
  destruct (keepSharp_spec userSkills keepSharp Hkeep) as [Hsorted Hk].
  split_and!.
  - done.
  - by rewrite length_fmap.
  - done.
  - done.
  - done.
  - done.
  - done.
  - by rewrite sortGaps_Permutation, addEvidenceToGaps_gaps.
  - rewrite (Permutation_length
               (sortGaps_Permutation _ _ _)).
    rewrite <- (length_fmap Analyzer.gap).
    by rewrite addEvidenceToGaps_gaps.
  - rewrite length_fmap. apply known_or_gap.
  - exact Horder.
  - rewrite length_take. lia.
  - intros s Hs.
    apply elem_of_take in Hs as (i & Hs & _).
    apply list_elem_of_lookup_2 in Hs.
    apply list_elem_of_omap in Hs as (g & Hg & Hsg).
    apply suggestionFor_Some in Hsg as [-> _].
    split; [done|]. rewrite Horder, Hskills in Hg.
    by apply list_elem_of_filter in Hg as [Hg _].
  - exact Hsorted.
  - intros k Hin. destruct (Hk k Hin) as (Hu & _ & _ & Hw & Hgap).
    split; [done|]. split; [done|]. rewrite Hskills.
    unfold gapsOf in Hgap. by rewrite skill_mkGap in Hgap.
Qed.

End Reports.

(** *** [validateSkills] *)

(** On a recognized track [validateSkills] returns a report (it does not
    throw) whose parts agree.  It names the track, counts the core
    skills of the catalog and the skills of the user, and computes the
    percentage from its own counts.  The sorted gaps are the gaps
    [findGaps] finds, each once, and [gapCount] is their number; every
    core skill is a gap or is among the user's skills.  [learningOrder]
    lists exactly the gap skills, each once.  [suggestedNext] holds at
    most three suggestions, each for a gap skill.  [keepSharp] stands in
    order of weight, the heaviest first, and every skill in it is one
    the user gave as strong, is a core skill (its weight lies between 1
    and 10) and is not a gap. *)
Theorem validateSkills_report_is_consistent (engine : Engine.t)
    (settled : Analyzer.Settled)
    (track : string) (core : list Roadmaps.Skill)
    (userSkills : list ValidationService.UserSkill)
    (sortBy : option string) :
  Roadmaps.getCoreSkills track = Ok (Some core) →
  let lower := Engine.toLowerCase engine in
  let known c :=
    lower c ∈ lower <$> (ValidationService.userSkillName <$> userSkills) in
  ∃ r gaps,
    Analyzer.validateSkills engine settled track userSkills sortBy = Ok r ∧
    ValidationService.findGaps engine track
      (ValidationService.userSkillName <$> userSkills)
      (Roadmaps.name <$> core) = Ok gaps ∧
    Analyzer.track r = track ∧
    Analyzer.totalCoreSkills r = length core ∧
    Analyzer.userSkillCount r = length userSkills ∧
    Analyzer.gapCount r = length gaps ∧
    Analyzer.coveragePercent r
    = ValidationService.coveragePercentOf (Analyzer.gapCount r)
        (Analyzer.totalCoreSkills r) ∧
    Analyzer.sortedBy r = default Constants.SORT_OPTIONS.IMPACT sortBy ∧
    Analyzer.roadmapVersion r = CONSTANTS.ROADMAP_VERSION ∧
    Analyzer.gap <$> Analyzer.sortedGaps r ≡ₚ gaps ∧
    Analyzer.gapCount r = length (Analyzer.sortedGaps r) ∧
    (Analyzer.gapCount r
     + length (filter known (Roadmaps.name <$> core)))%nat
    = Analyzer.totalCoreSkills r ∧
    Analyzer.learningOrder r
    ≡ₚ (λ g, ValidationService.skill (Analyzer.gap g))
       <$> Analyzer.sortedGaps r ∧
    (length (Analyzer.suggestedNext r) ≤ 3)%nat ∧
    (∀ s, s ∈ Analyzer.suggestedNext r →
          Prerequisites.skill s ∈ Analyzer.learningOrder r ∧
          ¬ known (Prerequisites.skill s)) ∧
    StronglySorted
      (λ a b, ValidationService.weight b ≤ ValidationService.weight a)
      (Analyzer.keepSharp r) ∧
    (∀ k, k ∈ Analyzer.keepSharp r →
       (∃ u, u ∈ userSkills ∧
             ValidationService.userSkillName u = ValidationService.skill k ∧
             ValidationService.proficiency u
             = Constants.PROFICIENCY_LEVELS.STRONG) ∧
       1 ≤ ValidationService.weight k ≤ 10 ∧
       ValidationService.skill k
       ∉ (λ g, ValidationService.skill (Analyzer.gap g))
         <$> Analyzer.sortedGaps r).
Proof.
  intros Hcore lower known.
  destruct (validateSkillsIn_report engine Roadmaps.ROADMAPS
              Prerequisites.PREREQUISITES track core Hcore
              (NoDup_fmap_1 _ _ (getCoreSkills_distinct engine track core Hcore))
              (getCoreSkills_readable engine track core Hcore)
              (getCoreSkills_weights track core Hcore)
              settled userSkills sortBy)
    as (r & Hr & H1 & H2 & H3 & H4 & H5 & H6 & H7 & H8 & H9 & H10 & H11
        & H12 & H13 & H14 & H15).
  exists r, (gapsOf engine core userSkills).
  split; [exact Hr|].
  split; [by apply findGapsIn_Ok|].
  by split_and!.
Qed.

(** The counts of the report. *)
Lemma validateSkills_report_parts (engine : Engine.t)
    (settled : Analyzer.Settled)
    (track : string) (core : list Roadmaps.Skill)
    (userSkills : list ValidationService.UserSkill)
    (sortBy : option string) :
  Roadmaps.getCoreSkills track = Ok (Some core) →
  ∃ r,
    Analyzer.validateSkills engine settled track userSkills sortBy = Ok r ∧
    Analyzer.totalCoreSkills r = length core ∧
    Analyzer.gapCount r = length (gapsOf engine core userSkills) ∧
    (Analyzer.gapCount r ≤ Analyzer.totalCoreSkills r)%nat ∧
    Analyzer.coveragePercent r
    = ValidationService.coveragePercentOf (Analyzer.gapCount r)
        (Analyzer.totalCoreSkills r).
Proof.
  intros Hcore.
  destruct (validateSkillsIn_report engine Roadmaps.ROADMAPS
              Prerequisites.PREREQUISITES track core Hcore
              (NoDup_fmap_1 _ _ (getCoreSkills_distinct engine track core Hcore))
              (getCoreSkills_readable engine track core Hcore)
              (getCoreSkills_weights track core Hcore)
              settled userSkills sortBy)
    as (r & Hr & _ & Htotal & _ & Hcount & Hpercent & _ & _ & _ & _ & Hknown
        & _).
  exists r. split; [exact Hr|]. split; [done|]. split; [done|].
  split; [lia|done].
Qed.

Lemma validateSkills_report_is_consistent_witness :
  let userSkills :=
    [ {| ValidationService.userSkillName := "html";
         ValidationService.proficiency := "strong" |} ] in
  Roadmaps.getCoreSkills "frontend"
  = Ok (Some Roadmaps.coreSkills_frontend) ∧
  ∃ r,
    Analyzer.validateSkills Engine.example
      (λ _, (Throw "offline", Throw "offline"))
      "frontend" userSkills None = Ok r ∧
    Analyzer.totalCoreSkills r = 41%nat ∧
    Analyzer.gapCount r = 40%nat ∧
    ValidationService.skill <$> Analyzer.keepSharp r = ["html"] ∧
    (length (Analyzer.suggestedNext r) ≤ 3)%nat.
Proof.
  intros userSkills.
  assert (Roadmaps.getCoreSkills "frontend"
          = Ok (Some Roadmaps.coreSkills_frontend))
    as Hc by (vm_compute; reflexivity).
  split; [exact Hc|].
  destruct (validateSkills_report_is_consistent Engine.example
              (λ _, (Throw "offline", Throw "offline"))
              "frontend" Roadmaps.coreSkills_frontend userSkills None Hc)
    as (r & gaps & Hr & _ & _ & Htotal & _ & _ & _ & _ & _ & _ & _ & _ & _
        & Hlen & _).
  exists r. split; [exact Hr|]. split; [exact Htotal|].
  split; [|split; [|exact Hlen]].
  - pose proof Hr as Hr'. vm_compute in Hr'. injection Hr' as <-.
    reflexivity.
  - pose proof Hr as Hr'. vm_compute in Hr'. injection Hr' as <-.
    reflexivity.
Defined.

(** *** [validateFullstack] *)

Lemma filter_three_ways {A} (Q1 Q2 : A → Prop)
    `{∀ x, Decision (Q1 x)} `{∀ x, Decision (Q2 x)} (l : list A) :
  filter Q1 l ++ filter (λ x, ¬ Q1 x ∧ Q2 x) l
  ++ filter (λ x, ¬ Q1 x ∧ ¬ Q2 x) l ≡ₚ l.
Proof.
  induction l as [|x l IH]; [done|]. rewrite !filter_cons.
  destruct (decide (Q1 x)) as [H1|H1], (decide (Q2 x)) as [H2|H2].
  - rewrite !decide_False by tauto. simpl. by rewrite IH.
  - rewrite !decide_False by tauto. simpl. by rewrite IH.
  - rewrite decide_True, decide_False by tauto. simpl.
    rewrite <- Permutation_middle. by rewrite IH.
  - rewrite decide_False, decide_True by tauto.
    rewrite app_assoc, <- Permutation_middle, <- app_assoc. by rewrite IH.
Qed.

Lemma filter_all {A} (Q : A → Prop) `{∀ x, Decision (Q x)} (l : list A) :
  (∀ x, x ∈ l → Q x) → filter Q l = l.
Proof.
  induction l as [|x l IH]; intros Hall; [done|].
  rewrite filter_cons_True by (apply Hall; left).
  f_equal. apply IH. intros y Hy. apply Hall. by right.
Qed.

Lemma filter_own_part {A B} `{EqDecision B} (f : A → B) (l1 l l2 : list A) :
  NoDup (f <$> (l1 ++ l ++ l2)) →
  filter (λ x, f x ∈ f <$> l) (l1 ++ l ++ l2) = l.
Proof.
  rewrite !fmap_app. intros Hnd.
  apply NoDup_app in Hnd as (Hn1 & Hd1 & Hnd).
  apply NoDup_app in Hnd as (Hn & Hd & Hn2).
  rewrite !filter_app.
  assert (filter (λ x, f x ∈ f <$> l) l1 = []) as ->.
  { apply elem_of_nil_inv. intros x Hx.
    apply list_elem_of_filter in Hx as [Hin Hx].
    apply (Hd1 (f x)); [by apply list_elem_of_fmap_2|].
    apply elem_of_app. by left. }
  assert (filter (λ x, f x ∈ f <$> l) l2 = []) as ->.
  { apply elem_of_nil_inv. intros x Hx.
    apply list_elem_of_filter in Hx as [Hin Hx].
    apply (Hd (f x)); [done|]. by apply list_elem_of_fmap_2. }
  rewrite app_nil_r. simpl. apply filter_all.
  intros x Hx. by apply list_elem_of_fmap_2.
Qed.

Lemma fmap_filter_gap {G} (Q : Analyzer.WithEvidence G → Prop) (Q' : G → Prop)
    `{∀ x, Decision (Q x)} `{∀ x, Decision (Q' x)}
    (l : list (Analyzer.WithEvidence G)) :
  (∀ g, Q g ↔ Q' (Analyzer.gap g)) →
  Analyzer.gap <$> filter Q l = filter Q' (Analyzer.gap <$> l).
Proof.
  intros HQ. induction l as [|g l IH]; [done|].
  rewrite fmap_cons, !filter_cons.
  destruct (decide (Q g)) as [Hg|Hg].
  - rewrite decide_True by (by apply HQ). rewrite fmap_cons. by rewrite IH.
  - rewrite decide_False by (by rewrite <- HQ). done.
Qed.

Lemma named_in_spec (sectionGaps : list Analyzer.SectionGap) g :
  Analyzer.named_in sectionGaps g = true ↔
  Analyzer.skill (Analyzer.gap g) ∈ Analyzer.skill <$> sectionGaps.
Proof.
  unfold Analyzer.named_in. rewrite existsb_exists. split.
  - intros (sg & Hsg & Heq). apply bool_decide_eq_true in Heq.
    rewrite <- Heq. by apply list_elem_of_fmap_2, list_elem_of_In.
  - intros Hin. apply list_elem_of_fmap in Hin as (sg & Heq & Hsg).
    exists sg. split; [by apply list_elem_of_In|].
    by apply bool_decide_eq_true.
Qed.

Lemma fullstackGaps_skills (engine : Engine.t) (l : list Roadmaps.Skill)
    allUserSkillNames :
  Analyzer.skill <$> Analyzer.fullstackGaps engine l allUserSkillNames
  = filter
      (λ c, Engine.toLowerCase engine c
            ∉ Engine.toLowerCase engine <$> allUserSkillNames)
      (Roadmaps.name <$> l).
Proof.
  unfold Analyzer.fullstackGaps. rewrite <- list_fmap_compose.
  induction l as [|s l IH]; [done|].
  rewrite fmap_cons, !filter_cons. simpl.
  destruct (decide (Engine.toLowerCase engine (Roadmaps.name s)
                    ∉ Engine.toLowerCase engine <$> allUserSkillNames))
    as [Hn|Hy].
  - rewrite decide_True by (by rewrite elem_of_list_to_set).
    rewrite fmap_cons. simpl. f_equal. apply IH.
  - rewrite decide_False by (by rewrite elem_of_list_to_set). apply IH.
Qed.

Section ReportOfValidateFullstack.
Import Roadmaps.
Variable engine : Engine.t.
Variable R : gmap string Roadmap.
Variable core : list Skill.
Hypothesis Hcore : getCoreSkillsIn R "fullstack" = Ok (Some core).
Hypothesis Hnames : NoDup (name <$> core).

Lemma validateFullstackIn_report settled userSkills sortBy :
  let known c :=
    Engine.toLowerCase engine c
    ∈ Engine.toLowerCase engine
      <$> (ValidationService.userSkillName <$> userSkills) in
  let skillsOf (s : Analyzer.Section_) :=
    (λ g, Analyzer.skill (Analyzer.gap g)) <$> Analyzer.gaps s in
  let sectionOf (s : Analyzer.Section_) :=
    (λ g, Analyzer.section (Analyzer.gap g)) <$> Analyzer.gaps s in
  ∃ r,
    Analyzer.validateFullstackIn engine R settled userSkills sortBy = Ok r ∧
    Analyzer.fsTrack r = "fullstack" ∧
    Analyzer.fsTotalCoreSkills r = length core ∧
    Analyzer.fsUserSkillCount r = length userSkills ∧
    Analyzer.fsCoveragePercent r
    = ValidationService.coveragePercentOf (Analyzer.fsGapCount r)
        (length core) ∧
    let f := Analyzer.frontend (Analyzer.sections r) in
    let b := Analyzer.backend (Analyzer.sections r) in
    let o := Analyzer.both (Analyzer.sections r) in
    Analyzer.count_ f = length (Analyzer.gaps f) ∧
    Analyzer.count_ b = length (Analyzer.gaps b) ∧
    Analyzer.count_ o = length (Analyzer.gaps o) ∧
    (Analyzer.count_ f + Analyzer.count_ b + Analyzer.count_ o)%nat
    = Analyzer.fsGapCount r ∧
    skillsOf f ++ skillsOf b ++ skillsOf o
    ≡ₚ filter (λ c, ¬ known c) (name <$> core) ∧
    Forall (λ s, s = Some "frontend") (sectionOf f) ∧
    Forall (λ s, s = Some "backend") (sectionOf b) ∧
    Forall (λ s, s ≠ Some "frontend" ∧ s ≠ Some "backend") (sectionOf o) ∧
    (∀ g, g ∈ Analyzer.gaps f ++ Analyzer.gaps b ++ Analyzer.gaps o →
          ∃ s, s ∈ core ∧ name s = Analyzer.skill (Analyzer.gap g) ∧
               weight s = Analyzer.weight (Analyzer.gap g) ∧
               section s = Analyzer.section (Analyzer.gap g)).
Proof.
  intros known skillsOf sectionOf.
  unfold Analyzer.validateFullstackIn. rewrite Hcore. cbn [bind].
  set (names := ValidationService.userSkillName <$> userSkills).
  set (pushed := Analyzer.fullstackGaps engine core names).
  set (F := filter (λ g, Analyzer.section g = Some "frontend") pushed).
  set (B := filter (λ g, Analyzer.section g ≠ Some "frontend"
                         ∧ Analyzer.section g = Some "backend") pushed).
  set (O := filter (λ g, Analyzer.section g ≠ Some "frontend"
                         ∧ Analyzer.section g ≠ Some "backend") pushed).
  set (gwe := Analyzer.addEvidenceToGaps Analyzer.skill settled
                (F ++ B ++ O) "fullstack").
  assert (F ++ B ++ O ≡ₚ pushed) as Hperm.
  { apply (filter_three_ways
             (λ g, Analyzer.section g = Some "frontend")
             (λ g, Analyzer.section g = Some "backend")). }
  assert (NoDup (Analyzer.skill <$> (F ++ B ++ O))) as Hnd.
  { rewrite Hperm. unfold pushed. rewrite fullstackGaps_skills.
    by apply NoDup_filter. }
  assert (Analyzer.gap <$> gwe = F ++ B ++ O) as Hgwe
    by apply addEvidenceToGaps_gaps.
  assert (Analyzer.gap
          <$> filter (λ g, Analyzer.named_in F g = true) gwe = F) as HF.
  { rewrite (fmap_filter_gap _
               (λ g, Analyzer.skill g ∈ Analyzer.skill <$> F))
      by apply named_in_spec.
    rewrite Hgwe. by apply (filter_own_part Analyzer.skill []). }
  assert (Analyzer.gap
          <$> filter (λ g, Analyzer.named_in B g = true) gwe = B) as HB.
  { rewrite (fmap_filter_gap _
               (λ g, Analyzer.skill g ∈ Analyzer.skill <$> B))
      by apply named_in_spec.
    rewrite Hgwe. by apply (filter_own_part Analyzer.skill F B O). }
  assert (Analyzer.gap
          <$> filter (λ g, Analyzer.named_in O g = true) gwe = O) as HO.
  { rewrite (fmap_filter_gap _
               (λ g, Analyzer.skill g ∈ Analyzer.skill <$> O))
      by apply named_in_spec.
    rewrite Hgwe.
    replace (F ++ B ++ O) with ((F ++ B) ++ O ++ [])
      by (by rewrite app_nil_r, <- app_assoc).
    apply (filter_own_part Analyzer.skill (F ++ B) O []).
    by rewrite app_nil_r, <- app_assoc. }
  eexists. split; [reflexivity|]. cbn. fold names pushed F B O gwe.
  subst skillsOf sectionOf. cbn.
  rewrite !(Permutation_length (sortGaps_Permutation _ _ _)).
  split_and!; try done.
  - rewrite <- !(length_fmap Analyzer.gap), HF, HB, HO.
    rewrite !length_app. lia.
  - rewrite !sortGaps_Permutation.
    rewrite !(list_fmap_compose Analyzer.gap Analyzer.skill), HF, HB, HO.
    rewrite <- !fmap_app, Hperm. unfold pushed.
    by rewrite fullstackGaps_skills.
  - rewrite sortGaps_Permutation.
    rewrite (list_fmap_compose Analyzer.gap Analyzer.section), HF.
    apply Forall_fmap, Forall_forall. intros g Hg.
    by apply list_elem_of_filter in Hg as [Hg _].
  - rewrite sortGaps_Permutation.
    rewrite (list_fmap_compose Analyzer.gap Analyzer.section), HB.
    apply Forall_fmap, Forall_forall. intros g Hg.
    by apply list_elem_of_filter in Hg as [[_ Hg] _].
  - rewrite sortGaps_Permutation.
    rewrite (list_fmap_compose Analyzer.gap Analyzer.section), HO.
    apply Forall_fmap, Forall_forall. intros g Hg.
    by apply list_elem_of_filter in Hg as [Hg _].
  - intros g Hg. rewrite !sortGaps_Permutation in Hg.
    assert (Analyzer.gap g ∈ F ++ B ++ O) as Hin.
    { rewrite <- HF, <- HB, <- HO, <- !fmap_app.
      by apply list_elem_of_fmap_2. }
    rewrite Hperm in Hin. unfold pushed, Analyzer.fullstackGaps in Hin.
    apply list_elem_of_fmap in Hin as (s & -> & Hs).
    apply list_elem_of_filter in Hs as [_ Hs]. by exists s.
Qed.

End ReportOfValidateFullstack.

Lemma fullstack_sections :
  Forall (λ s, Roadmaps.section s
               ∈ [Some "frontend"; Some "backend"; Some "both"])
    Roadmaps.coreSkills_fullstack.
Proof. apply (bool_decide_unpack _). by vm_compute. Qed.

Lemma validateFullstack_Ok (engine : Engine.t) settled userSkills sortBy :
  ∃ r, Analyzer.validateFullstack engine settled userSkills sortBy = Ok r.
Proof.
  assert (Roadmaps.getCoreSkills "fullstack"
          = Ok (Some Roadmaps.coreSkills_fullstack)) as Hc
    by (vm_compute; reflexivity).
  unfold Analyzer.validateFullstack, Analyzer.validateFullstackIn.
  unfold Roadmaps.getCoreSkills in Hc. rewrite Hc. cbn [bind]. by eexists.
Qed.

(** [validateFullstack] returns a report (it does not throw) over the 41
    core skills of the fullstack catalog.  The gaps of its three sections
    are together the core skills that are not among the user's skills,
    each once, with the weight and the section the catalog gives them; a
    gap stands in the section its catalog entry names (frontend, backend
    or both); the [count] of a section is the number of its gaps, and the
    three counts add up to [gapCount], from which [coveragePercent] is
    computed. *)
Theorem validateFullstack_sections_partition_the_gaps
    (engine : Engine.t) (settled : Analyzer.Settled)
    (userSkills : list ValidationService.UserSkill)
    (sortBy : option string) :
  let known c :=
    Engine.toLowerCase engine c
    ∈ Engine.toLowerCase engine
      <$> (ValidationService.userSkillName <$> userSkills) in
  let core := Roadmaps.coreSkills_fullstack in
  let skillsOf (s : Analyzer.Section_) :=
    (λ g, Analyzer.skill (Analyzer.gap g)) <$> Analyzer.gaps s in
  let sectionOf (s : Analyzer.Section_) :=
    (λ g, Analyzer.section (Analyzer.gap g)) <$> Analyzer.gaps s in
  ∃ r,
    Analyzer.validateFullstack engine settled userSkills sortBy = Ok r ∧
    Analyzer.fsTrack r = "fullstack" ∧
    Analyzer.fsTotalCoreSkills r = 41%nat ∧
    Analyzer.fsUserSkillCount r = length userSkills ∧
    Analyzer.fsCoveragePercent r
    = ValidationService.coveragePercentOf (Analyzer.fsGapCount r) 41 ∧
    let f := Analyzer.frontend (Analyzer.sections r) in
    let b := Analyzer.backend (Analyzer.sections r) in
    let o := Analyzer.both (Analyzer.sections r) in
    Analyzer.count_ f = length (Analyzer.gaps f) ∧
    Analyzer.count_ b = length (Analyzer.gaps b) ∧
    Analyzer.count_ o = length (Analyzer.gaps o) ∧
    (Analyzer.count_ f + Analyzer.count_ b + Analyzer.count_ o)%nat
    = Analyzer.fsGapCount r ∧
    skillsOf f ++ skillsOf b ++ skillsOf o
    ≡ₚ filter (λ c, ¬ known c) (Roadmaps.name <$> core) ∧
    Forall (λ s, s = Some "frontend") (sectionOf f) ∧
    Forall (λ s, s = Some "backend") (sectionOf b) ∧
    Forall (λ s, s = Some "both") (sectionOf o) ∧
    (∀ g, g ∈ Analyzer.gaps f ++ Analyzer.gaps b ++ Analyzer.gaps o →
          ∃ s, s ∈ core ∧
               Roadmaps.name s = Analyzer.skill (Analyzer.gap g) ∧
               Roadmaps.weight s = Analyzer.weight (Analyzer.gap g) ∧
               Roadmaps.section s = Analyzer.section (Analyzer.gap g)).
Proof.
  intros known core skillsOf sectionOf.
  assert (Roadmaps.getCoreSkills "fullstack" = Ok (Some core)) as Hc
    by (vm_compute; reflexivity).
  destruct (validateFullstackIn_report engine Roadmaps.ROADMAPS core Hc
              (NoDup_fmap_1 _ _
                 (getCoreSkills_distinct engine "fullstack" core Hc))
              settled userSkills sortBy)
    as (r & Hr & H1 & H2 & H3 & H4 & H5 & H6 & H7 & H8 & H9 & H10 & H11
        & H12 & H13).
  exists r. split; [exact Hr|].
  subst skillsOf sectionOf. cbv zeta in *.
  split_and!; try done.
  apply Forall_forall. intros s Hs.
  pose proof (proj1 (Forall_forall _ _) H12 s Hs) as [Hnf Hnb].
  apply list_elem_of_fmap in Hs as (g & -> & Hg).
  destruct (H13 g) as (s & Hs & _ & _ & Hsec).
  { apply elem_of_app. right. apply elem_of_app. by right. }
  pose proof (proj1 (Forall_forall _ _) fullstack_sections s Hs) as Hin.
  simpl in Hin, Hnf, Hnb. rewrite Hsec in Hin.
  apply elem_of_cons in Hin as [Hin|Hin]; [done|].
  apply elem_of_cons in Hin as [Hin|Hin]; [done|].
  by apply list_elem_of_singleton in Hin.
Qed.

(** *** The percentage of [validateSkills] *)

(** C8.  Whenever [validateSkills] returns, [coveragePercent] is
    [(1 - gapCount / coreSkillCount) × 100] rounded to one decimal place,
    where [coreSkillCount], the number of core skills of the track, is at
    least 1 and [gapCount] is the number of gaps [findGaps] finds: no
    call divides by zero.  It returns for the three tracks of the
    catalog.  For every other track it throws before it counts
    anything: the error [Invalid track] of [getCoreSkills], or, for a
    name that the catalog only inherits, the [TypeError] of reading the
    core skills of [undefined]. *)
Theorem validateSkills_coveragePercent (engine : Engine.t)
    (settled : Analyzer.Settled) (track : string)
    (userSkills : list ValidationService.UserSkill)
    (sortBy : option string) :
  let result :=
    Analyzer.validateSkills engine settled track userSkills sortBy in
  (∀ r, result = Ok r →
        ∃ core gaps,
          Roadmaps.getCoreSkills track = Ok (Some core) ∧
          ValidationService.findGaps engine track
            (ValidationService.userSkillName <$> userSkills)
            (Roadmaps.name <$> core) = Ok gaps ∧
          Analyzer.totalCoreSkills r = length core ∧
          Analyzer.gapCount r = length gaps ∧
          (1 ≤ Analyzer.totalCoreSkills r)%nat ∧
          (Analyzer.gapCount r ≤ Analyzer.totalCoreSkills r)%nat ∧
          Analyzer.coveragePercent r
          = ValidationService.coveragePercent_exact (Analyzer.gapCount r)
              (Analyzer.totalCoreSkills r)) ∧
  (track ∈ Constants.TRACKS.values → ∃ r, result = Ok r) ∧
  (track ∉ Constants.TRACKS.values →
   result
   = Throw (if decide (track ∈ JS.Object_prototype_names)
            then "Cannot read properties of undefined (reading 'map')"
            else "Invalid track: " +:+ track)).
Proof.
  intros result.
  assert (∀ core, Roadmaps.getCoreSkills track = Ok (Some core) →
            ∃ r gaps,
              result = Ok r ∧
              ValidationService.findGaps engine track
                (ValidationService.userSkillName <$> userSkills)
                (Roadmaps.name <$> core) = Ok gaps ∧
              Analyzer.totalCoreSkills r = length core ∧
              Analyzer.gapCount r = length gaps ∧
              (1 ≤ Analyzer.totalCoreSkills r)%nat ∧
              (Analyzer.gapCount r ≤ Analyzer.totalCoreSkills r)%nat ∧
              Analyzer.coveragePercent r
              = ValidationService.coveragePercent_exact (Analyzer.gapCount r)
                  (Analyzer.totalCoreSkills r)) as Hreport.
  { intros core Hcore.
    destruct (validateSkills_report_parts engine settled track core
                userSkills sortBy Hcore)
      as (r & Hr & Htotal & Hcount & Hknown & Hpercent).
    exists r, (gapsOf engine core userSkills).
    pose proof (catalog_sizes track core Hcore) as Hsize.
    split; [exact Hr|]. split; [by apply findGapsIn_Ok|].
    split; [done|]. split; [done|].
    assert (1 ≤ Analyzer.totalCoreSkills r)%nat as Hpos.
    { rewrite Htotal.
      apply elem_of_cons in Hsize as [->|Hsize]; [lia|].
      apply list_elem_of_singleton in Hsize as ->. lia. }
    assert (Analyzer.gapCount r ≤ Analyzer.totalCoreSkills r)%nat
      as Hle by lia.
    split; [done|]. split; [done|].
    rewrite Hpercent. apply coveragePercentOf_exact; [|done].
    by rewrite Htotal. }
  split_and!.
  - intros r Hr.
    destruct (Roadmaps.getCoreSkills track) as [[core|]|message] eqn:Hcore.
    + destruct (Hreport core eq_refl) as (r' & gaps & Hr' & Hrest).
      rewrite Hr in Hr'. injection Hr' as <-. by exists core, gaps.
    + subst result. unfold Analyzer.validateSkills, Analyzer.validateSkillsIn in Hr.
      unfold Roadmaps.getCoreSkills in Hcore. by rewrite Hcore in Hr.
    + subst result. unfold Analyzer.validateSkills, Analyzer.validateSkillsIn in Hr.
      unfold Roadmaps.getCoreSkills in Hcore. by rewrite Hcore in Hr.
  - intros Hin. destruct (TRACKS_getCoreSkills track Hin) as (core & Hcore & _).
    destruct (Hreport core Hcore) as (r & _ & Hr & _). by exists r.
  - intros Hout.
    assert (Roadmaps.ROADMAPS !! track = None) as Hnone.
    { destruct (Roadmaps.ROADMAPS !! track) eqn:Hr; [|done].
      exfalso. apply Hout, ROADMAPS_tracks. by eexists. }
    subst result.
    unfold Analyzer.validateSkills, Analyzer.validateSkillsIn,
      Roadmaps.getCoreSkillsIn.
    rewrite Hnone. by case_decide.
Qed.

(** ** The controller *)

Section Controller.
Import ApiController.

Lemma includes_levels_truthy v :
  includes Constants.PROFICIENCY_LEVELS.values v = true → truthy v = true.
Proof.
  destruct v as [[| | |s| |]|]; simpl; try done.
  intros Hin. apply bool_decide_eq_true in Hin.
  apply negb_true_iff, bool_decide_eq_false. intros ->.
  unfold Constants.PROFICIENCY_LEVELS.values in Hin. set_solver.
Qed.

Lemma checkSkills_cons skill items :
  checkSkills (skill :: items) =
    match property skill "name", property skill "proficiency" with
    | Ok name, Ok proficiency =>
      if negb (truthy name) || negb (truthy proficiency) then
        Ok (Some (Error 400 "Invalid skill format"
                    "Each skill must have name and proficiency"))
      else if negb (includes Constants.PROFICIENCY_LEVELS.values
                      proficiency) then
        Ok (Some (Error 400 "Invalid proficiency level"
                    "Proficiency must be: beginner, intermediate, or strong"))
      else checkSkills items
    | Throw message, _ => Throw message
    | Ok _, Throw message => Throw message
    end.
Proof.
  simpl. destruct (property skill "name") as [name|m]; [|done]. simpl.
  by destruct (property skill "proficiency").
Qed.

Lemma property_Throw skill name message :
  property skill name = Throw message → skill = JNull.
Proof. by destruct skill. Qed.

Lemma checkSkills_passes skill items :
  passesChecks skill → checkSkills (skill :: items) = checkSkills items.
Proof.
  intros (name & proficiency & Hn & Htn & Hp & Hip).
  rewrite checkSkills_cons, Hn, Hp, Htn, (includes_levels_truthy _ Hip), Hip.
  done.
Qed.

Lemma checkSkills_fails skill items :
  ¬ passesChecks skill →
  skill = JNull ∧ (∃ message, checkSkills (skill :: items) = Throw message)
  ∨ ∃ error message,
      checkSkills (skill :: items) = Ok (Some (Error 400 error message)).
Proof.
  intros Hnot. rewrite checkSkills_cons.
  destruct (property skill "name") as [name|m] eqn:Hn.
  - destruct (property skill "proficiency") as [proficiency|m] eqn:Hp.
    + right. destruct (truthy name) eqn:Htn; simpl; [|by eexists _, _].
      destruct (truthy proficiency) eqn:Htp; simpl; [|by eexists _, _].
      destruct (includes _ proficiency) eqn:Hip; simpl; [|by eexists _, _].
      exfalso. apply Hnot. by exists name, proficiency.
    + left. split; [by eapply property_Throw|by eexists].
  - left. split; [by eapply property_Throw|by eexists].
Qed.

Lemma passesChecks_dec skill : {passesChecks skill} + {¬ passesChecks skill}.
Proof.
  unfold passesChecks.
  destruct (property skill "name") as [name|m] eqn:Hn;
    [|right; by intros (? & ? & [=] & _)].
  destruct (property skill "proficiency") as [proficiency|m] eqn:Hp;
    [|right; by intros (? & ? & _ & _ & [=] & _)].
  destruct (truthy name) eqn:Htn;
    [|right; intros (? & ? & [= <-] & Ht & _); congruence].
  destruct (includes Constants.PROFICIENCY_LEVELS.values proficiency) eqn:Hip;
    [|right; intros (? & ? & _ & _ & [= <-] & Hi); congruence].
  left. by exists name, proficiency.
Qed.

(** What the loop over the skills comes to. *)
Lemma checkSkills_spec items :
  (Forall passesChecks items ∧ checkSkills items = Ok None)
  ∨ (∃ before skill after,
       items = before ++ skill :: after ∧ Forall passesChecks before ∧
       ¬ passesChecks skill ∧
       (skill = JNull ∧ (∃ message, checkSkills items = Throw message)
        ∨ ∃ error message,
            checkSkills items = Ok (Some (Error 400 error message)))).
Proof.
  induction items as [|skill items IH]; [by left|].
  destruct (passesChecks_dec skill) as [Hpass|Hfail].
  - rewrite checkSkills_passes by done.
    destruct IH as [[Hall Hok]|(before & s & after & -> & Hb & Hs & Hres)].
    + left. split; [by constructor|done].
    + right. exists (skill :: before), s, after.
      split; [done|]. split; [by constructor|]. by split.
  - right. exists [], skill, items. split; [done|]. split; [done|].
    split; [done|]. by apply checkSkills_fails.
Qed.

Lemma userSkillOf_wellFormed skill :
  wellFormedSkill skill →
  ∃ u, userSkillOf skill = Ok u.
Proof.
  intros (name & proficiency & Hn & _ & Hp & _).
  unfold userSkillOf. rewrite Hn, Hp. simpl. by eexists.
Qed.

Lemma passes_wellFormed_or_noString skill :
  passesChecks skill →
  (wellFormedSkill skill ∧ ∃ u, userSkillOf skill = Ok u)
  ∨ (nameIsNoString skill ∧ ∃ message, userSkillOf skill = Throw message).
Proof.
  intros (name & proficiency & Hn & Htn & Hp & Hip).
  destruct proficiency as [[| | |p| |]|]; simpl in Hip; try done.
  apply bool_decide_eq_true in Hip.
  destruct name as [[| |x|n|l|o]|] eqn:Hname; simpl in Htn; try done.
  all: try (right; split;
            [exists name; subst name; split_and!; [done|done|by intros ?]
            |unfold userSkillOf; rewrite Hn, Hp; simpl; by eexists]).
  left. assert (wellFormedSkill skill) as Hwf.
  { exists n, p. split_and!; try done.
    intros ->. by rewrite bool_decide_eq_true_2 in Htn. }
  split; [done|]. by apply userSkillOf_wellFormed.
Qed.

Lemma wellFormed_passes skill : wellFormedSkill skill → passesChecks skill.
Proof.
  intros (name & proficiency & Hn & Hne & Hp & Hin).
  exists (Some (JString name)), (Some (JString proficiency)).
  split_and!; try done.
  - simpl. apply negb_true_iff. by apply bool_decide_eq_false.
  - simpl. by apply bool_decide_eq_true.
Qed.

Lemma wellFormed_not_noString skill :
  wellFormedSkill skill → ¬ nameIsNoString skill.
Proof.
  intros (name & proficiency & Hn & _) (v & Hv & _ & Hno).
  rewrite Hn in Hv. injection Hv as <-. by apply (Hno name).
Qed.

Lemma mapM_userSkillOf items :
  Forall passesChecks items →
  (Forall wellFormedSkill items ∧ ∃ us, mapM userSkillOf items = Ok us)
  ∨ (Exists nameIsNoString items
     ∧ ∃ message, mapM userSkillOf items = Throw message).
Proof.
  induction items as [|skill items IH]; intros Hall.
  { left. split; [done|by eexists]. }
  apply Forall_cons in Hall as [Hs Hall]. simpl.
  destruct (passes_wellFormed_or_noString skill Hs)
    as [[Hwf [u ->]]|[Hno [m ->]]]; simpl.
  - destruct (IH Hall) as [[Hwfs [us ->]]|[Hex [m ->]]]; simpl.
    + left. split; [by constructor|by eexists].
    + right. split; [by apply Exists_cons_tl|by eexists].
  - right. split; [by apply Exists_cons_hd|by eexists].
Qed.

Lemma service_Ok (engine : Engine.t) settled track userSkills sortBy :
  track ∈ Constants.TRACKS.values →
  (∃ r, Analyzer.validateSkills engine settled track userSkills sortBy
        = Ok r) ∧
  (∃ r, Analyzer.validateFullstack engine settled userSkills sortBy = Ok r).
Proof.
  intros Hin. split.
  - destruct (TRACKS_getCoreSkills track Hin) as (core & Hcore & _).
    destruct (validateSkills_report_parts engine settled track core
                userSkills sortBy Hcore) as (r & Hr & _).
    by exists r.
  - destruct (validateFullstack_Ok engine settled userSkills sortBy)
      as [r Hr].
    by exists r.
Qed.

Lemma checkSkills_JNull items :
  ∃ message, checkSkills (JNull :: items) = Throw message.
Proof. by eexists. Qed.

Lemma JNull_fails : ¬ passesChecks JNull.
Proof. by intros (? & ? & [=] & _). Qed.

Lemma checkSkills_app before items :
  Forall passesChecks before →
  checkSkills (before ++ items) = checkSkills items.
Proof.
  induction before as [|skill before IH]; intros Hall; [done|].
  apply Forall_cons in Hall as [Hs Hall]. simpl app.
  rewrite checkSkills_passes by done. by apply IH.
Qed.

Lemma checkSkills_None_iff items :
  checkSkills items = Ok None ↔ Forall passesChecks items.
Proof.
  split.
  - intros Hok.
    destruct (checkSkills_spec items)
      as [[Hall _]|(before & s & after & -> & Hb & Hs & Hres)]; [done|].
    rewrite Hok in Hres. by destruct Hres as [[_ [? [=]]]|(? & ? & [=])].
  - intros Hall. rewrite <- (app_nil_r items).
    by rewrite checkSkills_app.
Qed.

Lemma checkSkills_Throw_iff items :
  (∃ message, checkSkills items = Throw message) ↔
  ∃ before after,
    items = before ++ JNull :: after ∧ Forall passesChecks before.
Proof.
  split.
  - intros [m Hm].
    destruct (checkSkills_spec items)
      as [[_ Hok]|(before & s & after & -> & Hb & Hs & Hres)].
    { by rewrite Hm in Hok. }
    destruct Hres as [[-> _]|(? & ? & Hres)]; [by exists before, after|].
    by rewrite Hm in Hres.
  - intros (before & after & -> & Hb).
    rewrite checkSkills_app by done. apply checkSkills_JNull.
Qed.

Lemma checkSkills_Some items response :
  checkSkills items = Ok (Some response) → status response = 400.
Proof.
  intros Hsome.
  destruct (checkSkills_spec items)
    as [[_ Hok]|(before & s & after & -> & Hb & Hs & Hres)].
  { by rewrite Hsome in Hok. }
  rewrite Hsome in Hres.
  by destruct Hres as [[_ [? [=]]]|(? & ? & [= ->])].
Qed.

Lemma mapM_userSkillOf_iff items :
  Forall passesChecks items →
  ((∃ us, mapM userSkillOf items = Ok us) ↔ Forall wellFormedSkill items) ∧
  ((∃ message, mapM userSkillOf items = Throw message) ↔
   Exists nameIsNoString items).
Proof.
  intros Hall.
  destruct (mapM_userSkillOf items Hall)
    as [[Hwf [us Hus]]|[Hex [m Hm]]].
  - split; (split; [|rewrite Hus]).
    + done.
    + by eexists.
    + intros [m Hm]. by rewrite Hus in Hm.
    + intros Hex. exfalso. apply Exists_exists in Hex as (s & Hs & Hno).
      rewrite Forall_forall in Hwf.
      by apply (wellFormed_not_noString s (Hwf s Hs)).
  - split; (split; [|rewrite Hm]).
    + intros [us Hus]. by rewrite Hm in Hus.
    + intros Hwf. exfalso. apply Exists_exists in Hex as (s & Hs & Hno).
      rewrite Forall_forall in Hwf.
      by apply (wellFormed_not_noString s (Hwf s Hs)).
    + done.
    + by eexists.
Qed.

Lemma track_check body :
  negb (truthy (track body))
  || negb (includes Constants.TRACKS.values (track body)) = false ↔
  ∃ t, track body = Some (JString t) ∧ t ∈ Constants.TRACKS.values.
Proof.
  destruct (track body) as [[| | |t| |]|]; simpl; rewrite ?orb_true_r;
    try (split; [done|by intros (? & [=] & _)]).
  unfold JS.includes. split.
  - intros Hc. apply orb_false_iff in Hc as [_ Hin].
    apply negb_false_iff, bool_decide_eq_true in Hin. by exists t.
  - intros (t' & [= <-] & Hin). apply orb_false_iff. split.
    + apply negb_false_iff, negb_true_iff, bool_decide_eq_false.
      intros ->. unfold Constants.TRACKS.values in Hin. set_solver.
    + by apply negb_false_iff, bool_decide_eq_true.
Qed.

Lemma skills_check body :
  negb (truthy (skills body)) || negb (isArray (skills body))
  || bool_decide (length (itemsOf (skills body)) = 0%nat) = false ↔
  ∃ item items', skills body = Some (JArray (item :: items')).
Proof.
  destruct (skills body) as [[| | | |[|item items']|]|]; simpl;
    rewrite ?orb_true_r;
    try (split; [done|by intros (? & ? & [=])]).
  split; [by eexists _, _|done].
Qed.

End Controller.

Local Ltac status_in := repeat first [by left | right].

Lemma validateSkills_status_cases (engine : Engine.t)
    (settled : Analyzer.Settled) (body : ApiController.Body) :
  let response := ApiController.validateSkills engine settled body in
  let validTrack :=
    ∃ t, ApiController.track body = Some (ApiController.JString t) ∧
         t ∈ Constants.TRACKS.values in
  let nonEmptyArray :=
    ∃ item items',
      ApiController.skills body
      = Some (ApiController.JArray (item :: items')) in
  let items := ApiController.itemsOf (ApiController.skills body) in
  ApiController.status response ∈ [200; 400; 500] ∧
  (ApiController.status response = 200 ↔
   validTrack ∧ nonEmptyArray ∧ Forall wellFormedSkill items) ∧
  (ApiController.status response = 500 ↔
   validTrack ∧ nonEmptyArray ∧
   ((∃ before after,
       items = before ++ ApiController.JNull :: after ∧
       Forall passesChecks before)
    ∨ (Forall passesChecks items ∧ Exists nameIsNoString items))).
Proof.
  intros response validTrack nonEmptyArray items.
  subst response.
  unfold ApiController.validateSkills, ApiController.validateSkills_try.
  pose proof (track_check body) as Htrack. fold validTrack in Htrack.
  pose proof (skills_check body) as Hskills. fold nonEmptyArray in Hskills.
  destruct (negb (ApiController.truthy (ApiController.track body))
            || negb (ApiController.includes Constants.TRACKS.values
                       (ApiController.track body))) eqn:Hc1.
  { assert (¬ validTrack) as Hno by (intros Hv; by apply Htrack in Hv).
    simpl. split; [status_in|]. split; (split; [done|tauto]). }
  assert validTrack as Hvalid by (by apply Htrack).
  destruct (negb (ApiController.truthy (ApiController.skills body))
            || negb (ApiController.isArray (ApiController.skills body))
            || bool_decide
                 (length (ApiController.itemsOf (ApiController.skills body))
                  = 0%nat)) eqn:Hc2.
  { assert (¬ nonEmptyArray) as Hno by (intros Hv; by apply Hskills in Hv).
    simpl. split; [status_in|]. split; (split; [done|tauto]). }
  assert nonEmptyArray as Harray by (by apply Hskills).
  fold items.
  pose proof (checkSkills_None_iff items) as HNone.
  pose proof (checkSkills_Throw_iff items) as HThrow.
  destruct (ApiController.checkSkills items) as [[r400|]|m] eqn:Hcheck;
    cbn [bind].
  - pose proof (checkSkills_Some items r400 Hcheck) as H400.
    rewrite H400. split; [status_in|].
    assert (¬ Forall passesChecks items) as Hnp
      by (intros Hall; by apply HNone in Hall).
    assert (¬ ∃ before after,
              items = before ++ ApiController.JNull :: after ∧
              Forall passesChecks before) as Hnn
      by (intros Hex; by apply HThrow in Hex as [? [=]]).
    split; (split; [done|]).
    + intros (_ & _ & Hwf). exfalso. apply Hnp.
      eapply Forall_impl; [exact Hwf|]. apply wellFormed_passes.
    + intros (_ & _ & [Hex|[Hall _]]); tauto.
  - assert (Forall passesChecks items) as Hall by (by apply HNone).
    assert (¬ ∃ before after,
              items = before ++ ApiController.JNull :: after ∧
              Forall passesChecks before) as Hnn
      by (intros Hex; by apply HThrow in Hex as [? [=]]).
    destruct (mapM_userSkillOf_iff items Hall) as [HOk HTh].
    destruct (mapM ApiController.userSkillOf items) as [us|m] eqn:Hmap;
      cbn [bind].
    + assert (Forall wellFormedSkill items) as Hwf
        by (apply HOk; by eexists).
      assert (¬ Exists nameIsNoString items) as Hne
        by (intros Hex; by apply HTh in Hex as [? [=]]).
      destruct Hvalid as (t & Ht & Hin). rewrite Ht. simpl.
      destruct (service_Ok engine settled t us
                  (Some (Analyzer.sortBy_or_IMPACT
                           (ApiController.sortBy body))) Hin)
        as [[r1 Hr1] [r2 Hr2]].
      assert (validTrack) as Hvalid by (by exists t).
      rewrite Hr1, Hr2.
      destruct (decide (t = Constants.TRACKS.FULLSTACK)); simpl.
      all: split; [status_in|]; split; (split; [done|]).
      all: try (intros (_ & _ & [Hex|[_ Hex]]); tauto).
      all: done.
    + assert (Exists nameIsNoString items) as Hex
        by (apply HTh; by eexists).
      assert (¬ Forall wellFormedSkill items) as Hnw
        by (intros Hwf; by apply HOk in Hwf as [? [=]]).
      simpl. split; [status_in|]. split; split; try done.
      * tauto.
      * intros _. split_and!; [done|done|]. by right.
  - assert (∃ before after,
              items = before ++ ApiController.JNull :: after ∧
              Forall passesChecks before) as Hnull
      by (apply HThrow; by eexists).
    simpl. split; [status_in|]. split; split; try done.
    + intros (_ & _ & Hwf). exfalso.
      destruct Hnull as (before & after & Heq & _).
      rewrite Heq in Hwf. apply Forall_app in Hwf as [_ Hwf].
      apply Forall_cons in Hwf as [Hwf _].
      by apply JNull_fails, wellFormed_passes.
    + intros _. split_and!; [done|done|]. by left.
Qed.

(** The response of [validateSkills] has status 200, 400 or 500.  It is
    200 exactly when the track is one of the three tracks, the skills are
    a non-empty array, and every skill has a name that is a non-empty
    string and a proficiency that is one of the three levels.  It is 500
    exactly when the track and the array pass their checks and either a
    skill is [null] while every skill before it passes the checks, or
    every skill passes the checks and some name is not a string (a
    number, [true], an array or an object): the controller tests that a
    name is truthy, not that it is a string, and the analyzer then fails
    on it.  The analyzer never fails for another reason: no request
    reaches it with a track it does not know. *)
Theorem validateSkills_status (engine : Engine.t)
    (settled : Analyzer.Settled) (body : ApiController.Body) :
  let response := ApiController.validateSkills engine settled body in
  let validTrack :=
    ∃ t, ApiController.track body = Some (ApiController.JString t) ∧
         t ∈ Constants.TRACKS.values in
  let nonEmptyArray :=
    ∃ item items',
      ApiController.skills body
      = Some (ApiController.JArray (item :: items')) in
  let items := ApiController.itemsOf (ApiController.skills body) in
  ApiController.status response ∈ [200; 400; 500] ∧
  (ApiController.status response = 200 ↔
   validTrack ∧ nonEmptyArray ∧ Forall wellFormedSkill items) ∧
  (ApiController.status response = 500 ↔
   validTrack ∧ nonEmptyArray ∧
   ((∃ before after,
       items = before ++ ApiController.JNull :: after ∧
       Forall passesChecks before)
    ∨ (Forall passesChecks items ∧ Exists nameIsNoString items))) ∧
  (∀ track name proficiency,
     track ∈ Constants.TRACKS.values →
     proficiency ∈ Constants.PROFICIENCY_LEVELS.values →
     ApiController.status
       (ApiController.validateSkills engine settled
          {| ApiController.track := Some (ApiController.JString track);
             ApiController.skills :=
               Some (ApiController.JArray
                       [ApiController.JObject
                          [("name", ApiController.JArray name);
                           ("proficiency",
                            ApiController.JString proficiency)]]);
             ApiController.sortBy := None |})
     = 500).
Proof.
  intros response validTrack nonEmptyArray items.
  destruct (validateSkills_status_cases engine settled body)
    as (H1 & H2 & H3).
  split_and!; [done|done|done|].
  intros track name proficiency Htrack Hprof.
  apply (validateSkills_status_cases engine settled). simpl. split_and!.
  - by exists track.
  - by eexists _, _.
  - right. split.
    + apply Forall_singleton.
      exists (Some (ApiController.JArray name)),
             (Some (ApiController.JString proficiency)).
      split_and!; try done. simpl. by apply bool_decide_eq_true.
    + apply Exists_cons_hd. exists (Some (ApiController.JArray name)).
      by split_and!.
Qed.

(** * The limiter of requests per API key *)

Section Limiter.
Import RateLimiter.

Variables windowMs maxPerKey : Z.


(** The window the limiter reads for a key: the stored one, or a new one
    if there is none or it is over. *)
Lemma limiter_reads_the_window (now : Z) (store : Store) (key : string) :
  key ≠ "" →
  apiKeyRateLimiter windowMs maxPerKey now (Some key) store
  = let keyData :=
      match store !! key with
      | Some keyData =>
          if resetTime keyData <? now
          then {| count := 0; resetTime := now + windowMs |}
          else keyData
      | None => {| count := 0; resetTime := now + windowMs |}
      end in
    ((if maxPerKey <? count keyData + 1
      then TooMany (ceil_seconds (resetTime keyData - now)) maxPerKey
             (count keyData + 1)
      else Next (Some {| Limit_Key := maxPerKey;
                         Remaining_Key := maxPerKey - (count keyData + 1);
                         Reset_Key := resetTime keyData |})),
     <[key := {| count := count keyData + 1;
                 resetTime := resetTime keyData |}]> store).
Proof.
  intros Hkey. unfold apiKeyRateLimiter. rewrite decide_False by done.
  cbv zeta. simpl. by destruct (maxPerKey <? _).
Qed.




Lemma cleanExpiredKeyEntries_lookup (now : Z) (store : Store)
    (key : string) (d : KeyData) :
  cleanExpiredKeyEntries now store !! key = Some d
  ↔ store !! key = Some d ∧ now ≤ resetTime d.
Proof.
  unfold cleanExpiredKeyEntries, Store. rewrite map_lookup_filter_Some. simpl.
  split; intros [? ?]; split; try done; lia.
Qed.

Lemma cleanExpiredKeyEntries_lookup_None (now : Z) (store : Store)
    (key : string) :
  cleanExpiredKeyEntries now store !! key = None
  ↔ store !! key = None
    ∨ ∃ d, store !! key = Some d ∧ resetTime d < now.
Proof.
  unfold cleanExpiredKeyEntries, Store. rewrite map_lookup_filter_None. simpl.
  split.
  - intros [Hnone|Hall]; [by left|].
    destruct (store !! key) as [d|] eqn:Hd; [|by left].
    right. exists d. split; [done|].
    specialize (Hall d Hd). lia.
  - intros [Hnone|(d & Hd & Hlt)]; [by left|].
    right. intros d' Hd'. rewrite Hd in Hd'. injection Hd' as <-. lia.
Qed.

Lemma sameWindows_step (now now' : Z) (apiKey : option string)
    (s1 s2 : Store) :
  now ≤ now' →
  sameWindows now s1 s2 →
  (apiKeyRateLimiter windowMs maxPerKey now' apiKey s1).1
  = (apiKeyRateLimiter windowMs maxPerKey now' apiKey s2).1
  ∧ sameWindows now
      (apiKeyRateLimiter windowMs maxPerKey now' apiKey s1).2
      (apiKeyRateLimiter windowMs maxPerKey now' apiKey s2).2.
Proof.
  intros Hle Hsame. destruct apiKey as [key|]; [|done].
  destruct (decide (key = "")) as [->|Hkey]; [done|].
  rewrite !limiter_reads_the_window by done. cbv zeta.
  assert (match s1 !! key with
          | Some keyData =>
              if resetTime keyData <? now'
              then {| count := 0; resetTime := now' + windowMs |}
              else keyData
          | None => {| count := 0; resetTime := now' + windowMs |}
          end
          = match s2 !! key with
            | Some keyData =>
                if resetTime keyData <? now'
                then {| count := 0; resetTime := now' + windowMs |}
                else keyData
            | None => {| count := 0; resetTime := now' + windowMs |}
            end) as Heq.
  { destruct (Hsame key) as [->|[H1 H2]]; [done|].
    destruct (s1 !! key) as [d1|], (s2 !! key) as [d2|]; simpl in *.
    - assert (resetTime d1 <? now' = true) as -> by lia.
      by assert (resetTime d2 <? now' = true) as -> by lia.
    - by assert (resetTime d1 <? now' = true) as -> by lia.
    - by assert (resetTime d2 <? now' = true) as -> by lia.
    - done. }
  rewrite Heq. simpl. split; [done|].
  intros key'. unfold Store. destruct (decide (key = key')) as [<-|Hne].
  - left. by rewrite !lookup_insert_eq.
  - rewrite !lookup_insert_ne by done. apply Hsame.
Qed.

Lemma sameWindows_serve (now : Z) (requests : list Request)
    (s1 s2 : Store) :
  (∀ q, q ∈ requests → now ≤ q.1) →
  sameWindows now s1 s2 →
  (serve windowMs maxPerKey s1 requests).1
  = (serve windowMs maxPerKey s2 requests).1.
Proof.
  revert s1 s2.
  induction requests as [|[now' k] requests IH]; intros s1 s2 Hle Hsame;
    [done|].
  simpl.
  destruct (sameWindows_step now now' k s1 s2) as [Ho Hs];
    [apply (Hle (now', k)); by left|done|].
  rewrite Ho. f_equal. apply IH; [|done].
  intros q Hq. apply Hle. by right.
Qed.

Lemma sameWindows_sweep (now : Z) (store : Store) :
  sameWindows now (cleanExpiredKeyEntries now store) store.
Proof.
  intros key.
  destruct (cleanExpiredKeyEntries now store !! key) as [d|] eqn:Hswept.
  - apply cleanExpiredKeyEntries_lookup in Hswept as [-> _]. by left.
  - apply cleanExpiredKeyEntries_lookup_None in Hswept
      as [->|(d & -> & Hlt)]; [by left|by right].
Qed.

End Limiter.




(** The hourly sweep removes exactly the keys whose reset time is in the
    past, and the requests that arrive after the sweep are answered as
    they would have been without it: for each key the sweep removed, the
    limiter would have opened a new window anyway. *)
Theorem cleanExpiredKeyEntries_is_invisible
    (windowMs maxPerKey now : Z) (store : RateLimiter.Store)
    (requests : list RateLimiter.Request) :
  (∀ q, q ∈ requests → now ≤ q.1) →
  (∀ key d,
     RateLimiter.cleanExpiredKeyEntries now store !! key = Some d
     ↔ store !! key = Some d ∧ now ≤ RateLimiter.resetTime d) ∧
  (RateLimiter.serve windowMs maxPerKey
     (RateLimiter.cleanExpiredKeyEntries now store) requests).1
  = (RateLimiter.serve windowMs maxPerKey store requests).1.
Proof.
  intros Hle. split.
  - intros key d. apply cleanExpiredKeyEntries_lookup.
  - apply (sameWindows_serve _ _ now); [done|]. apply sameWindows_sweep.
Qed.

Lemma cleanExpiredKeyEntries_is_invisible_witness :
  let store : RateLimiter.Store :=
    {[ "old" := {| RateLimiter.count := 7; RateLimiter.resetTime := 50 |};
       "k" := {| RateLimiter.count := 2; RateLimiter.resetTime := 500 |} ]} in
  let requests : list RateLimiter.Request :=
    [(100, Some "old"); (200, Some "k"); (300, Some "old")] in
  (RateLimiter.serve 1000 2
     (RateLimiter.cleanExpiredKeyEntries 60 store) requests).1
  = (RateLimiter.serve 1000 2 store requests).1.
Proof.
  intros store requests.
  assert (∀ q, q ∈ requests → 60 ≤ q.1) as Hle.
  { intros q. subst requests. rewrite !elem_of_cons, elem_of_nil.
    intros [->|[->|[->|[]]]]; simpl; lia. }
  exact (proj2 (cleanExpiredKeyEntries_is_invisible 1000 2 60 store
                  requests Hle)).
Defined.

(** * The skills manager of the page *)

Section Skills.
Import SkillsManager.

Lemma toLowerCase_length s : String.length (JS.toLowerCase s) = String.length s.
Proof. induction s as [|a s IH]; [done|]. simpl. by rewrite IH. Qed.

Lemma toLowerCase_empty s : JS.toLowerCase s = "" ↔ s = "".
Proof. by destruct s. Qed.

Lemma prefix_append (sub s : string) :
  String.prefix sub s = true ↔ ∃ after, s = sub +:+ after.
Proof.
  revert s. induction sub as [|a sub IH]; intros s.
  - destruct s; simpl; (split; [intros _; by eexists|done]).
  - destruct s as [|b s]; simpl.
    + split; [done|]. by intros [after [=]].
    + destruct (Ascii.ascii_dec a b) as [->|Hne].
      * rewrite IH. split; intros [after Hafter]; exists after.
        -- by rewrite Hafter.
        -- by injection Hafter.
      * split; [done|]. intros [after [= <- _]]. done.
Qed.

(** [String_includes s sub] tells that [sub] occurs in [s]. *)
Lemma String_includes_occurs (s sub : string) :
  String_includes s sub = true ↔ ∃ before after, s = before +:+ sub +:+ after.
Proof.
  induction s as [|a s IH].
  - cbn [String_includes]. rewrite orb_false_r, prefix_append. split.
    + intros [after Hafter]. by exists "", after.
    + intros (before & after & Heq). exists after.
      destruct before; [done|]. by simpl in Heq.
  - cbn [String_includes]. rewrite orb_true_iff, prefix_append, IH. split.
    + intros [[after Hafter]|(before & after & Heq)].
      * by exists "", after.
      * exists (String a before), after. simpl. by rewrite Heq.
    + intros (before & after & Heq). destruct before as [|b before].
      * left. by exists after.
      * right. simpl in Heq. injection Heq as -> Heq.
        by exists before, after.
Qed.

(** The first [n] elements that satisfy [P] are the elements that satisfy
    [P] of a first part of the list. *)
Lemma take_filter_first {A} (P : A → Prop) `{!∀ x, Decision (P x)}
    (l : list A) (n : nat) :
  ∃ k, take n (filter P l) = filter P (take k l)
       ∧ (length (take n (filter P l)) = n ∨ drop k l = []).
Proof.
  revert n. induction l as [|x l IH]; intros n.
  - exists 0%nat. rewrite filter_nil. destruct n; (split; [done|by right]).
  - destruct n as [|n].
    + exists 0%nat. split; [done|by left].
    + rewrite filter_cons. destruct (decide (P x)) as [HP|HP].
      * destruct (IH n) as (k & Heq & Hk). exists (S k). simpl.
        rewrite filter_cons, decide_True by done. rewrite Heq.
        split; [done|]. destruct Hk as [Hk|Hk]; [left|by right].
        simpl. by rewrite <- Heq, Hk.
      * destruct (IH (S n)) as (k & Heq & Hk). exists (S k). simpl.
        rewrite filter_cons, decide_False by done. by split.
Qed.


Variable engine : Engine.t.
Variable allSkills : list string.

Local Abbreviation lower := (Engine.toLowerCase engine).

Lemma isValidSkill_spec (skillName : string) :
  isValidSkill engine allSkills skillName = true ↔
  ∃ skill, skill ∈ allSkills ∧ lower skill = lower skillName.
Proof.
  unfold isValidSkill. rewrite existsb_exists. split.
  - intros (skill & Hin & Heq%bool_decide_eq_true). exists skill.
    split; [by apply list_elem_of_In|done].
  - intros (skill & Hin & Heq). exists skill.
    split; [by apply list_elem_of_In|by apply bool_decide_eq_true].
Qed.

Lemma formatSkillName_found (skillName : string) (i : nat) (skill : string) :
  list_find (λ skill, lower skill = lower skillName) allSkills
  = Some (i, skill) →
  formatSkillName engine allSkills skillName
  = if decide (skill = "") then skillName else skill.
Proof. intros Hfind. unfold formatSkillName. by rewrite Hfind. Qed.

Lemma formatSkillName_none (skillName : string) :
  list_find (λ skill, lower skill = lower skillName) allSkills = None →
  formatSkillName engine allSkills skillName = skillName.
Proof. intros Hfind. unfold formatSkillName. by rewrite Hfind. Qed.

Lemma list_find_same_case (skillName other : string) :
  lower other = lower skillName →
  list_find (λ skill, lower skill = lower other) allSkills
  = list_find (λ skill, lower skill = lower skillName) allSkills.
Proof. intros Heq. apply list_find_ext. intros skill. by rewrite Heq. Qed.

Lemma formatSkillName_same_case (skillName : string) :
  lower (formatSkillName engine allSkills skillName) = lower skillName.
Proof.
  destruct (list_find (λ skill, lower skill = lower skillName) allSkills)
    as [[i skill]|] eqn:Hfind.
  - rewrite (formatSkillName_found _ _ _ Hfind).
    case_decide; [done|].
    by apply list_find_Some in Hfind as (_ & Heq & _).
  - by rewrite (formatSkillName_none _ Hfind).
Qed.

End Skills.

(** [normalizeProficiency] always gives one of the three levels, which
    the controller of the API accepts: the level in small letters if the
    input is one up to the case of its letters, and ["intermediate"] for
    anything else.  Normalising twice changes nothing. *)
Theorem normalizeProficiency_gives_a_level (proficiency : string) :
  let level := SkillsManager.normalizeProficiency proficiency in
  level ∈ Constants.PROFICIENCY_LEVELS.values ∧
  (JS.toLowerCase proficiency ∈ Constants.PROFICIENCY_LEVELS.values →
   level = JS.toLowerCase proficiency) ∧
  (JS.toLowerCase proficiency ∉ Constants.PROFICIENCY_LEVELS.values →
   level = "intermediate") ∧
  SkillsManager.normalizeProficiency level = level ∧
  ApiController.includes Constants.PROFICIENCY_LEVELS.values
    (Some (ApiController.JString level)) = true.
Proof.
  intros level. subst level. unfold SkillsManager.normalizeProficiency.
  cbv zeta. unfold JS.includes.
  change ["beginner"; "intermediate"; "strong"]
    with Constants.PROFICIENCY_LEVELS.values.
  assert ("intermediate" ∈ Constants.PROFICIENCY_LEVELS.values) as Hmid
    by (right; left).
  destruct (decide (JS.toLowerCase proficiency
                    ∈ Constants.PROFICIENCY_LEVELS.values)) as [Hin|Hout].
  - rewrite bool_decide_eq_true_2 by done.
    rewrite toLowerCase_idempotent. rewrite bool_decide_eq_true_2 by done.
    split_and!; try done; simpl; unfold JS.includes;
      by apply bool_decide_eq_true.
  - rewrite bool_decide_eq_false_2 by done.
    change (JS.toLowerCase "intermediate") with "intermediate".
    rewrite bool_decide_eq_true_2 by done.
    split_and!; try done; simpl; unfold JS.includes;
      by apply bool_decide_eq_true.
Qed.

(** [formatSkillName] gives a name that [toLowerCase] maps to the same
    string as the name it was given: the first skill of the list with
    that lower-case form, when there is one and it is not the empty
    string, and the name as it is otherwise.  So a name that
    [isValidSkill] accepts becomes a skill of the list (unless the empty
    string is a skill of the list), and a name that it does not accept
    stays as it is.  Formatting twice changes nothing, the formatted
    name is valid exactly when the name is, and the gaps that [findGaps]
    finds for formatted names are those it finds for the names as
    typed. *)
Theorem formatSkillName_keeps_the_skill (engine : Engine.t)
    (allSkills : list string) (skillName : string) :
  let lower := Engine.toLowerCase engine in
  let formatted := SkillsManager.formatSkillName engine allSkills skillName in
  lower formatted = lower skillName ∧
  SkillsManager.formatSkillName engine allSkills formatted = formatted ∧
  (∀ i skill,
     list_find (λ skill, lower skill = lower skillName) allSkills
     = Some (i, skill) →
     skill ≠ "" → formatted = skill) ∧
  (SkillsManager.isValidSkill engine allSkills skillName = true →
   formatted ∈ allSkills ∨ (formatted = skillName ∧ "" ∈ allSkills)) ∧
  (SkillsManager.isValidSkill engine allSkills skillName = false →
   formatted = skillName) ∧
  SkillsManager.isValidSkill engine allSkills formatted
  = SkillsManager.isValidSkill engine allSkills skillName ∧
  (∀ R track userSkillNames coreSkillNames,
     ValidationService.findGapsIn engine R track
       (SkillsManager.formatSkillName engine allSkills <$> userSkillNames)
       coreSkillNames
     = ValidationService.findGapsIn engine R track userSkillNames
         coreSkillNames).
Proof.
  intros lower formatted. subst lower.
  pose proof (formatSkillName_same_case engine allSkills skillName) as Hcase.
  assert (formatted = SkillsManager.formatSkillName engine allSkills skillName)
    as Hdef by done.
  clearbody formatted. rewrite <- Hdef in Hcase.
  assert (SkillsManager.isValidSkill engine allSkills formatted
          = SkillsManager.isValidSkill engine allSkills skillName) as Hvalid.
  { unfold SkillsManager.isValidSkill. by rewrite Hcase. }
  split_and!; try done.
  - destruct (list_find
                (λ skill, Engine.toLowerCase engine skill
                          = Engine.toLowerCase engine skillName)
                allSkills) as [[i skill]|] eqn:Hfind.
    + rewrite (formatSkillName_found _ _ _ _ _ Hfind) in Hdef.
      rewrite <- (list_find_same_case engine allSkills skillName formatted)
        in Hfind by done.
      rewrite (formatSkillName_found _ _ _ _ _ Hfind).
      by case_decide.
    + rewrite <- (list_find_same_case engine allSkills skillName formatted)
        in Hfind by done.
      by apply formatSkillName_none.
  - intros i skill Hfind Hne.
    rewrite (formatSkillName_found _ _ _ _ _ Hfind) in Hdef.
    by rewrite decide_False in Hdef.
  - intros Hv. apply isValidSkill_spec in Hv as (skill & Hin & Heq).
    destruct (list_find
                (λ skill, Engine.toLowerCase engine skill
                          = Engine.toLowerCase engine skillName)
                allSkills) as [[i found]|] eqn:Hfind.
    + rewrite (formatSkillName_found _ _ _ _ _ Hfind) in Hdef.
      apply list_find_Some in Hfind as (Hi & _ & _).
      apply list_elem_of_lookup_2 in Hi.
      case_decide as Hempty.
      * right. split; [done|]. by rewrite <- Hempty.
      * left. by rewrite Hdef.
    + apply list_find_None in Hfind.
      by apply (proj1 (Forall_forall _ _) Hfind) in Hin.
  - intros Hv. rewrite Hdef. apply formatSkillName_none.
    apply list_find_None, Forall_forall. intros skill Hin Heq.
    assert (SkillsManager.isValidSkill engine allSkills skillName = true)
      as Hyes by (apply isValidSkill_spec; by exists skill).
    by rewrite Hv in Hyes.
  - intros R track userSkillNames coreSkillNames.
    unfold ValidationService.findGapsIn. cbv zeta.
    rewrite <- list_fmap_compose.
    assert (Engine.toLowerCase engine
            ∘ SkillsManager.formatSkillName engine allSkills
            <$> userSkillNames
            = Engine.toLowerCase engine <$> userSkillNames) as ->; [|done].
    apply list_fmap_ext. intros _ name _. simpl.
    apply formatSkillName_same_case.
Qed.

(** With the list that [getAllSkills] gives, [isValidSkill] accepts a
    name exactly when [isCoreSkill] says that it is a core skill of some
    track. *)
Theorem isValidSkill_of_the_catalog (engine : Engine.t)
    (R : gmap string Roadmaps.Roadmap) (skillName : string) :
  SkillsManager.isValidSkill engine (Catalog.getAllSkillsIn R) skillName
  = true ↔
  ∃ track, Roadmaps.isCoreSkillIn engine R track skillName = Ok true.
Proof.
  rewrite isValidSkill_spec. split.
  - intros (skill & Hin & Heq).
    apply getAllSkillsIn_elem in Hin
      as (track & roadmap & s & Hr & Hs & <-).
    exists track. unfold Roadmaps.isCoreSkillIn, Roadmaps.getCoreSkillsIn.
    rewrite Hr. simpl. f_equal. apply existsb_exists. exists s.
    split; [by apply list_elem_of_In|by apply bool_decide_eq_true].
  - intros (track & Hcore).
    unfold Roadmaps.isCoreSkillIn, Roadmaps.getCoreSkillsIn in Hcore.
    destruct (R !! track) as [roadmap|] eqn:Hr; [|by case_decide].
    simpl in Hcore. injection Hcore as Hcore.
    apply existsb_exists in Hcore as (s & Hs & Heq).
    exists (Roadmaps.name s).
    split; [|by apply bool_decide_eq_true in Heq].
    apply getAllSkillsIn_elem. exists track, roadmap, s.
    split_and!; [done| |done]. by apply list_elem_of_In.
Qed.

(** [searchSkills] gives the first ten skills of the list, in its order,
    whose name in lower case contains the query in lower case, and
    nothing for a query of fewer than two characters: what it gives are
    the skills that contain the query among a first part of the list,
    and either they are ten or that part is the whole list.  The case of
    the letters of a query written in ASCII characters makes no
    difference. *)
Theorem searchSkills_gives_the_first_ten_matches (engine : Engine.t)
    (allSkills : list string) (query : string) :
  let lower := Engine.toLowerCase engine in
  let found := SkillsManager.searchSkills engine allSkills query in
  let contains (skill : string) :=
    ∃ before after, lower skill = before +:+ lower query +:+ after in
  (length found ≤ 10)%nat ∧
  (∀ skill, skill ∈ found → contains skill) ∧
  ((String.length query < 2)%nat → found = []) ∧
  ((2 ≤ String.length query)%nat →
   ∃ first rest,
     allSkills = first ++ rest ∧ found `sublist_of` first ∧
     (∀ skill, skill ∈ first → contains skill → skill ∈ found) ∧
     (length found = 10%nat ∨ rest = [])) ∧
  (JS.isASCII query = true →
   SkillsManager.searchSkills engine allSkills (JS.toLowerCase query)
   = found).
Proof.
  intros lower found contains. subst found lower.
  assert (JS.isASCII query = true →
          SkillsManager.searchSkills engine allSkills (JS.toLowerCase query)
          = SkillsManager.searchSkills engine allSkills query) as Hcase.
  { intros Hascii. unfold SkillsManager.searchSkills.
    rewrite toLowerCase_length, (lower_toLowerCase engine query Hascii).
    destruct (decide (query = "")) as [->|Hquery]; [done|].
    by rewrite (decide_False (P := JS.toLowerCase query = ""))
      by (by rewrite toLowerCase_empty). }
  set (other := SkillsManager.searchSkills engine allSkills
                  (JS.toLowerCase query)) in *.
  clearbody other. revert Hcase.
  unfold SkillsManager.searchSkills.
  destruct (decide (query = "")) as [->|Hquery].
  { simpl. intros Hcase. split_and!; try done.
    - lia.
    - intros skill Hin. by apply elem_of_nil in Hin.
    - lia. }
  destruct (String.length query <? 2)%nat eqn:Hlen.
  { apply Nat.ltb_lt in Hlen. intros Hcase. split_and!; try done.
    - simpl. lia.
    - intros skill Hin. by apply elem_of_nil in Hin.
    - lia. }
  apply Nat.ltb_ge in Hlen. unfold JS.slice0.
  change (10 <? 0) with false. cbv iota.
  change (Z.to_nat 10) with 10%nat.
  set (P := λ skill : string,
         SkillsManager.String_includes (Engine.toLowerCase engine skill)
           (Engine.toLowerCase engine query) = true).
  assert (∀ skill, P skill ↔ contains skill) as HP
    by (intros skill; apply String_includes_occurs).
  intros Hcase. split_and!; try done.
  - rewrite length_take. lia.
  - intros skill Hin. apply HP.
    pose proof (elem_of_sublist _ _ _ Hin (sublist_take _ _)) as Hin'.
    by apply list_elem_of_filter in Hin' as [? _].
  - lia.
  - intros _. destruct (take_filter_first P allSkills 10) as (k & Heq & Hk).
    exists (take k allSkills), (drop k allSkills).
    rewrite take_drop, Heq. split_and!.
    + done.
    + apply sublist_filter.
    + intros skill Hin Hc. apply list_elem_of_filter. split; [|done].
      by apply HP.
    + by rewrite <- Heq.
Qed.

(** * The tags of a skill *)

Section Tags.

Lemma allChars_app (Q : ascii → bool) (a b : string) :
  allChars Q (a +:+ b) = allChars Q a && allChars Q b.
Proof.
  induction a as [|x a IH]; [done|]. simpl. by rewrite IH, andb_assoc.
Qed.

Lemma allChars_impl (Q Q' : ascii → bool) (s : string) :
  (∀ a, Q a = true → Q' a = true) →
  allChars Q s = true → allChars Q' s = true.
Proof.
  intros HQ. induction s as [|a s IH]; [done|]. simpl.
  intros [Ha Hs]%andb_true_iff. by rewrite (HQ a Ha), IH.
Qed.

Lemma lower_ascii_idempotent (a : ascii) :
  JS.lower_ascii (JS.lower_ascii a) = JS.lower_ascii a.
Proof.
  pose proof (toLowerCase_idempotent (String a "")) as H.
  simpl in H. by injection H.
Qed.

Lemma toLowerCase_chars (s : string) :
  allChars (λ a, bool_decide (JS.lower_ascii a = a)) (JS.toLowerCase s)
  = true.
Proof.
  induction s as [|a s IH]; [done|]. simpl. rewrite IH, andb_true_r.
  apply bool_decide_eq_true, lower_ascii_idempotent.
Qed.

Lemma toLowerCase_fixed (s : string) :
  allChars (λ a, bool_decide (JS.lower_ascii a = a)) s = true →
  JS.toLowerCase s = s.
Proof.
  induction s as [|a s IH]; [done|]. simpl.
  intros [Ha%bool_decide_eq_true Hs]%andb_true_iff.
  by rewrite Ha, IH.
Qed.

Lemma replaceSpaces_chars (Q Q' : ascii → bool) (r s : string)
    (inRun : bool) :
  allChars Q' r = true →
  (∀ a, Q a = true → JSString.isSpace a = false → Q' a = true) →
  allChars Q s = true →
  allChars Q' (JSString.replaceSpaces_from inRun r s) = true.
Proof.
  intros Hr HQ. revert inRun. induction s as [|a s IH]; intros inRun; [done|].
  simpl. intros [Ha Hs]%andb_true_iff.
  destruct (JSString.isSpace a) eqn:Hspace.
  - destruct inRun; [by apply IH|].
    rewrite allChars_app, Hr. by apply IH.
  - simpl. by rewrite (HQ a Ha Hspace), IH.
Qed.

Lemma replaceSpaces_fixed (r s : string) (inRun : bool) :
  allChars (λ a, negb (JSString.isSpace a)) s = true →
  JSString.replaceSpaces_from inRun r s = s.
Proof.
  revert inRun. induction s as [|a s IH]; intros inRun; [done|]. simpl.
  intros [Ha%negb_true_iff Hs]%andb_true_iff.
  by rewrite Ha, IH.
Qed.

Lemma replaceAll_chars (Q Q' : ascii → bool) (c : ascii) (r s : string) :
  allChars Q' r = true →
  (∀ a, Q a = true → a ≠ c → Q' a = true) →
  allChars Q s = true →
  allChars Q' (JSString.replaceAll c r s) = true.
Proof.
  intros Hr HQ. induction s as [|a s IH]; [done|].
  simpl. intros [Ha Hs]%andb_true_iff.
  destruct (decide (a = c)) as [->|Hne].
  - rewrite allChars_app, Hr. by apply IH.
  - simpl. by rewrite (HQ a Ha Hne), IH.
Qed.

Lemma replaceAll_fixed (c : ascii) (r s : string) :
  allChars (λ a, bool_decide (a ≠ c)) s = true →
  JSString.replaceAll c r s = s.
Proof.
  induction s as [|a s IH]; [done|]. simpl.
  intros [Ha%bool_decide_eq_true Hs]%andb_true_iff.
  by rewrite decide_False, IH.
Qed.

Lemma baseTagOf_chars (skillName : string) :
  allChars tagChar (Providers.baseTagOf skillName) = true.
Proof.
  unfold Providers.baseTagOf.
  apply (replaceAll_chars
           (λ a, negb (JSString.isSpace a)
                 && bool_decide (a ≠ "/"%char)
                 && bool_decide (a ≠ "."%char)
                 && bool_decide (JS.lower_ascii a = a))); [done| |].
  { intros a Ha Hne. unfold tagChar.
    apply andb_true_iff in Ha as [Ha Hlow].
    rewrite Ha, Hlow. simpl. rewrite andb_true_r.
    by apply bool_decide_eq_true. }
  apply (replaceAll_chars
           (λ a, negb (JSString.isSpace a)
                 && bool_decide (a ≠ "/"%char)
                 && bool_decide (JS.lower_ascii a = a))); [done| |].
  { intros a Ha Hne.
    apply andb_true_iff in Ha as [Ha Hlow].
    rewrite Ha, Hlow. simpl. rewrite andb_true_r.
    by apply bool_decide_eq_true. }
  apply (replaceAll_chars
           (λ a, negb (JSString.isSpace a)
                 && bool_decide (JS.lower_ascii a = a))); [done| |].
  { intros a Ha Hne.
    apply andb_true_iff in Ha as [Ha Hlow].
    rewrite Ha, Hlow. simpl. rewrite andb_true_r.
    by apply bool_decide_eq_true. }
  apply (replaceSpaces_chars
           (λ a, bool_decide (JS.lower_ascii a = a))); [done| |].
  { intros a Ha Hspace. by rewrite Ha, Hspace. }
  apply toLowerCase_chars.
Qed.

Lemma baseTagOf_fixed (tag : string) :
  allChars tagChar tag = true → Providers.baseTagOf tag = tag.
Proof.
  intros Htag. unfold Providers.baseTagOf.
  rewrite toLowerCase_fixed.
  2:{ apply (allChars_impl tagChar); [|done]. unfold tagChar. intros a Ha.
      by apply andb_true_iff in Ha as [_ ?]. }
  unfold JSString.replaceSpaces. rewrite replaceSpaces_fixed.
  2:{ apply (allChars_impl tagChar); [|done]. unfold tagChar. intros a Ha.
      by repeat apply andb_true_iff in Ha as [Ha _]. }
  rewrite (replaceAll_fixed "/").
  2:{ apply (allChars_impl tagChar); [|done]. unfold tagChar. intros a Ha.
      apply andb_true_iff in Ha as [Ha _].
      apply andb_true_iff in Ha as [Ha _].
      apply andb_true_iff in Ha as [Ha _].
      by apply andb_true_iff in Ha as [_ ?]. }
  rewrite (replaceAll_fixed ".").
  2:{ apply (allChars_impl tagChar); [|done]. unfold tagChar. intros a Ha.
      apply andb_true_iff in Ha as [Ha _].
      apply andb_true_iff in Ha as [Ha _].
      by apply andb_true_iff in Ha as [_ ?]. }
  rewrite (replaceAll_fixed "+"); [done|].
  apply (allChars_impl tagChar); [|done]. unfold tagChar. intros a Ha.
  apply andb_true_iff in Ha as [Ha _].
  by apply andb_true_iff in Ha as [_ ?].
Qed.

(** The entries of [tagMap] whose key the normalisation can give hold
    their own key, and every entry holds two tags. *)
Lemma tagMap_entries :
  Forall (λ kv : string * list string,
            length kv.2 = 2%nat
            ∧ (allChars tagChar kv.1 = true → kv.1 ∈ kv.2))
    Providers.tagMap.
Proof.
  unfold Providers.tagMap.
  repeat (apply Forall_cons; split;
          [split; [done|];
           first [ by (intros _; repeat first [by left | right])
                 | by (vm_compute; intros [=]) ]|]).
  apply Forall_nil_2.
Qed.

(** The names of [Object.prototype] that the normalisation can give. *)
Lemma inherited_tags (tag : string) :
  allChars tagChar tag = true →
  (tag ∈ JS.Object_prototype_names
   ↔ tag ∈ ["constructor"; "__proto__"]).
Proof.
  intros Htag. unfold JS.Object_prototype_names. split.
  - intros Hin.
    repeat (apply elem_of_cons in Hin as [->|Hin];
            [first [ by left | by right; left
                   | by vm_compute in Htag ]|]).
    by apply elem_of_nil in Hin.
  - intros Hin.
    apply elem_of_cons in Hin as [->|Hin]; [by left|].
    apply elem_of_cons in Hin as [->|Hin];
      [by repeat first [by left | right]|].
    by apply elem_of_nil in Hin.
Qed.

Lemma tagMap_inherited (tag : string) :
  tag ∈ ["constructor"; "__proto__"] →
  (list_to_map Providers.tagMap : gmap string (list string)) !! tag = None.
Proof.
  intros Hin. apply not_elem_of_list_to_map_1.
  apply elem_of_cons in Hin as [->|Hin];
    [by apply (bool_decide_unpack _); vm_compute|].
  apply elem_of_cons in Hin as [->|Hin];
    [by apply (bool_decide_unpack _); vm_compute|].
  by apply elem_of_nil in Hin.
Qed.

End Tags.

(** The normalised name of a skill has no white space, no capital
    letter and none of [/], [.] and [+], and normalising it again changes
    nothing; so the entries [node.js] and [express.js] of the table of
    variations are never used.  For every skill but those whose
    normalised name is [constructor] or [__proto__], [buildSkillTags]
    returns one or two tags, and the normalised name is one of them.
    For these two names it returns no array of tags, but what the table
    inherits from [Object.prototype] under the name.  The case of the
    letters of the skill makes no difference. *)
Theorem buildSkillTags_holds_the_normalised_name (skillName track : string) :
  let baseTag := Providers.baseTagOf skillName in
  let result := Providers.buildSkillTags skillName track in
  allChars tagChar baseTag = true ∧
  Providers.baseTagOf baseTag = baseTag ∧
  baseTag ∉ ["node.js"; "express.js"] ∧
  (baseTag ∉ ["constructor"; "__proto__"] →
   ∃ tags, result = Providers.Tags tags ∧ baseTag ∈ tags
           ∧ (1 ≤ length tags ≤ 2)%nat) ∧
  (baseTag ∈ ["constructor"; "__proto__"] →
   result = Providers.Inherited baseTag) ∧
  Providers.buildSkillTags (JS.toLowerCase skillName) track = result.
Proof.
  intros baseTag result.
  pose proof (baseTagOf_chars skillName) as Hchars. fold baseTag in Hchars.
  pose proof (inherited_tags baseTag Hchars) as Hinherited.
  split; [done|]. split; [by apply baseTagOf_fixed|]. split; [|split_and!].
  - intros Hdot. clearbody baseTag.
    apply elem_of_cons in Hdot as [->|Hdot]; [by vm_compute in Hchars|].
    apply elem_of_cons in Hdot as [->|Hdot]; [by vm_compute in Hchars|].
    by apply elem_of_nil in Hdot.
  - intros Hown. subst result. unfold Providers.buildSkillTags. cbv zeta.
    fold baseTag.
    destruct ((list_to_map Providers.tagMap : gmap string (list string))
                !! baseTag) as [found|] eqn:Hfound.
    + apply elem_of_list_to_map_2 in Hfound.
      pose proof (proj1 (Forall_forall _ _) tagMap_entries _ Hfound)
        as [Htwo Hown'].
      simpl in Htwo, Hown'. exists found.
      split; [done|]. split; [by apply Hown'|lia].
    + rewrite decide_False by (by rewrite Hinherited).
      exists [baseTag]. split; [done|]. split; [by left|simpl; lia].
  - intros Hin. subst result. unfold Providers.buildSkillTags. cbv zeta.
    fold baseTag. rewrite (tagMap_inherited baseTag Hin).
    by rewrite decide_True by (by rewrite Hinherited).
  - subst result. unfold Providers.buildSkillTags, Providers.baseTagOf.
    by rewrite toLowerCase_idempotent.
Qed.

(** * The handler of the core skills *)

(** The handler of the core skills answers 200 with the catalog of the
    track, which is not empty, exactly for the three tracks, and 400 for
    any other track; it never answers 500, because the tracks the
    controller accepts are exactly the keys of [ROADMAPS], for which
    [getCoreSkills] does not throw. *)
Theorem getCoreSkills_handler_never_fails (track : string) :
  let response := ApiController.getCoreSkills track in
  (track ∈ Constants.TRACKS.values ↔ is_Some (Roadmaps.ROADMAPS !! track)) ∧
  (track ∈ Constants.TRACKS.values →
   ∃ core,
     response = ApiController.Success (ApiController.CoreSkills (Some core))
     ∧ Roadmaps.getCoreSkills track = Ok (Some core) ∧ core ≠ []) ∧
  (track ∉ Constants.TRACKS.values →
   response = ApiController.Error 400 "Invalid track"
                "Track must be one of: frontend, backend, fullstack") ∧
  (ApiController.status response = 200
   ↔ track ∈ Constants.TRACKS.values) ∧
  ApiController.status response ∈ [200; 400].
Proof.
  intros response. subst response. unfold ApiController.getCoreSkills.
  unfold JS.includes.
  assert (track ∈ Constants.TRACKS.values
          ↔ is_Some (Roadmaps.ROADMAPS !! track)) as Hkeys.
  { split; [|apply ROADMAPS_tracks]. intros Hin.
    destruct (TRACKS_getCoreSkills track Hin) as (core & Hcore & _).
    unfold Roadmaps.getCoreSkills, Roadmaps.getCoreSkillsIn in Hcore.
    destruct (Roadmaps.ROADMAPS !! track); [done|]. by case_decide. }
  split; [done|].
  destruct (decide (track ∈ Constants.TRACKS.values)) as [Hin|Hout].
  - rewrite bool_decide_eq_true_2 by done. simpl.
    destruct (TRACKS_getCoreSkills track Hin) as (core & Hcore & Hne).
    rewrite Hcore. simpl. split_and!; try done.
    + intros _. by exists core.
    + by left.
  - rewrite bool_decide_eq_false_2 by done. simpl. split_and!; try done.
    by right; left.
Qed.
